(** * DeepRegFinder: the neural network models of [nn_models.py]

    A shallow embedding of [KimNet], [ConvNet] and [init_weights].

    Scalars are real numbers: the arithmetic of the tensors is the exact one,
    not the rounded one of the machine.  A tensor is a shape and its entries
    in row-major order, as a contiguous tensor is stored.  A layer call
    returns its output together with the layer after the call (batch
    normalisation updates its running statistics) and the random number
    generator after the call (dropout draws from it); what the numeric
    library refuses is an [Error]. *)

From Stdlib Require Import String.
From Stdlib Require Import Reals List Arith ZArith Lia Lra Bool.
Import ListNotations.

Set Implicit Arguments.

(** ** Errors *)

Inductive Error : Type :=
| AssertionError (msg : string)
| RuntimeError
| ValueError
| IndexError.

Inductive result (A : Type) : Type :=
| Ok (a : A)
| Raise (e : Error).

Arguments Ok {A} a.
Arguments Raise {A} e.

Definition bind {A B : Type} (r : result A) (k : A -> result B) : result B :=
  match r with
  | Ok a => k a
  | Raise e => Raise e
  end.

Notation "'do' x <- r ; k" := (bind r (fun x => k))
  (at level 10, x pattern, r at level 100, k at level 200).

Definition is_ok {A : Type} (r : result A) : bool :=
  match r with Ok _ => true | Raise _ => false end.

(** ** Tabulated data *)

Definition tab {A : Type} (n : nat) (f : nat -> A) : list A := map f (seq 0 n).

(** The entries of a [B x C x L] array in row-major order. *)
Definition mk3 {A : Type} (B C L : nat) (f : nat -> nat -> nat -> A) : list A :=
  concat (tab B (fun b => concat (tab C (fun c => tab L (f b c))))).

Definition mk2 {A : Type} (B C : nat) (f : nat -> nat -> A) : list A :=
  concat (tab B (fun b => tab C (f b))).

Fixpoint map2 {A B C : Type} (f : A -> B -> C) (l : list A) (l' : list B) : list C :=
  match l, l' with
  | a :: t, b :: t' => f a b :: map2 f t t'
  | _, _ => []
  end.

Definition sumf (n : nat) (f : nat -> R) : R := fold_right Rplus 0%R (tab n f).

Fixpoint maxf (k : nat) (f : nat -> R) : R :=
  match k with
  | 0 => 0%R
  | S k' => match k' with
            | 0 => f 0
            | S _ => Rmax (maxf k' f) (f k')
            end
  end.

(** ** Tensors *)

Record Tensor : Type := mkTensor { shape : list nat; data : list R }.

Definition numel (s : list nat) : nat := fold_right Nat.mul 1 s.

Definition at1 (t : Tensor) (i : nat) : R := nth i (data t) 0%R.

(** Entry [(b, c)] of a tensor read as [_ x C]. *)
Definition at2 (C : nat) (t : Tensor) (b c : nat) : R := nth (b * C + c) (data t) 0%R.

(** Entry [(b, c, l)] of a tensor read as [_ x C x L]. *)
Definition at3 (C L : nat) (t : Tensor) (b c l : nat) : R :=
  nth ((b * C + c) * L + l) (data t) 0%R.

Definition shape_eqb (s s' : list nat) : bool :=
  if list_eq_dec Nat.eq_dec s s' then true else false.

(** [t.view((-1, k))] on a contiguous tensor, which is what a [Tensor] is:
    the entries are kept, the shape becomes [(n / k, k)]; refused when [k]
    does not divide the number of entries, and when [k] is 0 (no entry: the
    free dimension is ambiguous; otherwise: no such shape).  The strides of a
    contiguous tensor allow every such view; [view], further down, is the
    same call on a tensor of any layout, where the strides decide too. *)
Definition view_rows (k : nat) (t : Tensor) : result Tensor :=
  let n := numel (shape t) in
  if k =? 0 then Raise RuntimeError
  else if n mod k =? 0 then Ok {| shape := [n / k; k]; data := data t |}
  else Raise RuntimeError.

(** [torch.add] on two outputs of one pipeline: entrywise on equal shapes; when
    only the leading dimensions differ and one of them is 1, that operand is
    repeated along it; refused otherwise. *)
Definition torch_add (a b : Tensor) : result Tensor :=
  if shape_eqb (shape a) (shape b) then
    Ok {| shape := shape a; data := map2 Rplus (data a) (data b) |}
  else
    match shape a, shape b with
    | Ba :: ra, Bb :: rb =>
        if negb (shape_eqb ra rb) then Raise RuntimeError
        else if Ba =? 1 then
          Ok {| shape := shape b;
                data := tab (numel (shape b))
                          (fun i => (at1 a (i mod numel ra) + at1 b i)%R) |}
        else if Bb =? 1 then
          Ok {| shape := shape a;
                data := tab (numel (shape a))
                          (fun i => (at1 a i + at1 b (i mod numel rb))%R) |}
        else Raise RuntimeError
    | _, _ => Raise RuntimeError
    end.

Definition torch_div (a : Tensor) (k : R) : Tensor :=
  {| shape := shape a; data := map (fun v => (v / k)%R) (data a) |}.

Definition torch_log (a : Tensor) : Tensor :=
  {| shape := shape a; data := map ln (data a) |}.

(** [torch.squeeze(t)] without a dimension: every dimension of size 1 goes. *)
Definition torch_squeeze (a : Tensor) : Tensor :=
  {| shape := filter (fun d => negb (d =? 1)) (shape a); data := data a |}.

Definition zeros_ (t : Tensor) : Tensor :=
  {| shape := shape t; data := map (fun _ => 0%R) (data t) |}.

(** ** The random number generator *)

Record Generator : Type := mkGenerator {
  uniform01 : nat -> R;    (* the uniform draws on [0, 1) to come *)
  std_normal : nat -> R;   (* the standard normal draws to come *)
  offset : nat             (* how many draws were taken *)
}.

Definition draw_uniform (g : Generator) (i : nat) : R := uniform01 g (offset g + i).
Definition draw_normal (g : Generator) (i : nat) : R := std_normal g (offset g + i).

Definition advance (n : nat) (g : Generator) : Generator :=
  {| uniform01 := uniform01 g; std_normal := std_normal g; offset := offset g + n |}.

(** [torch.empty(s).uniform_(lo, hi)] *)
Definition uniform_ (s : list nat) (lo hi : R) (g : Generator) : Tensor * Generator :=
  ({| shape := s; data := tab (numel s) (fun i => (lo + (hi - lo) * draw_uniform g i)%R) |},
   advance (numel s) g).

(** [torch.empty(s).normal_(mean, std)] *)
Definition normal_ (s : list nat) (mean std : R) (g : Generator) : Tensor * Generator :=
  ({| shape := s; data := tab (numel s) (fun i => (mean + std * draw_normal g i)%R) |},
   advance (numel s) g).

Definition full (s : list nat) (v : R) : Tensor :=
  {| shape := s; data := tab (numel s) (fun _ => v) |}.

(** ** Layers *)

Inductive Layer : Type :=
| Linear (weight bias : Tensor)
| Softplus
| Dropout (p : R)
| Softmax (dim : nat)
| Conv1d (padding : nat) (weight bias : Tensor)
| BatchNorm1d (weight bias running_mean running_var : Tensor) (num_batches_tracked : nat)
| ReLU
| LeakyReLU
| MaxPool1d (kernel_size stride : nat)
| AdaptiveAvgPool1d (output_size : nat).

(** The defaults of the library that the source leaves implicit. *)
Definition softplus_threshold : R := 20%R.
Definition leaky_slope : R := (1 / 100)%R.
Definition bn_eps : R := (1 / 100000)%R.
Definition bn_momentum : R := (1 / 10)%R.

(** [F.linear(x, W, b)]: [W] is [out x in], the last dimension of [x] is [in]. *)
Definition linear (weight bias x : Tensor) : result Tensor :=
  match shape weight with
  | [outf; inf] =>
      match shape x with
      | [] => Raise RuntimeError
      | _ :: _ =>
          if last (shape x) 0 =? inf then
            let rows := numel (removelast (shape x)) in
            Ok {| shape := removelast (shape x) ++ [outf];
                  data := mk2 rows outf (fun r o =>
                            (at1 bias o
                             + sumf inf (fun i => at2 inf x r i * at2 inf weight o i))%R) |}
          else Raise RuntimeError
      end
  | _ => Raise RuntimeError
  end.

Definition softplus1 (v : R) : R :=
  if Rlt_dec softplus_threshold v then v else ln (1 + exp v).

Definition softplus (x : Tensor) : Tensor :=
  {| shape := shape x; data := map softplus1 (data x) |}.

(** Dropout in training mode: entry [i] is kept, and scaled by [1 / (1 - p)],
    when the [i]-th draw falls below [1 - p]; it is zeroed otherwise. *)
Definition dropout (p : R) (x : Tensor) (g : Generator) : Tensor * Generator :=
  ({| shape := shape x;
      data := map2 (fun i v => if Rlt_dec (draw_uniform g i) (1 - p)
                               then (v / (1 - p))%R else 0%R)
                   (seq 0 (length (data x))) (data x) |},
   advance (length (data x)) g).

(** Softmax along dimension [dim]: the tensor is read as [outer x C x inner]. *)
Definition softmax (dim : nat) (x : Tensor) : result Tensor :=
  if length (shape x) <=? dim then Raise IndexError
  else
    let outer := numel (firstn dim (shape x)) in
    let C := nth dim (shape x) 0 in
    let inner := numel (skipn (S dim) (shape x)) in
    Ok {| shape := shape x;
          data := mk3 outer C inner (fun b c l =>
                    (exp (at3 C inner x b c l)
                     / sumf C (fun c' => exp (at3 C inner x b c' l)))%R) |}.

(** [F.conv1d] with stride 1 on a batch [B x C x L], zero padding on both sides. *)
Definition conv1d (padding : nat) (weight bias x : Tensor) : result Tensor :=
  match shape weight, shape x with
  | [cout; cin; k], [B; C; L] =>
      if negb (C =? cin) then Raise RuntimeError
      else if L + 2 * padding <? k then Raise RuntimeError
      else
        let Lout := L + 2 * padding - k + 1 in
        let xpad b c i :=
          if (padding <=? i) && (i <? padding + L)
          then at3 C L x b c (i - padding) else 0%R in
        Ok {| shape := [B; cout; Lout];
              data := mk3 B cout Lout (fun b o l =>
                        (at1 bias o
                         + sumf cin (fun c =>
                             sumf k (fun j => at3 cin k weight o c j * xpad b c (l + j)%nat)))%R) |}
  | _, _ => Raise RuntimeError
  end.

(** Batch normalisation of a batch [B x C x L] over the [B * L] values of each
    channel.  In training mode the statistics are those of the batch (a single
    value per channel is refused) and the running statistics move towards
    them; in evaluation mode the running statistics are used. *)
Definition batch_mean (B C L : nat) (x : Tensor) (c : nat) : R :=
  (sumf B (fun b => sumf L (fun l => at3 C L x b c l)) / INR (B * L)%nat)%R.

Definition batch_var (B C L : nat) (x : Tensor) (c : nat) : R :=
  (sumf B (fun b => sumf L (fun l => (at3 C L x b c l - batch_mean B C L x c) ^ 2))
   / INR (B * L)%nat)%R.

Definition normalize (B C L : nat) (mean var : nat -> R) (weight bias x : Tensor) : Tensor :=
  {| shape := [B; C; L];
     data := mk3 B C L (fun b c l =>
               ((at3 C L x b c l - mean c) / sqrt (var c + bn_eps) * at1 weight c
                + at1 bias c)%R) |}.

Definition batch_norm (training : bool)
    (weight bias running_mean running_var : Tensor) (num_batches_tracked : nat)
    (x : Tensor) : result (Tensor * Layer) :=
  match shape weight, shape x with
  | [nf], [B; C; L] =>
      if negb (C =? nf) then Raise RuntimeError
      else if training then
        if B * L =? 1 then Raise ValueError
        else
          let n := B * L in
          let mean := batch_mean B C L x in
          let var := batch_var B C L x in
          Ok (normalize B C L mean var weight bias x,
              BatchNorm1d weight bias
                {| shape := shape running_mean;
                   data := tab C (fun c => ((1 - bn_momentum) * at1 running_mean c
                                            + bn_momentum * mean c)%R) |}
                {| shape := shape running_var;
                   data := tab C (fun c => ((1 - bn_momentum) * at1 running_var c
                                            + bn_momentum * (var c * INR n / INR (n - 1)%nat))%R) |}
                (S num_batches_tracked))
      else
        Ok (normalize B C L (at1 running_mean) (at1 running_var) weight bias x,
            BatchNorm1d weight bias running_mean running_var num_batches_tracked)
  | _, _ => Raise RuntimeError
  end.

Definition relu (x : Tensor) : Tensor :=
  {| shape := shape x; data := map (Rmax 0) (data x) |}.

Definition leaky_relu (x : Tensor) : Tensor :=
  {| shape := shape x;
     data := map (fun v => if Rle_dec 0 v then v else (leaky_slope * v)%R) (data x) |}.

(** [F.max_pool1d] without padding: window [l * stride .. l * stride + k - 1]. *)
Definition max_pool1d (k stride : nat) (x : Tensor) : result Tensor :=
  match shape x with
  | [B; C; L] =>
      if (k =? 0) || (stride =? 0) then Raise RuntimeError
      else if L <? k then Raise RuntimeError
      else
        let Lout := (L - k) / stride + 1 in
        Ok {| shape := [B; C; Lout];
              data := mk3 B C Lout (fun b c l =>
                        maxf k (fun j => at3 C L x b c (l * stride + j))) |}
  | _ => Raise RuntimeError
  end.

(** [F.adaptive_avg_pool1d]: output [i] averages the inputs from
    [floor (i * L / out)] up to [ceil ((i + 1) * L / out)]. *)
Definition adaptive_avg_pool1d (out : nat) (x : Tensor) : result Tensor :=
  match shape x with
  | [B; C; L] =>
      if L =? 0 then Raise RuntimeError
      else
        Ok {| shape := [B; C; out];
              data := mk3 B C out (fun b c i =>
                        let lo := i * L / out in
                        let hi := ((i + 1) * L + out - 1) / out in
                        (sumf (hi - lo)%nat (fun j => at3 C L x b c (lo + j)%nat)
                         / INR (hi - lo)%nat)%R) |}
  | _ => Raise RuntimeError
  end.

(** One layer applied to [x]: the output, the layer after the call and the
    generator after the call. *)
Definition Layer_forward (training : bool) (m : Layer) (x : Tensor) (g : Generator)
  : result (Tensor * Layer * Generator) :=
  match m with
  | Linear w b => do y <- linear w b x; Ok (y, m, g)
  | Softplus => Ok (softplus x, m, g)
  | Dropout p =>
      if training then let '(y, g') := dropout p x g in Ok (y, m, g')
      else Ok (x, m, g)
  | Softmax dim => do y <- softmax dim x; Ok (y, m, g)
  | Conv1d padding w b => do y <- conv1d padding w b x; Ok (y, m, g)
  | BatchNorm1d w b rm rv nbt =>
      do (y, m') <- batch_norm training w b rm rv nbt x; Ok (y, m', g)
  | ReLU => Ok (relu x, m, g)
  | LeakyReLU => Ok (leaky_relu x, m, g)
  | MaxPool1d k stride => do y <- max_pool1d k stride x; Ok (y, m, g)
  | AdaptiveAvgPool1d out => do y <- adaptive_avg_pool1d out x; Ok (y, m, g)
  end.

(** [nn.Sequential]: the layers in order, each on the output of the one before. *)
Fixpoint Sequential_forward (training : bool) (ms : list Layer) (x : Tensor) (g : Generator)
  : result (Tensor * list Layer * Generator) :=
  match ms with
  | [] => Ok (x, [], g)
  | m :: rest =>
      do (y, m', g') <- Layer_forward training m x g;
      do (z, rest', g'') <- Sequential_forward training rest y g';
      Ok (z, m' :: rest', g'')
  end.

(** ** Layer constructors

    What [nn.Linear(in, out)], [nn.Conv1d(in, out, k, padding=p)] and
    [nn.BatchNorm1d(n)] build: the parameters get their shapes here and keep
    them; their first values are drawn from the generator. *)

Definition Linear_new (in_features out_features : nat) (g : Generator) : Layer * Generator :=
  let bound := (/ sqrt (INR in_features))%R in
  let '(w, g1) := uniform_ [out_features; in_features] (- bound) bound g in
  let '(b, g2) := uniform_ [out_features] (- bound) bound g1 in
  (Linear w b, g2).

Definition Conv1d_new (in_channels out_channels kernel_size padding : nat) (g : Generator)
  : Layer * Generator :=
  let bound := (/ sqrt (INR (in_channels * kernel_size)))%R in
  let '(w, g1) := uniform_ [out_channels; in_channels; kernel_size] (- bound) bound g in
  let '(b, g2) := uniform_ [out_channels] (- bound) bound g1 in
  (Conv1d padding w b, g2).

Definition BatchNorm1d_new (num_features : nat) : Layer :=
  BatchNorm1d (full [num_features] 1) (full [num_features] 0)
              (full [num_features] 0) (full [num_features] 1) 0.

(** ** KimNet *)

Module KimNet.

Record t : Type := mk {
  bins : nat;
  marks : nat;
  model : list Layer;
  training : bool
}.

Definition init (bins marks nb_cls : nat) (g : Generator) : t * Generator :=
  let '(l1, g1) := Linear_new (bins * marks) 600 g in
  let '(l2, g2) := Linear_new 600 500 g1 in
  let '(l3, g3) := Linear_new 500 400 g2 in
  let '(l4, g4) := Linear_new 400 nb_cls g3 in
  ({| bins := bins;
      marks := marks;
      model := [ l1; Softplus; l2; Softplus; l3; Softplus;
                 Dropout (1 / 2); l4; Softmax 1 ];
      training := true |}, g4).

Definition with_model (self : t) (ms : list Layer) : t :=
  {| bins := bins self; marks := marks self; model := ms; training := training self |}.

Definition forward (self : t) (g : Generator)
    (histone_forward : Tensor) (histone_reverse : option Tensor)
  : result (Tensor * t * Generator) :=
  do x <- view_rows (bins self * marks self) histone_forward;
  do (o, ms, g1) <- Sequential_forward (training self) (model self) x g;
  let self1 := with_model self ms in
  match histone_reverse with
  | None => Ok (torch_log o, self1, g1)
  | Some r =>
      do x2 <- view_rows (bins self1 * marks self1) r;
      do (o2, ms2, g2) <- Sequential_forward (training self1) (model self1) x2 g1;
      do s <- torch_add o o2;
      Ok (torch_log (torch_div s 2), with_model self1 ms2, g2)
  end.

End KimNet.

(** ** ConvNet *)

Module ConvNet.

Record t : Type := mk {
  layer_one : list Layer;
  layer_two : list Layer;
  layer_three : list Layer;
  layer_four : list Layer;
  final_layer : list Layer;
  training : bool
}.

Definition activation (use_leakyrelu : bool) : Layer :=
  if use_leakyrelu then LeakyReLU else ReLU.

Definition init (marks : nat) (nb_cls : Z) (use_leakyrelu : bool) (g : Generator)
  : result (t * Generator) :=
  if (nb_cls >? 1)%Z then
    let '(c1, g1) := Conv1d_new marks 32 7 3 g in
    let '(c2, g2) := Conv1d_new 32 32 3 1 g1 in
    let '(c3, g3) := Conv1d_new 32 64 3 1 g2 in
    let '(c4, g4) := Conv1d_new 64 64 3 1 g3 in
    let '(c5, g5) := Conv1d_new 64 (Z.to_nat nb_cls) 1 0 g4 in
    Ok ({| layer_one := [ c1; BatchNorm1d_new 32; activation use_leakyrelu ];
           layer_two := [ c2; BatchNorm1d_new 32; activation use_leakyrelu;
                          MaxPool1d 2 2 ];
           layer_three := [ c3; BatchNorm1d_new 64; activation use_leakyrelu ];
           layer_four := [ c4; BatchNorm1d_new 64; activation use_leakyrelu;
                           MaxPool1d 2 2 ];
           final_layer := [ AdaptiveAvgPool1d 1; c5; Softmax 1 ];
           training := true |}, g5)
  else Raise (AssertionError "output layer size must be at least 2."%string).

(** [_forward_prop]: the five blocks in order. *)
Definition forward_prop (self : t) (x : Tensor) (g : Generator)
  : result (Tensor * t * Generator) :=
  do (o1, m1, g1) <- Sequential_forward (training self) (layer_one self) x g;
  do (o2, m2, g2) <- Sequential_forward (training self) (layer_two self) o1 g1;
  do (o3, m3, g3) <- Sequential_forward (training self) (layer_three self) o2 g2;
  do (o4, m4, g4) <- Sequential_forward (training self) (layer_four self) o3 g3;
  do (o5, m5, g5) <- Sequential_forward (training self) (final_layer self) o4 g4;
  Ok (o5,
      {| layer_one := m1; layer_two := m2; layer_three := m3; layer_four := m4;
         final_layer := m5; training := training self |},
      g5).

Definition forward (self : t) (g : Generator)
    (histone_forward : Tensor) (histone_reverse : option Tensor)
  : result (Tensor * t * Generator) :=
  do (o, self1, g1) <- forward_prop self histone_forward g;
  match histone_reverse with
  | None => Ok (torch_squeeze (torch_log o), self1, g1)
  | Some r =>
      do (o2, self2, g2) <- forward_prop self1 r g1;
      do s <- torch_add o o2;
      Ok (torch_squeeze (torch_log (torch_div s 2)), self2, g2)
  end.

End ConvNet.

(** ** init_weights *)

(** Whatever [init_weights] can be handed: a layer, a [Sequential] container
    or one of the two networks. *)
Inductive Module : Type :=
| LayerModule (l : Layer)
| SequentialModule (ms : list Layer)
| KimNetModule (net : KimNet.t)
| ConvNetModule (net : ConvNet.t).

(** Fan-in of a weight: the second dimension times the receptive field. *)
Definition calculate_fan_in (s : list nat) : result nat :=
  match s with
  | _ :: cin :: rest => Ok (cin * numel rest)
  | _ => Raise ValueError
  end.

(** [calculate_gain('relu')] *)
Definition relu_gain : R := sqrt 2.

Definition kaiming_std (fan : nat) : R := (relu_gain / sqrt (INR fan))%R.
Definition kaiming_bound (fan : nat) : R := (sqrt 3 * kaiming_std fan)%R.

(** [nn.init.kaiming_uniform_(t, nonlinearity='relu')]: uniform on
    [-bound, bound]; a tensor without entries is left alone. *)
Definition kaiming_uniform_ (t : Tensor) (g : Generator) : result (Tensor * Generator) :=
  if existsb (Nat.eqb 0) (shape t) then Ok (t, g)
  else
    do fan <- calculate_fan_in (shape t);
    Ok (uniform_ (shape t) (- kaiming_bound fan) (kaiming_bound fan) g).

(** [nn.init.kaiming_normal_(t, nonlinearity='relu')]: normal of mean 0 and
    standard deviation [gain / sqrt fan_in]. *)
Definition kaiming_normal_ (t : Tensor) (g : Generator) : result (Tensor * Generator) :=
  if existsb (Nat.eqb 0) (shape t) then Ok (t, g)
  else
    do fan <- calculate_fan_in (shape t);
    Ok (normal_ (shape t) 0 (kaiming_std fan) g).

Definition init_weights (m : Module) (g : Generator) : result (unit * Module * Generator) :=
  match m with
  | LayerModule (Conv1d padding weight bias) =>
      do (w, g') <- kaiming_uniform_ weight g;
      Ok (tt, LayerModule (Conv1d padding w (zeros_ bias)), g')
  | LayerModule (Linear weight bias) =>
      do (w, g') <- kaiming_normal_ weight g;
      Ok (tt, LayerModule (Linear w (zeros_ bias)), g')
  | _ => Ok (tt, m, g)
  end.


(** ** Shapes and architectures *)

(** The shape a layer gives its output, from the shape of its input alone. *)
Definition Layer_shape (training : bool) (m : Layer) (s : list nat) : result (list nat) :=
  match m with
  | Linear w _ =>
      match shape w with
      | [outf; inf] =>
          match s with
          | [] => Raise RuntimeError
          | _ :: _ =>
              if last s 0 =? inf then Ok (removelast s ++ [outf]) else Raise RuntimeError
          end
      | _ => Raise RuntimeError
      end
  | Softplus | Dropout _ | ReLU | LeakyReLU => Ok s
  | Softmax dim => if length s <=? dim then Raise IndexError else Ok s
  | Conv1d padding w _ =>
      match shape w, s with
      | [cout; cin; k], [B; C; L] =>
          if negb (C =? cin) then Raise RuntimeError
          else if L + 2 * padding <? k then Raise RuntimeError
          else Ok [B; cout; L + 2 * padding - k + 1]
      | _, _ => Raise RuntimeError
      end
  | BatchNorm1d w _ _ _ _ =>
      match shape w, s with
      | [nf], [B; C; L] =>
          if negb (C =? nf) then Raise RuntimeError
          else if training && (B * L =? 1) then Raise ValueError
          else Ok [B; C; L]
      | _, _ => Raise RuntimeError
      end
  | MaxPool1d k stride =>
      match s with
      | [B; C; L] =>
          if (k =? 0) || (stride =? 0) then Raise RuntimeError
          else if L <? k then Raise RuntimeError
          else Ok [B; C; (L - k) / stride + 1]
      | _ => Raise RuntimeError
      end
  | AdaptiveAvgPool1d out =>
      match s with
      | [B; C; L] => if L =? 0 then Raise RuntimeError else Ok [B; C; out]
      | _ => Raise RuntimeError
      end
  end.

Fixpoint Sequential_shape (training : bool) (ms : list Layer) (s : list nat)
  : result (list nat) :=
  match ms with
  | [] => Ok s
  | m :: rest => do s' <- Layer_shape training m s; Sequential_shape training rest s'
  end.

Definition shape_of {A B : Type} (r : result (Tensor * A * B)) : result (list nat) :=
  match r with
  | Ok (y, _, _) => Ok (shape y)
  | Raise e => Raise e
  end.

(** The output alone of a call, without the states after it. *)
Definition output {A B : Type} (r : result (Tensor * A * B)) : result Tensor :=
  match r with
  | Ok (y, _, _) => Ok y
  | Raise e => Raise e
  end.

(** A parameter without its values. *)
Definition blank (s : list nat) : Tensor := {| shape := s; data := [] |}.

(** The architecture of a layer: its kind, its hyperparameters and the shapes
    of its parameters, whatever their values. *)
Definition erase (m : Layer) : Layer :=
  match m with
  | Linear w b => Linear (blank (shape w)) (blank (shape b))
  | Conv1d padding w b => Conv1d padding (blank (shape w)) (blank (shape b))
  | BatchNorm1d w b rm rv _ =>
      BatchNorm1d (blank (shape w)) (blank (shape b))
                  (blank (shape rm)) (blank (shape rv)) 0
  | _ => m
  end.

(** The learnable parameters of a layer (the buffers of batch normalisation
    are not among them). *)
Definition parameters (m : Layer) : list Tensor :=
  match m with
  | Linear w b => [w; b]
  | Conv1d _ w b => [w; b]
  | BatchNorm1d w b _ _ _ => [w; b]
  | _ => []
  end.

Definition Linear_arch (in_features out_features : nat) : Layer :=
  Linear (blank [out_features; in_features]) (blank [out_features]).

Definition Conv1d_arch (in_channels out_channels kernel_size padding : nat) : Layer :=
  Conv1d padding (blank [out_channels; in_channels; kernel_size]) (blank [out_channels]).

Definition BatchNorm1d_arch (n : nat) : Layer :=
  BatchNorm1d (blank [n]) (blank [n]) (blank [n]) (blank [n]) 0.

Definition KimNet_arch (bins marks nb_cls : nat) : list Layer :=
  [ Linear_arch (bins * marks) 600; Softplus;
    Linear_arch 600 500; Softplus;
    Linear_arch 500 400; Softplus;
    Dropout (1 / 2);
    Linear_arch 400 nb_cls;
    Softmax 1 ].

(** A [KimNet] of the given configuration, at any time of its life: training
    changes the values of the parameters and the mode, nothing else. *)
Definition KimNet_inv (bins marks nb_cls : nat) (net : KimNet.t) : Prop :=
  KimNet.bins net = bins /\ KimNet.marks net = marks /\
  map erase (KimNet.model net) = KimNet_arch bins marks nb_cls.

Record ConvNet_inv (marks nb_cls : nat) (leaky : bool) (net : ConvNet.t) : Prop := {
  inv_one : map erase (ConvNet.layer_one net)
            = [ Conv1d_arch marks 32 7 3; BatchNorm1d_arch 32; ConvNet.activation leaky ];
  inv_two : map erase (ConvNet.layer_two net)
            = [ Conv1d_arch 32 32 3 1; BatchNorm1d_arch 32; ConvNet.activation leaky;
                MaxPool1d 2 2 ];
  inv_three : map erase (ConvNet.layer_three net)
            = [ Conv1d_arch 32 64 3 1; BatchNorm1d_arch 64; ConvNet.activation leaky ];
  inv_four : map erase (ConvNet.layer_four net)
            = [ Conv1d_arch 64 64 3 1; BatchNorm1d_arch 64; ConvNet.activation leaky;
                MaxPool1d 2 2 ];
  inv_final : map erase (ConvNet.final_layer net)
            = [ AdaptiveAvgPool1d 1; Conv1d_arch 64 nb_cls 1 0; Softmax 1 ]
}.

Definition ConvNet_parameters (net : ConvNet.t) : list Tensor :=
  flat_map parameters
    (ConvNet.layer_one net ++ ConvNet.layer_two net ++ ConvNet.layer_three net
     ++ ConvNet.layer_four net ++ ConvNet.final_layer net).

(** [B] rows of [C] entries, each row a probability distribution with no zero. *)
Definition distribution (B C : nat) (d : list R) : Prop :=
  length d = B * C /\
  forall b, b < B ->
    (forall c, c < C -> (0 < nth (b * C + c) d 0)%R) /\
    sumf C (fun c => nth (b * C + c) d 0%R) = 1%R.

(** The rows of [exp y] sum to 1: [y] holds log-probabilities. *)
Definition log_probabilities (B C : nat) (y : Tensor) : Prop :=
  forall b, b < B -> sumf C (fun c => exp (at2 C y b c)) = 1%R.

Definition is_conv_or_linear (m : Module) : bool :=
  match m with
  | LayerModule (Conv1d _ _ _) | LayerModule (Linear _ _) => true
  | _ => false
  end.

(** Layers with state of their own, and layers that draw random numbers. *)
Definition has_buffers (m : Layer) : bool :=
  match m with BatchNorm1d _ _ _ _ _ => true | _ => false end.

Definition is_dropout (m : Layer) : bool :=
  match m with Dropout _ => true | _ => false end.

(** No layer of [ms] draws random numbers in mode [tr]. *)
Definition deterministic (tr : bool) (ms : list Layer) : bool :=
  forallb (fun m => negb (tr && is_dropout m)) ms.

(** No layer of [ms] changes in mode [tr]. *)
Definition stateless (tr : bool) (ms : list Layer) : bool :=
  forallb (fun m => negb (tr && has_buffers m)) ms.

(** ** Concrete networks and inputs *)

Definition zero_generator : Generator :=
  {| uniform01 := fun _ => 0%R; std_normal := fun _ => 0%R; offset := 0 |}.

(** A weight [2 x n]: ones on the first row, zeros on the second. *)
Definition first_row_ones (n : nat) : Tensor :=
  {| shape := [2; n]; data := tab (2 * n) (fun i => if i <? n then 1%R else 0%R) |}.

(** The first [n] draws keep an entry under a dropout of rate 1/2, the draws
    after them drop it. *)
Definition keep_then_drop (n : nat) : Generator :=
  {| uniform01 := fun i => if i <? n then 0%R else (3 / 4)%R;
     std_normal := fun _ => 0%R;
     offset := 0 |}.

(** A [KimNet(bins=1, marks=1, nb_cls=2)] in training mode, all parameters
    zero but the first row of the last weight. *)
Definition masked_KimNet : KimNet.t :=
  {| KimNet.bins := 1;
     KimNet.marks := 1;
     KimNet.model :=
       [ Linear (full [600; 1] 0) (full [600] 0); Softplus;
         Linear (full [500; 600] 0) (full [500] 0); Softplus;
         Linear (full [400; 500] 0) (full [400] 0); Softplus;
         Dropout (1 / 2);
         Linear (first_row_ones 400) (full [2] 0);
         Softmax 1 ];
     KimNet.training := true |}.

Definition one_window : Tensor := {| shape := [1; 1]; data := [0%R] |}.

(** The networks of the scenarios of the specification, as the constructors
    build them from [zero_generator]. *)
Definition KimNet_20_3_5 : KimNet.t := fst (KimNet.init 20 3 5 zero_generator).

(** The same network switched to evaluation mode. *)
Definition KimNet_20_3_5_eval : KimNet.t :=
  {| KimNet.bins := KimNet.bins KimNet_20_3_5;
     KimNet.marks := KimNet.marks KimNet_20_3_5;
     KimNet.model := KimNet.model KimNet_20_3_5;
     KimNet.training := false |}.

Definition ConvNet_3_5 : ConvNet.t :=
  match ConvNet.init 3 5 false zero_generator with
  | Ok (net, _) => net
  | Raise _ => ConvNet.mk [] [] [] [] [] true
  end.

(** ** Layers that compute the same function *)

(** Two layers compute the same function in mode [tr] when they are equal, or
    when they are batch normalisations of the same weight and bias and, outside
    training mode, of the same running statistics. *)
Definition layer_sim (tr : bool) (m m' : Layer) : Prop :=
  match m, m' with
  | BatchNorm1d w b rm rv n, BatchNorm1d w' b' rm' rv' n' =>
      w = w' /\ b = b' /\ (tr = false -> rm = rm' /\ rv = rv' /\ n = n')
  | _, _ => m = m'
  end.

Record ConvNet_sim (net net' : ConvNet.t) : Prop := {
  sim_training : ConvNet.training net' = ConvNet.training net;
  sim_one : Forall2 (layer_sim (ConvNet.training net))
              (ConvNet.layer_one net) (ConvNet.layer_one net');
  sim_two : Forall2 (layer_sim (ConvNet.training net))
              (ConvNet.layer_two net) (ConvNet.layer_two net');
  sim_three : Forall2 (layer_sim (ConvNet.training net))
                (ConvNet.layer_three net) (ConvNet.layer_three net');
  sim_four : Forall2 (layer_sim (ConvNet.training net))
               (ConvNet.layer_four net) (ConvNet.layer_four net');
  sim_final : Forall2 (layer_sim (ConvNet.training net))
                (ConvNet.final_layer net) (ConvNet.final_layer net')
}.

(** Two calls agree: the same output, or the same error. *)
Definition same_outcome (r r' : result Tensor) : Prop :=
  match r, r' with
  | Ok y, Ok y' => y = y'
  | Raise e, Raise e' => e = e'
  | _, _ => False
  end.


(** ** Tensors as they lie in memory

    A [Tensor] above is a contiguous tensor: its entries in row-major order.
    What a caller holds may be laid out otherwise (a transposed tensor, a
    slice): sizes, strides and an offset into a storage.  [Tensor.view], the
    first thing [KimNet.forward] does to its inputs, looks at the strides. *)

Record Strided : Type := mkStrided {
  sizes : list nat;
  strides : list nat;
  storage_offset : nat;
  storage : list R
}.

(** The strides of a contiguous tensor: each is the product of the sizes
    after it, a size 0 counting for 1. *)
Fixpoint row_major (s : list nat) : list nat :=
  match s with
  | [] => []
  | _ :: rest => fold_right (fun d a => Nat.max d 1 * a) 1 rest :: row_major rest
  end.

Definition contiguous (t : Strided) : Prop := strides t = row_major (sizes t).

Definition of_tensor (t : Tensor) : Strided :=
  {| sizes := shape t; strides := row_major (shape t);
     storage_offset := 0; storage := data t |}.

(** Where the entries lie in the storage, in the row-major order of their
    indices. *)
Fixpoint offsets (sz st : list nat) : list nat :=
  match sz, st with
  | n :: sz', s :: st' =>
      flat_map (fun i => map (fun o => i * s + o) (offsets sz' st')) (seq 0 n)
  | _, _ => [0]
  end.

Definition gather (t : Strided) : list R :=
  map (fun o => nth (storage_offset t + o) (storage t) 0%R) (offsets (sizes t) (strides t)).

(** [torch.transpose(t, d0, d1)]: the two sizes and the two strides change
    places, the storage stays. *)
Definition swap (d0 d1 : nat) (l : list nat) : list nat :=
  map (fun i => nth (if i =? d0 then d1 else if i =? d1 then d0 else i) l 0)
      (seq 0 (length l)).

Definition torch_transpose (t : Strided) (d0 d1 : nat) : Strided :=
  {| sizes := swap d0 d1 (sizes t); strides := swap d0 d1 (strides t);
     storage_offset := storage_offset t; storage := storage t |}.

(** The stride rule of [view], as the library computes it.  The dimensions of
    the tensor are grouped, from the last one, into chunks that lie
    contiguously in memory; the dimensions of the view, from the last one,
    must fill each chunk exactly.  [take_view tn v vn] takes dimensions of the
    view while their product [vn] is below the size [tn] of the chunk, or the
    dimension is 1. *)
Fixpoint take_view (tn : nat) (v : list nat) (vn : nat) : list nat * nat :=
  match v with
  | d :: rest => if (vn <? tn) || (d =? 1) then take_view tn rest (vn * d) else (v, vn)
  | [] => ([], vn)
  end.

(** [chunks dims v]: the dimensions [(size, stride)] of the tensor, first to
    last, against the dimensions [v] of the view, last to first.  The result
    is what is left of the view, the stride at the base of the open chunk and
    the number of entries of the open chunk; [None] when a closed chunk was
    not filled exactly. *)
Fixpoint chunks (dims : list (nat * nat)) (v : list nat) : option (list nat * nat * nat) :=
  match dims with
  | [] => Some (v, 1, 1)
  | (sz, st) :: rest =>
      match rest with
      | [] => Some (v, st, sz)
      | _ :: _ =>
          match chunks rest v with
          | None => None
          | Some (v', base, tn) =>
              if negb (sz =? 1) && negb (st =? tn * base) then
                let '(v'', vn) := take_view tn v' 1 in
                if vn =? tn then Some (v'', st, sz) else None
              else Some (v', base, tn * sz)
          end
      end
  end.

Definition view_compatible (sz st newshape : list nat) : bool :=
  match sz with
  | [] => true
  | _ :: _ =>
      if numel sz =? 0 then true
      else
        match chunks (combine sz st) (rev newshape) with
        | None => false
        | Some (v, _, tn) =>
            let '(v', vn) := take_view tn v 1 in
            (vn =? tn) && match v' with [] => true | _ :: _ => false end
        end
  end.

(** [t.view((-1, k))] on a tensor of any layout: the free dimension is
    inferred from the number of entries, then the strides must allow the
    view; the result reads the same entries in the same order. *)
Definition view (k : nat) (t : Strided) : result Tensor :=
  let n := numel (sizes t) in
  if k =? 0 then Raise RuntimeError
  else if n mod k =? 0 then
    if view_compatible (sizes t) (strides t) [n / k; k]
    then Ok {| shape := [n / k; k]; data := gather t |}
    else Raise RuntimeError
  else Raise RuntimeError.

Definition viewable (k : nat) (t : Strided) : Prop :=
  view_compatible (sizes t) (strides t) [numel (sizes t) / k; k] = true.

(** [KimNet.forward] on tensors of any layout: the body of [KimNet.forward],
    line for line, with the view that looks at the strides.  On contiguous
    tensors the two agree. *)
Definition KimNet_forward_strided (self : KimNet.t) (g : Generator)
    (histone_forward : Strided) (histone_reverse : option Strided)
  : result (Tensor * KimNet.t * Generator) :=
  do x <- view (KimNet.bins self * KimNet.marks self) histone_forward;
  do (o, ms, g1) <- Sequential_forward (KimNet.training self) (KimNet.model self) x g;
  let self1 := KimNet.with_model self ms in
  match histone_reverse with
  | None => Ok (torch_log o, self1, g1)
  | Some r =>
      do x2 <- view (KimNet.bins self1 * KimNet.marks self1) r;
      do (o2, ms2, g2) <- Sequential_forward (KimNet.training self1) (KimNet.model self1) x2 g1;
      do s <- torch_add o o2;
      Ok (torch_log (torch_div s 2), KimNet.with_model self1 ms2, g2)
  end.

(** A [(4, 3, 20)] batch transposed to [(4, 20, 3)]: 240 entries, strides
    [(60, 1, 20)]. *)
Definition transposed_batch : Strided := torch_transpose (of_tensor (full [4; 3; 20] 1)) 1 2.

(** Every other row of an [(8, 60)] batch, [x[::2]]: sizes [(4, 60)], strides
    [(120, 1)] on the storage of the batch. *)
Definition every_other_row : Strided :=
  {| sizes := [4; 60]; strides := [120; 1]; storage_offset := 0;
     storage := data (full [8; 60] 1) |}.

(** ** The pipelines

    [P]: the probabilities that the layers of a network give for one strand.
    For [KimNet] the generator comes back with them (dropout may draw). *)
Definition KimNet_pipeline (self : KimNet.t) (g : Generator) (x : Tensor)
  : result (Tensor * Generator) :=
  do x1 <- view_rows (KimNet.bins self * KimNet.marks self) x;
  do (p, _, g1) <- Sequential_forward (KimNet.training self) (KimNet.model self) x1 g;
  Ok (p, g1).

Definition ConvNet_pipeline (self : ConvNet.t) (g : Generator) (x : Tensor) : result Tensor :=
  output (ConvNet.forward_prop self x g).
(** * Properties *)

(** ** Tabulated data *)

Lemma tab_S (A : Type) (n : nat) (f : nat -> A) : tab (S n) f = tab n f ++ [f n].
Proof. unfold tab. rewrite seq_S, map_app. reflexivity. Qed.

Lemma tab_length (A : Type) (n : nat) (f : nat -> A) : length (tab n f) = n.
Proof. unfold tab. now rewrite length_map, length_seq. Qed.

Lemma nth_tab (A : Type) (n : nat) (f : nat -> A) (d : A) (i : nat) :
  i < n -> nth i (tab n f) d = f i.
Proof.
  induction n as [|n IH]; intros Hi; [lia|].
  rewrite tab_S. destruct (Nat.eq_dec i n) as [->|Hne].
  - rewrite app_nth2; rewrite tab_length; [|lia]. now rewrite Nat.sub_diag.
  - rewrite app_nth1; [apply IH; lia | rewrite tab_length; lia].
Qed.

Lemma tab_ext (A : Type) (n : nat) (f f' : nat -> A) :
  (forall i, i < n -> f i = f' i) -> tab n f = tab n f'.
Proof.
  intros H. unfold tab. apply map_ext_in. intros i Hi.
  apply in_seq in Hi. apply H. lia.
Qed.

Lemma map_tab (A B : Type) (h : A -> B) (n : nat) (f : nat -> A) :
  map h (tab n f) = tab n (fun i => h (f i)).
Proof. unfold tab. now rewrite map_map. Qed.

Lemma map2_app (A B C : Type) (h : A -> B -> C) (l1 l2 : list A) (l1' l2' : list B) :
  length l1 = length l1' ->
  map2 h (l1 ++ l2) (l1' ++ l2') = map2 h l1 l1' ++ map2 h l2 l2'.
Proof.
  revert l1'. induction l1 as [|a l1 IH]; intros [|b l1'] H; simpl in *; try discriminate.
  - reflexivity.
  - f_equal. apply IH. lia.
Qed.

Lemma map2_tab (A B C : Type) (h : A -> B -> C) (n : nat) (f : nat -> A) (f' : nat -> B) :
  map2 h (tab n f) (tab n f') = tab n (fun i => h (f i) (f' i)).
Proof.
  induction n as [|n IH]; [reflexivity|].
  rewrite !tab_S, map2_app by now rewrite !tab_length.
  now rewrite IH.
Qed.

Lemma map2_same (A C : Type) (h : A -> A -> C) (l : list A) :
  map2 h l l = map (fun a => h a a) l.
Proof. induction l as [|a l IH]; simpl; [reflexivity | now rewrite IH]. Qed.

Lemma map2_length (A B C : Type) (h : A -> B -> C) (l : list A) (l' : list B) :
  length l = length l' -> length (map2 h l l') = length l.
Proof.
  revert l'. induction l as [|a l IH]; intros [|b l'] H; simpl in *; try discriminate.
  - reflexivity.
  - f_equal. apply IH. lia.
Qed.

(** Blocks of one length laid end to end. *)
Lemma concat_tab_length (A : Type) (m n : nat) (F : nat -> list A) :
  (forall i, i < m -> length (F i) = n) -> length (concat (tab m F)) = m * n.
Proof.
  induction m as [|m IH]; intros H; [reflexivity|].
  rewrite tab_S, concat_app, length_app, IH by (intros; apply H; lia).
  simpl. rewrite app_nil_r, H by lia. lia.
Qed.

Lemma nth_concat_tab (A : Type) (m n : nat) (F : nat -> list A) (d : A) (i j : nat) :
  (forall i, i < m -> length (F i) = n) -> i < m -> j < n ->
  nth (i * n + j) (concat (tab m F)) d = nth j (F i) d.
Proof.
  induction m as [|m IH]; intros H Hi Hj; [lia|].
  rewrite tab_S, concat_app. simpl. rewrite app_nil_r.
  assert (Hlen : length (concat (tab m F)) = m * n)
    by (apply concat_tab_length; intros; apply H; lia).
  destruct (Nat.eq_dec i m) as [->|Hne].
  - rewrite app_nth2; rewrite Hlen; [|lia]. f_equal. lia.
  - rewrite app_nth1; [apply IH; auto; lia|]. rewrite Hlen. nia.
Qed.

Lemma map_concat_tab (A B : Type) (h : A -> B) (m : nat) (F : nat -> list A) :
  map h (concat (tab m F)) = concat (tab m (fun i => map h (F i))).
Proof. now rewrite concat_map, map_tab. Qed.

Lemma map2_concat_tab (A B C : Type) (h : A -> B -> C) (m n : nat)
    (F : nat -> list A) (F' : nat -> list B) :
  (forall i, i < m -> length (F i) = n) -> (forall i, i < m -> length (F' i) = n) ->
  map2 h (concat (tab m F)) (concat (tab m F'))
  = concat (tab m (fun i => map2 h (F i) (F' i))).
Proof.
  induction m as [|m IH]; intros H H'; [reflexivity|].
  rewrite !tab_S, !concat_app, map2_app.
  - rewrite IH by (intros; auto). simpl. now rewrite !app_nil_r.
  - rewrite !(@concat_tab_length _ m n) by (intros; auto). reflexivity.
Qed.

Lemma mk2_length (A : Type) (B C : nat) (f : nat -> nat -> A) :
  length (mk2 B C f) = B * C.
Proof. apply concat_tab_length. intros. apply tab_length. Qed.

Lemma mk3_length (A : Type) (B C L : nat) (f : nat -> nat -> nat -> A) :
  length (mk3 B C L f) = B * (C * L).
Proof.
  apply concat_tab_length. intros.
  apply concat_tab_length. intros. apply tab_length.
Qed.

Lemma nth_mk2 (A : Type) (B C : nat) (f : nat -> nat -> A) (d : A) (b c : nat) :
  b < B -> c < C -> nth (b * C + c) (mk2 B C f) d = f b c.
Proof.
  intros Hb Hc. unfold mk2.
  rewrite (@nth_concat_tab _ B C) by (auto; intros; apply tab_length).
  now apply nth_tab.
Qed.

Lemma nth_mk3 (A : Type) (B C L : nat) (f : nat -> nat -> nat -> A) (d : A) (b c l : nat) :
  b < B -> c < C -> l < L -> nth ((b * C + c) * L + l) (mk3 B C L f) d = f b c l.
Proof.
  intros Hb Hc Hl. unfold mk3.
  replace ((b * C + c) * L + l) with (b * (C * L) + (c * L + l)) by lia.
  rewrite (@nth_concat_tab _ B (C * L)); auto.
  - rewrite (@nth_concat_tab _ C L) by (auto; intros; apply tab_length).
    now apply nth_tab.
  - intros. apply concat_tab_length. intros. apply tab_length.
  - nia.
Qed.

Lemma map_mk3 (A B' : Type) (h : A -> B') (B C L : nat) (f : nat -> nat -> nat -> A) :
  map h (mk3 B C L f) = mk3 B C L (fun b c l => h (f b c l)).
Proof.
  unfold mk3. rewrite map_concat_tab. f_equal. apply tab_ext. intros b _.
  rewrite map_concat_tab. f_equal. apply tab_ext. intros c _. apply map_tab.
Qed.

Lemma map2_mk3 (A A' B' : Type) (h : A -> A' -> B') (B C L : nat)
    (f : nat -> nat -> nat -> A) (f' : nat -> nat -> nat -> A') :
  map2 h (mk3 B C L f) (mk3 B C L f') = mk3 B C L (fun b c l => h (f b c l) (f' b c l)).
Proof.
  unfold mk3.
  rewrite (@map2_concat_tab _ _ _ h B (C * L))
    by (intros; apply concat_tab_length; intros; apply tab_length).
  f_equal. apply tab_ext. intros b _.
  rewrite (@map2_concat_tab _ _ _ h C L) by (intros; apply tab_length).
  f_equal. apply tab_ext. intros c _. apply map2_tab.
Qed.

Lemma mk3_ext (A : Type) (B C L : nat) (f f' : nat -> nat -> nat -> A) :
  (forall b c l, b < B -> c < C -> l < L -> f b c l = f' b c l) ->
  mk3 B C L f = mk3 B C L f'.
Proof.
  intros H. unfold mk3. f_equal. apply tab_ext. intros b Hb.
  f_equal. apply tab_ext. intros c Hc. apply tab_ext. intros l Hl. now apply H.
Qed.

(** ** Finite sums *)

Lemma fold_right_Rplus_last (l : list R) (a : R) :
  fold_right Rplus 0%R (l ++ [a]) = (fold_right Rplus 0%R l + a)%R.
Proof. induction l as [|x l IH]; simpl; [lra | rewrite IH; lra]. Qed.

Lemma sumf_S (n : nat) (f : nat -> R) : sumf (S n) f = (sumf n f + f n)%R.
Proof. unfold sumf. rewrite tab_S. apply fold_right_Rplus_last. Qed.

Lemma sumf_ext (n : nat) (f f' : nat -> R) :
  (forall i, i < n -> f i = f' i) -> sumf n f = sumf n f'.
Proof. intros H. unfold sumf. now rewrite (tab_ext f f' H). Qed.

Lemma sumf_plus (n : nat) (f f' : nat -> R) :
  sumf n (fun i => (f i + f' i)%R) = (sumf n f + sumf n f')%R.
Proof.
  induction n as [|n IH]; [unfold sumf; simpl; lra|].
  rewrite !sumf_S, IH. lra.
Qed.

Lemma sumf_div (n : nat) (f : nat -> R) (k : R) :
  sumf n (fun i => (f i / k)%R) = (sumf n f / k)%R.
Proof.
  induction n as [|n IH]; [unfold sumf; simpl; lra|].
  rewrite !sumf_S, IH. lra.
Qed.

Lemma sumf_pos (n : nat) (f : nat -> R) :
  0 < n -> (forall i, i < n -> (0 < f i)%R) -> (0 < sumf n f)%R.
Proof.
  induction n as [|n IH]; intros Hn H; [lia|].
  rewrite sumf_S. destruct n as [|n].
  - unfold sumf at 1. simpl. specialize (H 0 ltac:(lia)). lra.
  - assert (0 < sumf (S n) f)%R by (apply IH; [lia | intros; apply H; lia]).
    specialize (H (S n) ltac:(lia)). lra.
Qed.

Lemma sumf_zero (n : nat) (f : nat -> R) :
  (forall i, i < n -> f i = 0%R) -> sumf n f = 0%R.
Proof.
  induction n as [|n IH]; intros H; [reflexivity|].
  rewrite sumf_S, IH, H by (intros; auto). lra.
Qed.

(** ** Shapes of the layers *)

Ltac break_match :=
  match goal with
  | |- context [match ?x with _ => _ end] => destruct x eqn:?
  end.

Ltac break_hyp :=
  match goal with
  | H : context [match ?x with _ => _ end] |- _ => destruct x eqn:?
  end.

Lemma Layer_forward_shape (tr : bool) (m : Layer) (x : Tensor) (g : Generator) :
  shape_of (Layer_forward tr m x g) = Layer_shape tr m (shape x).
Proof.
  destruct m; simpl;
    unfold linear, softmax, conv1d, batch_norm, max_pool1d, adaptive_avg_pool1d, dropout;
    try reflexivity;
    repeat (break_match; simpl; try reflexivity; try discriminate).
Qed.

Lemma Layer_shape_erase (tr : bool) (m : Layer) (s : list nat) :
  Layer_shape tr (erase m) s = Layer_shape tr m s.
Proof. destruct m; reflexivity. Qed.

Lemma Sequential_shape_erase (tr : bool) (ms : list Layer) (s : list nat) :
  Sequential_shape tr (map erase ms) s = Sequential_shape tr ms s.
Proof.
  revert s. induction ms as [|m ms IH]; intros s; simpl; [reflexivity|].
  rewrite Layer_shape_erase. destruct (Layer_shape tr m s); simpl; auto.
Qed.

(** A call changes no architecture and no learnable parameter. *)
Lemma Layer_forward_erase (tr : bool) (m m' : Layer) (x y : Tensor) (g g' : Generator) :
  Layer_forward tr m x g = Ok (y, m', g') ->
  erase m' = erase m /\ parameters m' = parameters m.
Proof.
  destruct m; simpl; unfold bind, batch_norm, dropout; intros H;
    repeat (break_hyp; simpl in *; try discriminate);
    repeat match goal with
           | H : Ok _ = Ok _ |- _ => inversion H; subst; clear H
           end;
    simpl; split; congruence.
Qed.

Lemma Sequential_forward_shape (tr : bool) (ms : list Layer) (x : Tensor) (g : Generator) :
  shape_of (Sequential_forward tr ms x g) = Sequential_shape tr ms (shape x).
Proof.
  revert x g. induction ms as [|m ms IH]; intros x g; simpl; [reflexivity|].
  rewrite <- Layer_forward_shape with (g := g).
  destruct (Layer_forward tr m x g) as [[[y m'] g']|e]; simpl; [|reflexivity].
  rewrite <- IH with (g := g').
  destruct (Sequential_forward tr ms y g') as [[[z ms'] g'']|e]; reflexivity.
Qed.

Lemma Sequential_forward_erase (tr : bool) (ms ms' : list Layer) (x y : Tensor)
    (g g' : Generator) :
  Sequential_forward tr ms x g = Ok (y, ms', g') ->
  map erase ms' = map erase ms /\ flat_map parameters ms' = flat_map parameters ms.
Proof.
  revert ms' x y g g'. induction ms as [|m ms IH]; intros ms' x y g g'; simpl.
  - intros H. inversion H. auto.
  - destruct (Layer_forward tr m x g) as [[[y1 m1] g1]|e] eqn:E; simpl; [|discriminate].
    destruct (Sequential_forward tr ms y1 g1) as [[[z ms1] g2]|e] eqn:E'; simpl;
      [|discriminate].
    intros H. inversion H; subst.
    apply Layer_forward_erase in E. apply IH in E'. simpl.
    destruct E as [-> ->], E' as [-> ->]. auto.
Qed.

(** When the shapes go through, so does the call. *)
Lemma Sequential_forward_ok (tr : bool) (ms : list Layer) (x : Tensor) (g : Generator)
    (s : list nat) :
  Sequential_shape tr ms (shape x) = Ok s ->
  exists y ms' g', Sequential_forward tr ms x g = Ok (y, ms', g') /\ shape y = s.
Proof.
  intros H. rewrite <- Sequential_forward_shape with (g := g) in H.
  destruct (Sequential_forward tr ms x g) as [[[y ms'] g']|e]; simpl in H;
    [|discriminate].
  exists y, ms', g'. split; [reflexivity | congruence].
Qed.

Lemma Sequential_forward_app (tr : bool) (ms1 ms2 : list Layer) (x : Tensor) (g : Generator) :
  Sequential_forward tr (ms1 ++ ms2) x g =
  do (y, ms1', g') <- Sequential_forward tr ms1 x g;
  do (z, ms2', g'') <- Sequential_forward tr ms2 y g';
  Ok (z, ms1' ++ ms2', g'').
Proof.
  revert x g. induction ms1 as [|m ms1 IH]; intros x g; simpl.
  - destruct (Sequential_forward tr ms2 x g) as [[[z ms2'] g'']|e]; reflexivity.
  - destruct (Layer_forward tr m x g) as [[[y m'] g']|e]; simpl; [|reflexivity].
    rewrite IH.
    destruct (Sequential_forward tr ms1 y g') as [[[y1 ms1'] g1]|e]; simpl;
      [|reflexivity].
    destruct (Sequential_forward tr ms2 y1 g1) as [[[z ms2'] g2]|e]; reflexivity.
Qed.

(** A pipeline that ends with a softmax returns the softmax of something. *)
Lemma Sequential_forward_last_softmax (tr : bool) (ms ms' arch : list Layer) (d : nat)
    (x y : Tensor) (g g' : Generator) :
  map erase ms = arch ++ [Softmax d] ->
  Sequential_forward tr ms x g = Ok (y, ms', g') ->
  exists z, softmax d z = Ok y.
Proof.
  revert ms' arch x y g g'. induction ms as [|m ms IH]; intros ms' arch x y g g' Ha H.
  - destruct arch; discriminate.
  - simpl in H.
    destruct (Layer_forward tr m x g) as [[[y1 m1] g1]|e] eqn:E; simpl in H;
      [|discriminate].
    destruct (Sequential_forward tr ms y1 g1) as [[[z ms1] g2]|e] eqn:E'; simpl in H;
      [|discriminate].
    inversion H; subst. destruct ms as [|m2 ms].
    + simpl in E'. inversion E'; subst.
      destruct arch as [|a [|? ?]]; try discriminate. simpl in Ha. inversion Ha as [Hm].
      destruct m; try discriminate. simpl in Hm. inversion Hm; subst.
      simpl in E. exists x. destruct (softmax d x); simpl in E; congruence.
    + destruct arch as [|a arch]; [destruct ms; discriminate|].
      simpl in Ha. inversion Ha. eapply IH; eauto.
Qed.

(** ** Probability distributions *)

Lemma nth_map_in (A B : Type) (h : A -> B) (l : list A) (d : A) (d' : B) (i : nat) :
  i < length l -> nth i (map h l) d' = h (nth i l d).
Proof.
  intros Hi. rewrite (nth_indep _ d' (h d)) by now rewrite length_map.
  apply map_nth.
Qed.

Lemma nth_map2 (A B C : Type) (h : A -> B -> C) (l : list A) (l' : list B)
    (a : A) (b : B) (c : C) (i : nat) :
  i < length l -> i < length l' -> nth i (map2 h l l') c = h (nth i l a) (nth i l' b).
Proof.
  revert l' i. induction l as [|x l IH]; intros [|x' l'] i Hi Hi'; simpl in *; try lia.
  destruct i as [|i]; [reflexivity|]. apply IH; lia.
Qed.

Lemma softmax_shape (d : nat) (z y : Tensor) : softmax d z = Ok y -> shape y = shape z.
Proof.
  unfold softmax. destruct (length (shape z) <=? d); [discriminate|].
  intros H. inversion H. reflexivity.
Qed.

Lemma softmax_distribution (z y : Tensor) (B C : nat) (rest : list nat) :
  softmax 1 z = Ok y -> shape z = B :: C :: rest -> numel rest = 1 -> 0 < C ->
  distribution B C (data y).
Proof.
  intros H Hs Hr HC. unfold softmax in H. rewrite Hs in H. simpl in H.
  rewrite Hr, Nat.mul_1_r in H. inversion H as [Hy]. clear H Hy. simpl.
  set (F := fun b c l : nat =>
              (exp (at3 C 1 z b c l) / sumf C (fun c' => exp (at3 C 1 z b c' l)))%R).
  assert (HS : forall b, (0 < sumf C (fun c' => exp (at3 C 1 z b c' 0)))%R)
    by (intros; apply sumf_pos; auto; intros; apply exp_pos).
  assert (Hnth : forall b c, b < B -> c < C -> nth (b * C + c) (mk3 B C 1 F) 0%R = F b c 0).
  { intros b c Hb Hc. replace (b * C + c) with ((b * C + c) * 1 + 0) by lia.
    apply nth_mk3; auto. }
  split; [rewrite mk3_length; lia|].
  intros b Hb. split.
  - intros c Hc. rewrite Hnth by auto. unfold F.
    apply Rdiv_lt_0_compat; [apply exp_pos | apply HS].
  - rewrite (sumf_ext _ (fun c => F b c 0)) by (intros; now apply Hnth).
    unfold F. rewrite sumf_div. field. specialize (HS b). lra.
Qed.

Lemma distribution_average (B C : nat) (d1 d2 : list R) :
  distribution B C d1 -> distribution B C d2 ->
  distribution B C (map (fun v => (v / 2)%R) (map2 Rplus d1 d2)).
Proof.
  intros [L1 H1] [L2 H2].
  assert (Hnth : forall b c, b < B -> c < C ->
            nth (b * C + c) (map (fun v => (v / 2)%R) (map2 Rplus d1 d2)) 0%R
            = ((nth (b * C + c) d1 0 + nth (b * C + c) d2 0) / 2)%R).
  { intros b c Hb Hc. assert (b * C + c < B * C) by nia.
    rewrite (nth_map_in _ _ 0%R) by (rewrite map2_length; lia).
    f_equal. apply nth_map2; lia. }
  split; [rewrite length_map, map2_length; lia|].
  intros b Hb. destruct (H1 b Hb) as [P1 S1], (H2 b Hb) as [P2 S2]. split.
  - intros c Hc. rewrite Hnth by auto. specialize (P1 c Hc). specialize (P2 c Hc). lra.
  - rewrite (sumf_ext _ (fun c => ((nth (b * C + c) d1 0 + nth (b * C + c) d2 0) / 2)%R))
      by (intros; now apply Hnth).
    rewrite sumf_div, sumf_plus, S1, S2. lra.
Qed.

Lemma distribution_log (B C : nat) (s : list nat) (d : list R) :
  distribution B C d -> log_probabilities B C (torch_log {| shape := s; data := d |}).
Proof.
  intros [L H] b Hb. destruct (H b Hb) as [P S].
  rewrite <- S. apply sumf_ext. intros c Hc. unfold at2, torch_log. simpl.
  assert (b * C + c < B * C) by nia.
  rewrite (nth_map_in _ _ 0%R) by lia. apply exp_ln. now apply P.
Qed.

Lemma average_same (d : list R) : map (fun v => (v / 2)%R) (map2 Rplus d d) = d.
Proof.
  rewrite map2_same, map_map. rewrite <- (map_id d) at 2.
  apply map_ext. intros a. lra.
Qed.

Lemma shape_eqb_refl (s : list nat) : shape_eqb s s = true.
Proof. unfold shape_eqb. destruct (list_eq_dec Nat.eq_dec s s); congruence. Qed.

Lemma torch_add_same_shape (a b : Tensor) :
  shape a = shape b ->
  torch_add a b = Ok {| shape := shape a; data := map2 Rplus (data a) (data b) |}.
Proof. intros H. unfold torch_add. now rewrite H, shape_eqb_refl. Qed.

Unset Implicit Arguments.

(** ** KimNet *)

Lemma view_rows_ok (k B : nat) (x : Tensor) :
  0 < k -> numel (shape x) = B * k ->
  view_rows k x = Ok {| shape := [B; k]; data := data x |}.
Proof.
  intros Hk Hn. unfold view_rows. rewrite Hn.
  destruct (Nat.eqb_spec k 0) as [|_]; [lia|].
  rewrite Nat.Div0.mod_mul, Nat.div_mul by lia. reflexivity.
Qed.

Lemma KimNet_arch_shape (tr : bool) (bins marks nb_cls B : nat) :
  Sequential_shape tr (KimNet_arch bins marks nb_cls) [B; bins * marks] = Ok [B; nb_cls].
Proof.
  unfold KimNet_arch, Linear_arch. simpl. rewrite Nat.eqb_refl. reflexivity.
Qed.

Lemma KimNet_model_ok (bins marks nb_cls B : nat) (self : KimNet.t) (g : Generator)
    (x : Tensor) :
  KimNet_inv bins marks nb_cls self -> 0 < nb_cls -> shape x = [B; bins * marks] ->
  exists o ms g1,
    Sequential_forward (KimNet.training self) (KimNet.model self) x g = Ok (o, ms, g1)
    /\ shape o = [B; nb_cls]
    /\ distribution B nb_cls (data o)
    /\ map erase ms = map erase (KimNet.model self)
    /\ flat_map parameters ms = flat_map parameters (KimNet.model self).
Proof.
  intros (Hb & Hm & Harch) Hc Hx.
  destruct (@Sequential_forward_ok (KimNet.training self) (KimNet.model self) x g
              [B; nb_cls]) as (o & ms & g1 & E & Ho).
  { rewrite <- Sequential_shape_erase, Harch, Hx. apply KimNet_arch_shape. }
  exists o, ms, g1. split; [exact E|]. split; [exact Ho|].
  destruct (Sequential_forward_erase _ _ _ _ E) as [He Hp].
  split; [|auto].
  destruct (@Sequential_forward_last_softmax _ _ _
              (removelast (KimNet_arch bins marks nb_cls)) 1 _ _ _ _ Harch E) as [z Hz].
  apply (@softmax_distribution z o B nb_cls []); auto.
  rewrite <- (softmax_shape _ _ Hz). exact Ho.
Qed.

Lemma KimNet_inv_with_model (bins marks nb_cls : nat) (self : KimNet.t) (ms : list Layer) :
  KimNet_inv bins marks nb_cls self -> map erase ms = map erase (KimNet.model self) ->
  KimNet_inv bins marks nb_cls (KimNet.with_model self ms).
Proof.
  intros (Hb & Hm & Ha) He. repeat split; simpl; auto. now rewrite He.
Qed.

(** Any input with [B * (bins * marks)] entries goes through, as [B] samples. *)
Lemma KimNet_forward_general (bins marks nb_cls B : nat) (self : KimNet.t) (g : Generator)
    (x : Tensor) (r : option Tensor) :
  0 < bins * marks -> 0 < nb_cls -> KimNet_inv bins marks nb_cls self ->
  numel (shape x) = B * (bins * marks) ->
  (forall xr, r = Some xr -> numel (shape xr) = B * (bins * marks)) ->
  exists y self' g',
    KimNet.forward self g x r = Ok (y, self', g')
    /\ shape y = [B; nb_cls]
    /\ log_probabilities B nb_cls y
    /\ KimNet_inv bins marks nb_cls self'.
Proof.
  intros Hk Hc Hinv Hx Hr. pose proof Hinv as (Hb & Hm & Ha).
  unfold KimNet.forward. rewrite Hb, Hm, (view_rows_ok _ _ _ Hk Hx). simpl.
  destruct (KimNet_model_ok bins marks nb_cls B self g
              {| shape := [B; bins * marks]; data := data x |} Hinv Hc eq_refl)
    as (o & ms & g1 & E & Ho & Hd & He & _).
  rewrite E. simpl.
  pose proof (KimNet_inv_with_model _ _ _ _ _ Hinv He) as Hinv1.
  destruct r as [xr|].
  - rewrite Hb, Hm, (view_rows_ok _ _ _ Hk (Hr xr eq_refl)). simpl.
    destruct (KimNet_model_ok bins marks nb_cls B (KimNet.with_model self ms) g1
                {| shape := [B; bins * marks]; data := data xr |} Hinv1 Hc eq_refl)
      as (o2 & ms2 & g2 & E2 & Ho2 & Hd2 & He2 & _).
    simpl in E2. rewrite E2. simpl.
    rewrite torch_add_same_shape by congruence. simpl.
    eexists _, _, _. split; [reflexivity|]. split; [exact Ho|]. split.
    + apply distribution_log. now apply distribution_average.
    + now apply (KimNet_inv_with_model _ _ _ _ ms2 Hinv1).
  - eexists _, _, _. split; [reflexivity|]. split; [exact Ho|]. split; [|exact Hinv1].
    destruct o as [so d]. now apply distribution_log.
Qed.

(** What the constructor builds is a [KimNet] of its configuration. *)
Lemma KimNet_init_inv (bins marks nb_cls : nat) (g : Generator) :
  KimNet_inv bins marks nb_cls (fst (KimNet.init bins marks nb_cls g)).
Proof. repeat split. Qed.

(** C1. For every valid configuration and every batch of [B] windows, given as
    [(B, bins, marks)] or [(B, bins * marks)], alone or with a reverse strand
    of the same shape, [KimNet.forward] returns a tensor of shape
    [(B, nb_cls)] whose exponentiated entries sum to 1 along the classes. *)
Theorem KimNet_forward_log_softmax (bins marks nb_cls B : nat) (self : KimNet.t)
    (g : Generator) (x : Tensor) (r : option Tensor) :
  0 < bins * marks -> 0 < nb_cls -> KimNet_inv bins marks nb_cls self ->
  shape x = [B; bins; marks] \/ shape x = [B; bins * marks] ->
  (forall xr, r = Some xr -> shape xr = shape x) ->
  exists y self' g',
    KimNet.forward self g x r = Ok (y, self', g')
    /\ shape y = [B; nb_cls]
    /\ forall b, b < B -> sumf nb_cls (fun c => exp (at2 nb_cls y b c)) = 1%R.
Proof.
  intros Hk Hc Hinv Hx Hr.
  assert (Hn : numel (shape x) = B * (bins * marks))
    by (destruct Hx as [-> | ->]; simpl; lia).
  destruct (KimNet_forward_general bins marks nb_cls B self g x r Hk Hc Hinv Hn)
    as (y & self' & g' & E & Hs & Hl & _).
  - intros xr Hxr. now rewrite (Hr xr Hxr).
  - exists y, self', g'. auto.
Qed.

Lemma KimNet_forward_log_softmax_witness :
  exists y self' g',
    KimNet.forward KimNet_20_3_5 zero_generator
      (full [4; 20; 3] 1) (Some (full [4; 20; 3] 2)) = Ok (y, self', g')
    /\ shape y = [4; 5]
    /\ forall b, b < 4 -> sumf 5 (fun c => exp (at2 5 y b c)) = 1%R.
Proof.
  apply (KimNet_forward_log_softmax 20 3 5 4).
  - lia.
  - lia.
  - apply (KimNet_init_inv 20 3 5).
  - left. reflexivity.
  - intros xr H. inversion H. reflexivity.
Defined.

(** Two strands whose numbers of entries are different multiples of
    [bins * marks] are each read as a batch, and the sum of the two batches
    is refused. *)
Lemma KimNet_forward_batch_mismatch :
  KimNet.forward KimNet_20_3_5 zero_generator (full [2; 60] 1) (Some (full [3; 60] 1))
  = Raise RuntimeError.
Proof.
  pose proof (KimNet_init_inv 20 3 5 zero_generator) as Hinv.
  fold KimNet_20_3_5 in Hinv.
  unfold KimNet.forward.
  change (KimNet.bins KimNet_20_3_5 * KimNet.marks KimNet_20_3_5) with (20 * 3).
  rewrite (view_rows_ok (20 * 3) 2) by (try reflexivity; lia). cbn [bind].
  destruct (KimNet_model_ok 20 3 5 2 KimNet_20_3_5 zero_generator
              {| shape := [2; 20 * 3]; data := data (full [2; 60] 1) |} Hinv)
    as (o & ms & g1 & E & Ho & _ & He & _); [lia | reflexivity |].
  rewrite E. cbn [bind].
  pose proof (KimNet_inv_with_model 20 3 5 KimNet_20_3_5 ms Hinv He) as Hinv1.
  change (KimNet.bins (KimNet.with_model KimNet_20_3_5 ms)
          * KimNet.marks (KimNet.with_model KimNet_20_3_5 ms)) with (20 * 3).
  rewrite (view_rows_ok (20 * 3) 3) by (try reflexivity; lia). cbn [bind].
  destruct (KimNet_model_ok 20 3 5 3 (KimNet.with_model KimNet_20_3_5 ms) g1
              {| shape := [3; 20 * 3]; data := data (full [3; 60] 1) |} Hinv1)
    as (o2 & ms2 & g2 & E2 & Ho2 & _); [lia | reflexivity |].
  rewrite E2. cbn [bind].
  unfold torch_add. rewrite Ho, Ho2. unfold shape_eqb at 1.
  destruct (list_eq_dec Nat.eq_dec [2; 5] [3; 5]) as [H|_]; [discriminate H|].
  rewrite shape_eqb_refl. reflexivity.
Qed.

(** ** ConvNet *)

Lemma Conv1d_arch_shape (tr : bool) (cin cout k p B L : nat) :
  k <= L + 2 * p ->
  Layer_shape tr (Conv1d_arch cin cout k p) [B; cin; L] = Ok [B; cout; L + 2 * p - k + 1].
Proof.
  intros H. unfold Conv1d_arch, Layer_shape, blank, shape.
  rewrite Nat.eqb_refl. simpl negb. cbv iota.
  destruct (Nat.ltb_spec (L + 2 * p) k); [lia | reflexivity].
Qed.

Lemma BatchNorm1d_arch_shape (tr : bool) (n B L : nat) :
  B * L <> 1 -> Layer_shape tr (BatchNorm1d_arch n) [B; n; L] = Ok [B; n; L].
Proof.
  intros H. unfold BatchNorm1d_arch, Layer_shape, blank, shape.
  rewrite Nat.eqb_refl. simpl negb. cbv iota.
  apply Nat.eqb_neq in H. rewrite H, andb_false_r. reflexivity.
Qed.

Lemma activation_shape (tr leaky : bool) (s : list nat) :
  Layer_shape tr (ConvNet.activation leaky) s = Ok s.
Proof. destruct leaky; reflexivity. Qed.

Lemma MaxPool1d_shape (tr : bool) (B C L : nat) :
  2 <= L -> Layer_shape tr (MaxPool1d 2 2) [B; C; L] = Ok [B; C; L / 2].
Proof.
  intros H. unfold Layer_shape. simpl orb. cbv iota.
  destruct (Nat.ltb_spec L 2); [lia|].
  replace ((L - 2) / 2 + 1) with (L / 2); [reflexivity|].
  rewrite <- (Nat.div_add (L - 2) 1 2) by lia. f_equal. lia.
Qed.

Lemma AdaptiveAvgPool1d_shape (tr : bool) (out B C L : nat) :
  L <> 0 -> Layer_shape tr (AdaptiveAvgPool1d out) [B; C; L] = Ok [B; C; out].
Proof.
  intros H. unfold Layer_shape. apply Nat.eqb_neq in H. now rewrite H.
Qed.

Section ConvNet_shapes.

Variables (tr leaky : bool) (marks nb_cls B L : nat).
Hypothesis HB : 1 <= B.
Hypothesis HL : 4 <= L.

Lemma layer_one_shape :
  Sequential_shape tr
    [ Conv1d_arch marks 32 7 3; BatchNorm1d_arch 32; ConvNet.activation leaky ]
    [B; marks; L] = Ok [B; 32; L].
Proof.
  cbn [Sequential_shape]. rewrite Conv1d_arch_shape by lia. cbn [bind].
  replace (L + 2 * 3 - 7 + 1) with L by lia.
  rewrite BatchNorm1d_arch_shape by nia. cbn [bind].
  rewrite activation_shape. reflexivity.
Qed.

Lemma layer_two_shape :
  Sequential_shape tr
    [ Conv1d_arch 32 32 3 1; BatchNorm1d_arch 32; ConvNet.activation leaky;
      MaxPool1d 2 2 ]
    [B; 32; L] = Ok [B; 32; L / 2].
Proof.
  cbn [Sequential_shape]. rewrite Conv1d_arch_shape by lia. cbn [bind].
  replace (L + 2 * 1 - 3 + 1) with L by lia.
  rewrite BatchNorm1d_arch_shape by nia. cbn [bind].
  rewrite activation_shape. cbn [bind].
  rewrite MaxPool1d_shape by lia. reflexivity.
Qed.

Lemma half_ge_2 : 2 <= L / 2.
Proof. apply Nat.div_le_lower_bound; lia. Qed.

Lemma layer_three_shape :
  Sequential_shape tr
    [ Conv1d_arch 32 64 3 1; BatchNorm1d_arch 64; ConvNet.activation leaky ]
    [B; 32; L / 2] = Ok [B; 64; L / 2].
Proof.
  pose proof half_ge_2.
  cbn [Sequential_shape]. rewrite Conv1d_arch_shape by lia. cbn [bind].
  replace (L / 2 + 2 * 1 - 3 + 1) with (L / 2) by lia.
  rewrite BatchNorm1d_arch_shape by nia. cbn [bind].
  rewrite activation_shape. reflexivity.
Qed.

Lemma layer_four_shape :
  Sequential_shape tr
    [ Conv1d_arch 64 64 3 1; BatchNorm1d_arch 64; ConvNet.activation leaky;
      MaxPool1d 2 2 ]
    [B; 64; L / 2] = Ok [B; 64; L / 2 / 2].
Proof.
  pose proof half_ge_2.
  cbn [Sequential_shape]. rewrite Conv1d_arch_shape by lia. cbn [bind].
  replace (L / 2 + 2 * 1 - 3 + 1) with (L / 2) by lia.
  rewrite BatchNorm1d_arch_shape by nia. cbn [bind].
  rewrite activation_shape. cbn [bind].
  rewrite MaxPool1d_shape by lia. reflexivity.
Qed.

Lemma final_layer_shape :
  Sequential_shape tr
    [ AdaptiveAvgPool1d 1; Conv1d_arch 64 nb_cls 1 0; Softmax 1 ]
    [B; 64; L / 2 / 2] = Ok [B; nb_cls; 1].
Proof.
  pose proof half_ge_2.
  assert (L / 2 / 2 <> 0).
  { assert (1 <= L / 2 / 2) by (apply Nat.div_le_lower_bound; lia). lia. }
  cbn [Sequential_shape]. rewrite AdaptiveAvgPool1d_shape by auto. cbn [bind].
  rewrite Conv1d_arch_shape by lia. cbn [bind]. reflexivity.
Qed.

End ConvNet_shapes.

(** One block: the shapes go through, so the call does, and the block keeps
    its architecture and its learnable parameters. *)
Lemma block_ok (tr : bool) (ms arch : list Layer) (x : Tensor) (g : Generator)
    (s s' : list nat) :
  map erase ms = arch -> shape x = s -> Sequential_shape tr arch s = Ok s' ->
  exists y ms' g',
    Sequential_forward tr ms x g = Ok (y, ms', g') /\ shape y = s'
    /\ map erase ms' = arch /\ flat_map parameters ms' = flat_map parameters ms.
Proof.
  intros Ha Hx Hs.
  destruct (@Sequential_forward_ok tr ms x g s') as (y & ms' & g' & E & Hy).
  { now rewrite <- Sequential_shape_erase, Ha, Hx. }
  destruct (@Sequential_forward_erase _ _ _ _ _ _ _ E) as [He Hp].
  exists y, ms', g'. repeat split; auto. congruence.
Qed.

Lemma ConvNet_forward_prop_ok (marks nb_cls B L : nat) (leaky : bool) (self : ConvNet.t)
    (x : Tensor) (g : Generator) :
  ConvNet_inv marks nb_cls leaky self -> 0 < nb_cls -> 1 <= B -> 4 <= L ->
  shape x = [B; marks; L] ->
  exists o self1 g1,
    ConvNet.forward_prop self x g = Ok (o, self1, g1)
    /\ shape o = [B; nb_cls; 1]
    /\ distribution B nb_cls (data o)
    /\ ConvNet_inv marks nb_cls leaky self1
    /\ ConvNet.training self1 = ConvNet.training self
    /\ ConvNet_parameters self1 = ConvNet_parameters self.
Proof.
  intros [I1 I2 I3 I4 I5] Hc HB HL Hx. unfold ConvNet.forward_prop.
  set (tr := ConvNet.training self).
  destruct (block_ok tr _ _ x g _ _ I1 Hx ltac:(apply layer_one_shape; assumption))
    as (o1 & m1 & g1 & E1 & S1 & A1 & P1).
  rewrite E1. cbn [bind].
  destruct (block_ok tr _ _ o1 g1 _ _ I2 S1 ltac:(apply layer_two_shape; assumption))
    as (o2 & m2 & g2 & E2 & S2 & A2 & P2).
  rewrite E2. cbn [bind].
  destruct (block_ok tr _ _ o2 g2 _ _ I3 S2 ltac:(apply layer_three_shape; assumption))
    as (o3 & m3 & g3 & E3 & S3 & A3 & P3).
  rewrite E3. cbn [bind].
  destruct (block_ok tr _ _ o3 g3 _ _ I4 S3 ltac:(apply layer_four_shape; assumption))
    as (o4 & m4 & g4 & E4 & S4 & A4 & P4).
  rewrite E4. cbn [bind].
  destruct (block_ok tr _ _ o4 g4 _ _ I5 S4 ltac:(apply final_layer_shape; assumption))
    as (o5 & m5 & g5 & E5 & S5 & A5 & P5).
  rewrite E5. cbn [bind].
  eexists _, _, _. split; [reflexivity|]. split; [exact S5|]. split; [|split; [|split]].
  - destruct (@Sequential_forward_last_softmax tr _ _
                [AdaptiveAvgPool1d 1; Conv1d_arch 64 nb_cls 1 0] 1 _ _ _ _ I5 E5)
      as [z Hz].
    apply (@softmax_distribution z o5 B nb_cls [1]); auto.
    rewrite <- (@softmax_shape _ _ _ Hz). exact S5.
  - constructor; assumption.
  - reflexivity.
  - unfold ConvNet_parameters. cbn [ConvNet.layer_one ConvNet.layer_two
      ConvNet.layer_three ConvNet.layer_four ConvNet.final_layer].
    rewrite !flat_map_app. congruence.
Qed.

Lemma squeeze_shape (B C : nat) (d : list R) :
  2 <= C ->
  shape (torch_squeeze {| shape := [B; C; 1]; data := d |})
  = if B =? 1 then [C] else [B; C].
Proof.
  intros HC. unfold torch_squeeze. simpl.
  destruct (Nat.eqb_spec C 1); [lia|]. destruct (B =? 1); reflexivity.
Qed.

(** Every well-shaped batch goes through [ConvNet.forward]; the output holds
    log-probabilities, and the batch dimension is squeezed away with the
    trailing one exactly when the batch has a single sample. *)
Lemma ConvNet_forward_general (marks nb_cls B L : nat) (leaky : bool) (self : ConvNet.t)
    (g : Generator) (x : Tensor) (r : option Tensor) :
  ConvNet_inv marks nb_cls leaky self -> 2 <= nb_cls -> 1 <= B -> 4 <= L ->
  shape x = [B; marks; L] ->
  (forall xr, r = Some xr -> shape xr = shape x) ->
  exists y self' g',
    ConvNet.forward self g x r = Ok (y, self', g')
    /\ shape y = (if B =? 1 then [nb_cls] else [B; nb_cls])
    /\ log_probabilities B nb_cls y
    /\ ConvNet_inv marks nb_cls leaky self'.
Proof.
  intros Hinv Hc HB HL Hx Hr. unfold ConvNet.forward.
  destruct (ConvNet_forward_prop_ok marks nb_cls B L leaky self x g Hinv) as
    (o & self1 & g1 & E & Ho & Hd & Hinv1 & _); auto; try lia.
  rewrite E. cbn [bind]. destruct r as [xr|].
  - specialize (Hr xr eq_refl). rewrite Hx in Hr.
    destruct (ConvNet_forward_prop_ok marks nb_cls B L leaky self1 xr g1 Hinv1) as
      (o2 & self2 & g2 & E2 & Ho2 & Hd2 & Hinv2 & _); auto; try lia.
    rewrite E2. cbn [bind]. rewrite torch_add_same_shape by congruence. cbn [bind].
    eexists _, _, _. split; [reflexivity|]. split; [|split; [|exact Hinv2]].
    + unfold torch_log, torch_div. cbn [shape data]. rewrite Ho.
      now apply squeeze_shape.
    + apply (@distribution_log B nb_cls (shape o)). now apply distribution_average.
  - eexists _, _, _. split; [reflexivity|]. split; [|split; [|exact Hinv1]].
    + unfold torch_log. cbn [shape data]. rewrite Ho. now apply squeeze_shape.
    + destruct o as [so d]. now apply (@distribution_log B nb_cls so).
Qed.

Lemma ConvNet_init_ok (marks : nat) (nb_cls : Z) (leaky : bool) (g : Generator) :
  (2 <= nb_cls)%Z ->
  exists net g',
    ConvNet.init marks nb_cls leaky g = Ok (net, g')
    /\ ConvNet_inv marks (Z.to_nat nb_cls) leaky net
    /\ ConvNet.training net = true.
Proof.
  intros H. unfold ConvNet.init.
  destruct (Z.gtb_spec nb_cls 1) as [_|]; [|lia].
  eexists _, _. split; [reflexivity|]. split; [destruct leaky; constructor|]; reflexivity.
Qed.

(** C3. Constructing a [ConvNet] fails, with the assertion error and before
    anything is built, exactly when [nb_cls] is 1 or less; with 2 or more it
    returns a network of the requested configuration, whatever the number of
    marks and the activation flag: there is no other precondition. *)
Theorem ConvNet_init_precondition (marks : nat) (nb_cls : Z) (leaky : bool) (g : Generator) :
  match ConvNet.init marks nb_cls leaky g with
  | Ok (net, _) =>
      (2 <= nb_cls)%Z /\ ConvNet_inv marks (Z.to_nat nb_cls) leaky net
  | Raise e =>
      (nb_cls <= 1)%Z /\ e = AssertionError "output layer size must be at least 2."
  end.
Proof.
  unfold ConvNet.init. destruct (Z.gtb_spec nb_cls 1) as [H|H].
  - split; [lia|]. destruct leaky; constructor; reflexivity.
  - split; [lia | reflexivity].
Qed.

(** C9. On a batch of a single sample [ConvNet.forward] returns a tensor of
    one dimension, of length [nb_cls]: the squeeze takes the batch dimension
    away with the trailing one. *)
Theorem ConvNet_forward_single_sample (marks nb_cls L : nat) (leaky : bool)
    (self : ConvNet.t) (g : Generator) (x : Tensor) (r : option Tensor) :
  ConvNet_inv marks nb_cls leaky self -> 2 <= nb_cls -> 4 <= L ->
  shape x = [1; marks; L] ->
  (forall xr, r = Some xr -> shape xr = shape x) ->
  exists y self' g',
    ConvNet.forward self g x r = Ok (y, self', g')
    /\ shape y = [nb_cls]
    /\ length (shape y) = 1.
Proof.
  intros Hinv Hc HL Hx Hr.
  destruct (ConvNet_forward_general marks nb_cls 1 L leaky self g x r)
    as (y & self' & g' & E & Hs & _); auto.
  exists y, self', g'. simpl in Hs. rewrite Hs. auto.
Qed.

Lemma ConvNet_3_5_inv : ConvNet_inv 3 5 false ConvNet_3_5.
Proof. constructor; reflexivity. Qed.

Lemma ConvNet_forward_single_sample_witness :
  exists y self' g',
    ConvNet.forward ConvNet_3_5 zero_generator (full [1; 3; 128] 1) None
    = Ok (y, self', g')
    /\ shape y = [5]
    /\ length (shape y) = 1.
Proof.
  apply (ConvNet_forward_single_sample 3 5 128 false).
  - exact ConvNet_3_5_inv.
  - lia.
  - lia.
  - reflexivity.
  - intros xr H. discriminate H.
Defined.

(** C2. The scenario of the specification with a batch of one sample instead
    of four: [ConvNet(marks=3, nb_cls=5)] on an input of shape [(1, 3, 128)]
    returns shape [(5)], not [(1, 5)]; on four samples it returns [(4, 5)]. *)
Theorem ConvNet_forward_batch_one_loses_batch_dim :
  (exists y self' g',
     ConvNet.forward ConvNet_3_5 zero_generator (full [1; 3; 128] 1) None
     = Ok (y, self', g')
     /\ shape y = [5] /\ shape y <> [1; 5])
  /\
  (exists y self' g',
     ConvNet.forward ConvNet_3_5 zero_generator (full [4; 3; 128] 1) None
     = Ok (y, self', g')
     /\ shape y = [4; 5]).
Proof.
  split.
  - destruct (ConvNet_forward_general 3 5 1 128 false ConvNet_3_5 zero_generator
                (full [1; 3; 128] 1) None ConvNet_3_5_inv)
      as (y & self' & g' & E & Hs & _); try lia; try reflexivity; try discriminate.
    exists y, self', g'. simpl in Hs. rewrite Hs. repeat split; auto. discriminate.
  - destruct (ConvNet_forward_general 3 5 4 128 false ConvNet_3_5 zero_generator
                (full [4; 3; 128] 1) None ConvNet_3_5_inv)
      as (y & self' & g' & E & Hs & _); try lia; try reflexivity; try discriminate.
    exists y, self', g'. auto.
Qed.

(** ** What a call changes *)

Lemma Layer_forward_frame (tr : bool) (m m' : Layer) (x y : Tensor) (g g' : Generator) :
  Layer_forward tr m x g = Ok (y, m', g') ->
  (tr && has_buffers m = false -> m' = m) /\ (tr && is_dropout m = false -> g' = g).
Proof.
  destruct m; simpl; unfold bind, batch_norm, dropout; intros H;
    repeat (break_hyp; simpl in *; try discriminate);
    repeat match goal with
           | H : Ok _ = Ok _ |- _ => inversion H; subst; clear H
           end;
    split; intros; try reflexivity; try discriminate.
Qed.

Lemma Sequential_forward_frame (tr : bool) (ms ms' : list Layer) (x y : Tensor)
    (g g' : Generator) :
  Sequential_forward tr ms x g = Ok (y, ms', g') ->
  (stateless tr ms = true -> ms' = ms) /\ (deterministic tr ms = true -> g' = g).
Proof.
  revert ms' x y g g'. induction ms as [|m ms IH]; intros ms' x y g g'; simpl.
  - intros H. inversion H. auto.
  - destruct (Layer_forward tr m x g) as [[[y1 m1] g1]|e] eqn:E; simpl; [|discriminate].
    destruct (Sequential_forward tr ms y1 g1) as [[[z ms1] g2]|e] eqn:E'; simpl;
      [|discriminate].
    intros H. inversion H; subst.
    apply Layer_forward_frame in E. apply IH in E'.
    destruct E as [Em Eg], E' as [Em' Eg']. split; intros Hs.
    + apply andb_prop in Hs. destruct Hs as [H1 H2].
      rewrite Em, Em'; auto. now apply negb_true_iff.
    + apply andb_prop in Hs. destruct Hs as [H1 H2].
      rewrite Eg', Eg; auto. now apply negb_true_iff.
Qed.

(** Without a random draw, a pipeline run again on the same input, in the
    state the first run left, returns the same output. *)
Lemma Layer_forward_again (tr : bool) (m m' : Layer) (x y : Tensor) (g g' : Generator) :
  Layer_forward tr m x g = Ok (y, m', g') -> tr && is_dropout m = false ->
  exists m'', Layer_forward tr m' x g' = Ok (y, m'', g').
Proof.
  destruct m; simpl; unfold bind, batch_norm, dropout; intros H Hd;
    repeat (break_hyp; simpl in *; try discriminate);
    repeat match goal with
           | H : Ok _ = Ok _ |- _ => inversion H; subst; clear H
           end;
    simpl; unfold bind, batch_norm;
    repeat match goal with
           | H : _ = _ |- _ => rewrite H
           end;
    simpl; eexists; reflexivity.
Qed.

Lemma Sequential_forward_again (tr : bool) (ms ms' : list Layer) (x y : Tensor)
    (g g' : Generator) :
  Sequential_forward tr ms x g = Ok (y, ms', g') -> deterministic tr ms = true ->
  exists ms'', Sequential_forward tr ms' x g' = Ok (y, ms'', g').
Proof.
  revert ms' x y g g'. induction ms as [|m ms IH]; intros ms' x y g g'; simpl.
  - intros H _. inversion H. exists []. reflexivity.
  - destruct (Layer_forward tr m x g) as [[[y1 m1] g1]|e] eqn:E; simpl; [|discriminate].
    destruct (Sequential_forward tr ms y1 g1) as [[[z ms1] g2]|e] eqn:E'; simpl;
      [|discriminate].
    intros H Hs. inversion H; subst. apply andb_prop in Hs. destruct Hs as [H1 H2].
    apply negb_true_iff in H1.
    destruct (Sequential_forward_frame _ _ _ _ _ _ _ E') as [_ Hg]. specialize (Hg H2).
    subst g1.
    destruct (Layer_forward_again _ _ _ _ _ _ _ E H1) as [m2 E2].
    destruct (IH _ _ _ _ _ E' H2) as [ms2 E2'].
    simpl. rewrite E2. simpl. rewrite E2'. simpl. eexists. reflexivity.
Qed.

Lemma deterministic_false (ms : list Layer) : deterministic false ms = true.
Proof. induction ms; simpl; auto. Qed.

Lemma stateless_false (ms : list Layer) : stateless false ms = true.
Proof. induction ms; simpl; auto. Qed.

Lemma deterministic_erase (tr : bool) (ms : list Layer) :
  deterministic tr (map erase ms) = deterministic tr ms.
Proof.
  unfold deterministic. induction ms as [|m ms IH]; simpl; [reflexivity|].
  rewrite IH. now destruct m.
Qed.

Lemma stateless_erase (tr : bool) (ms : list Layer) :
  stateless tr (map erase ms) = stateless tr ms.
Proof.
  unfold stateless. induction ms as [|m ms IH]; simpl; [reflexivity|].
  rewrite IH. now destruct m.
Qed.

Lemma KimNet_stateless (bins marks nb_cls : nat) (self : KimNet.t) (tr : bool) :
  KimNet_inv bins marks nb_cls self -> stateless tr (KimNet.model self) = true.
Proof.
  intros (_ & _ & Ha). rewrite <- stateless_erase, Ha. now destruct tr.
Qed.

Lemma ConvNet_deterministic (marks nb_cls : nat) (leaky : bool) (self : ConvNet.t)
    (tr : bool) :
  ConvNet_inv marks nb_cls leaky self ->
  deterministic tr (ConvNet.layer_one self) = true
  /\ deterministic tr (ConvNet.layer_two self) = true
  /\ deterministic tr (ConvNet.layer_three self) = true
  /\ deterministic tr (ConvNet.layer_four self) = true
  /\ deterministic tr (ConvNet.final_layer self) = true.
Proof.
  intros [I1 I2 I3 I4 I5].
  rewrite <- (deterministic_erase tr (ConvNet.layer_one self)), I1.
  rewrite <- (deterministic_erase tr (ConvNet.layer_two self)), I2.
  rewrite <- (deterministic_erase tr (ConvNet.layer_three self)), I3.
  rewrite <- (deterministic_erase tr (ConvNet.layer_four self)), I4.
  rewrite <- (deterministic_erase tr (ConvNet.final_layer self)), I5.
  destruct tr, leaky; repeat split.
Qed.

Lemma average_same_tensor (o : Tensor) :
  torch_div {| shape := shape o; data := map2 Rplus (data o) (data o) |} 2 = o.
Proof. destruct o as [s d]. unfold torch_div. simpl. now rewrite average_same. Qed.

Lemma torch_add_self (o : Tensor) :
  torch_add o o = Ok {| shape := shape o; data := map2 Rplus (data o) (data o) |}.
Proof. now apply torch_add_same_shape. Qed.

(** [_forward_prop] of a [ConvNet] draws nothing, changes no learnable
    parameter, changes nothing at all in evaluation mode, and returns the same
    output when it is run again on the same input. *)
Lemma ConvNet_forward_prop_frame (marks nb_cls : nat) (leaky : bool) (self self1 : ConvNet.t)
    (x o : Tensor) (g g1 : Generator) :
  ConvNet_inv marks nb_cls leaky self ->
  ConvNet.forward_prop self x g = Ok (o, self1, g1) ->
  g1 = g
  /\ ConvNet_inv marks nb_cls leaky self1
  /\ ConvNet_parameters self1 = ConvNet_parameters self
  /\ ConvNet.training self1 = ConvNet.training self
  /\ (ConvNet.training self = false -> self1 = self)
  /\ exists self2, ConvNet.forward_prop self1 x g1 = Ok (o, self2, g1).
Proof.
  intros Hinv H.
  destruct (ConvNet_deterministic marks nb_cls leaky self (ConvNet.training self) Hinv)
    as (D1 & D2 & D3 & D4 & D5).
  destruct Hinv as [I1 I2 I3 I4 I5].
  unfold ConvNet.forward_prop in H.
  set (tr := ConvNet.training self) in *.
  destruct (Sequential_forward tr (ConvNet.layer_one self) x g)
    as [[[o1 m1] h1]|e] eqn:E1; simpl in H; [|discriminate].
  destruct (Sequential_forward tr (ConvNet.layer_two self) o1 h1)
    as [[[o2 m2] h2]|e] eqn:E2; simpl in H; [|discriminate].
  destruct (Sequential_forward tr (ConvNet.layer_three self) o2 h2)
    as [[[o3 m3] h3]|e] eqn:E3; simpl in H; [|discriminate].
  destruct (Sequential_forward tr (ConvNet.layer_four self) o3 h3)
    as [[[o4 m4] h4]|e] eqn:E4; simpl in H; [|discriminate].
  destruct (Sequential_forward tr (ConvNet.final_layer self) o4 h4)
    as [[[o5 m5] h5]|e] eqn:E5; simpl in H; [|discriminate].
  inversion H; subst o5 self1 h5; clear H.
  destruct (Sequential_forward_frame _ _ _ _ _ _ _ E1) as [F1 G1]. specialize (G1 D1).
  destruct (Sequential_forward_frame _ _ _ _ _ _ _ E2) as [F2 G2]. specialize (G2 D2).
  destruct (Sequential_forward_frame _ _ _ _ _ _ _ E3) as [F3 G3]. specialize (G3 D3).
  destruct (Sequential_forward_frame _ _ _ _ _ _ _ E4) as [F4 G4]. specialize (G4 D4).
  destruct (Sequential_forward_frame _ _ _ _ _ _ _ E5) as [F5 G5]. specialize (G5 D5).
  subst h1 h2 h3 h4 g1.
  destruct (@Sequential_forward_erase _ _ _ _ _ _ _ E1) as [A1 P1].
  destruct (@Sequential_forward_erase _ _ _ _ _ _ _ E2) as [A2 P2].
  destruct (@Sequential_forward_erase _ _ _ _ _ _ _ E3) as [A3 P3].
  destruct (@Sequential_forward_erase _ _ _ _ _ _ _ E4) as [A4 P4].
  destruct (@Sequential_forward_erase _ _ _ _ _ _ _ E5) as [A5 P5].
  split; [reflexivity|]. split; [|split; [|split; [|split]]].
  - constructor; simpl; congruence.
  - unfold ConvNet_parameters. simpl. rewrite !flat_map_app. congruence.
  - reflexivity.
  - intros Htr. fold tr in Htr. rewrite Htr in *.
    rewrite F1, F2, F3, F4, F5 by apply stateless_false.
    destruct self. simpl in *. subst tr. congruence.
  - destruct (Sequential_forward_again _ _ _ _ _ _ _ E1 D1) as [n1 R1].
    destruct (Sequential_forward_again _ _ _ _ _ _ _ E2 D2) as [n2 R2].
    destruct (Sequential_forward_again _ _ _ _ _ _ _ E3 D3) as [n3 R3].
    destruct (Sequential_forward_again _ _ _ _ _ _ _ E4 D4) as [n4 R4].
    destruct (Sequential_forward_again _ _ _ _ _ _ _ E5 D5) as [n5 R5].
    unfold ConvNet.forward_prop. simpl. fold tr.
    rewrite R1. simpl. rewrite R2. simpl. rewrite R3. simpl. rewrite R4. simpl.
    rewrite R5. simpl. eexists. reflexivity.
Qed.

Lemma KimNet_with_model_same (self : KimNet.t) : KimNet.with_model self (KimNet.model self) = self.
Proof. now destruct self. Qed.

Lemma KimNet_forward_eval_same_twice (self : KimNet.t) (g : Generator) (x : Tensor) :
  KimNet.training self = false ->
  output (KimNet.forward self g x (Some x)) = output (KimNet.forward self g x None).
Proof.
  intros Htr. unfold KimNet.forward. rewrite Htr.
  destruct (view_rows (KimNet.bins self * KimNet.marks self) x) as [x1|e] eqn:V; simpl;
    [|reflexivity].
  destruct (Sequential_forward false (KimNet.model self) x1 g) as [[[o ms] g1]|e] eqn:E;
    simpl; [|reflexivity].
  destruct (Sequential_forward_frame _ _ _ _ _ _ _ E) as [Fm Fg].
  rewrite (Fm (stateless_false _)), (Fg (deterministic_false _)) in *.
  rewrite V. simpl. rewrite Htr, E. simpl.
  rewrite torch_add_self. simpl. now rewrite average_same_tensor.
Qed.

Lemma ConvNet_forward_same_twice (marks nb_cls : nat) (leaky : bool) (self : ConvNet.t)
    (g : Generator) (x : Tensor) :
  ConvNet_inv marks nb_cls leaky self ->
  output (ConvNet.forward self g x (Some x)) = output (ConvNet.forward self g x None).
Proof.
  intros Hinv. unfold ConvNet.forward.
  destruct (ConvNet.forward_prop self x g) as [[[o self1] g1]|e] eqn:E; simpl;
    [|reflexivity].
  destruct (ConvNet_forward_prop_frame _ _ _ _ _ _ _ _ _ Hinv E)
    as (_ & _ & _ & _ & _ & self2 & E2).
  rewrite E2. simpl. rewrite torch_add_self. simpl. now rewrite average_same_tensor.
Qed.

(** C4, amended.  Giving the same tensor as forward and as reverse strand
    returns exactly the output of the forward strand alone for a [ConvNet] in
    either mode and for a [KimNet] in evaluation mode. *)
Theorem forward_same_strand_twice (kself : KimNet.t) (marks nb_cls : nat) (leaky : bool)
    (cself : ConvNet.t) (g : Generator) (kx cx : Tensor) :
  KimNet.training kself = false ->
  ConvNet_inv marks nb_cls leaky cself ->
  output (KimNet.forward kself g kx (Some kx)) = output (KimNet.forward kself g kx None)
  /\ output (ConvNet.forward cself g cx (Some cx)) = output (ConvNet.forward cself g cx None).
Proof.
  intros Htr Hinv. split.
  - now apply KimNet_forward_eval_same_twice.
  - now apply (ConvNet_forward_same_twice marks nb_cls leaky).
Qed.

Lemma forward_same_strand_twice_witness :
  output (KimNet.forward KimNet_20_3_5_eval zero_generator (full [4; 20; 3] 1)
            (Some (full [4; 20; 3] 1)))
  = output (KimNet.forward KimNet_20_3_5_eval zero_generator (full [4; 20; 3] 1) None)
  /\ output (ConvNet.forward ConvNet_3_5 zero_generator (full [4; 3; 128] 1)
               (Some (full [4; 3; 128] 1)))
     = output (ConvNet.forward ConvNet_3_5 zero_generator (full [4; 3; 128] 1) None).
Proof.
  apply (forward_same_strand_twice KimNet_20_3_5_eval 3 5 false ConvNet_3_5).
  - reflexivity.
  - exact ConvNet_3_5_inv.
Defined.

(** ** init_weights *)

Lemma kaiming_std_eq (fan : nat) : 0 < fan -> kaiming_std fan = sqrt (2 / INR fan).
Proof.
  intros H. unfold kaiming_std, relu_gain. apply lt_0_INR in H.
  rewrite sqrt_div; [reflexivity | lra | exact H].
Qed.

Lemma kaiming_bound_eq (fan : nat) : 0 < fan -> kaiming_bound fan = sqrt (6 / INR fan).
Proof.
  intros H. unfold kaiming_bound. rewrite kaiming_std_eq by exact H.
  apply lt_0_INR in H. rewrite <- sqrt_mult.
  - f_equal. field. lra.
  - lra.
  - apply Rlt_le, Rdiv_lt_0_compat; lra.
Qed.

Lemma zeros_spec (b : Tensor) :
  shape (zeros_ b) = shape b
  /\ length (data (zeros_ b)) = length (data b)
  /\ forall i, at1 (zeros_ b) i = 0%R.
Proof.
  unfold zeros_, at1. simpl. split; [reflexivity|]. split; [apply length_map|].
  induction (data b) as [|v l IH]; intros [|i]; simpl; auto.
Qed.

(** C6. On a convolution [init_weights] redraws the weight uniformly on
    [-b, b] with [b = sqrt (6 / fan_in)] (He/Kaiming uniform for a rectifier),
    on a linear layer it redraws the weight as a normal of standard deviation
    [sqrt (2 / fan_in)] (He/Kaiming normal); in both it sets the bias to
    zeros. *)
Theorem init_weights_conv_and_linear (padding cout cin k outf inf : nat)
    (cw cb lw lb : Tensor) (g : Generator) :
  shape cw = [cout; cin; k] ->
  shape lw = [outf; inf] ->
  (exists w g',
     init_weights (LayerModule (Conv1d padding cw cb)) g
     = Ok (tt, LayerModule (Conv1d padding w (zeros_ cb)), g')
     /\ shape w = shape cw
     /\ forall i, i < cout * (cin * k) ->
          at1 w i = ((2 * draw_uniform g i - 1) * sqrt (6 / INR (cin * k)))%R)
  /\ (exists w g',
        init_weights (LayerModule (Linear lw lb)) g
        = Ok (tt, LayerModule (Linear w (zeros_ lb)), g')
        /\ shape w = shape lw
        /\ forall i, i < outf * inf ->
             at1 w i = (draw_normal g i * sqrt (2 / INR inf))%R)
  /\ (forall b, shape (zeros_ b) = shape b /\ forall i, at1 (zeros_ b) i = 0%R).
Proof.
  intros Hc Hl. split; [|split].
  - unfold init_weights, kaiming_uniform_. rewrite Hc.
    destruct (existsb (Nat.eqb 0) [cout; cin; k]) eqn:Z.
    + simpl. exists cw, g. split; [reflexivity|]. split; [first [assumption | reflexivity]|].
      intros i Hi. exfalso. simpl in Z.
      destruct cout, cin, k; simpl in Z; try discriminate; nia.
    + simpl. eexists _, _. split; [reflexivity|]. split; [first [assumption | reflexivity]|].
      intros i Hi. unfold at1. simpl.
      assert (0 < cin * k) by nia.
      rewrite nth_tab by nia.
      replace (cin * (k * 1)) with (cin * k) by lia.
      rewrite kaiming_bound_eq by assumption. ring.
  - unfold init_weights, kaiming_normal_. rewrite Hl.
    destruct (existsb (Nat.eqb 0) [outf; inf]) eqn:Z.
    + simpl. exists lw, g. split; [reflexivity|]. split; [first [assumption | reflexivity]|].
      intros i Hi. exfalso. simpl in Z.
      destruct outf, inf; simpl in Z; try discriminate; nia.
    + simpl. eexists _, _. split; [reflexivity|]. split; [first [assumption | reflexivity]|].
      intros i Hi. unfold at1. simpl.
      assert (0 < inf) by nia.
      rewrite nth_tab by nia.
      replace (inf * 1) with inf by lia.
      rewrite kaiming_std_eq by assumption. ring.
  - intros b. destruct (zeros_spec b) as (H1 & _ & H3). auto.
Qed.

Lemma init_weights_conv_and_linear_witness :
  exists w g',
    init_weights (LayerModule (Conv1d 3 (full [32; 3; 7] 1) (full [32] 1))) zero_generator
    = Ok (tt, LayerModule (Conv1d 3 w (zeros_ (full [32] 1))), g')
    /\ shape w = [32; 3; 7]
    /\ forall i, i < 32 * (3 * 7) ->
         at1 w i = ((2 * draw_uniform zero_generator i - 1) * sqrt (6 / INR (3 * 7)))%R.
Proof.
  apply (init_weights_conv_and_linear 3 32 3 7 600 60
           (full [32; 3; 7] 1) (full [32] 1) (full [600; 60] 1) (full [600] 1)
           zero_generator).
  - reflexivity.
  - reflexivity.
Defined.

(** C7. [init_weights] returns no value, and a module that is neither a
    convolution nor a linear layer comes out as it went in (the generator is
    not touched either). *)
Theorem init_weights_leaves_other_modules (m : Module) (g : Generator) :
  is_conv_or_linear m = false -> init_weights m g = Ok (tt, m, g).
Proof.
  intros H. destruct m as [l| | |]; try reflexivity.
  destruct l; try reflexivity; discriminate H.
Qed.

Lemma init_weights_leaves_other_modules_witness :
  init_weights (LayerModule (BatchNorm1d_new 32)) zero_generator
  = Ok (tt, LayerModule (BatchNorm1d_new 32), zero_generator).
Proof.
  apply (init_weights_leaves_other_modules (LayerModule (BatchNorm1d_new 32))).
  reflexivity.
Defined.

(** ** The pipeline of KimNet *)

Lemma dropout_entries (p : R) (x : Tensor) (g : Generator) (i : nat) :
  i < length (data x) ->
  at1 (fst (dropout p x g)) i
  = if Rlt_dec (draw_uniform g i) (1 - p) then (at1 x i / (1 - p))%R else 0%R.
Proof.
  intros Hi. unfold dropout, at1. simpl.
  rewrite (nth_map2 _ _ _ 0 0%R) by (rewrite ?length_seq; lia).
  now rewrite seq_nth.
Qed.

(** C8. The pipeline that [KimNet] builds is: linear [bins * marks -> 600],
    softplus, linear [600 -> 500], softplus, linear [500 -> 400], softplus,
    dropout of rate 1/2, linear [400 -> nb_cls], softmax along dimension 1;
    run in this order, the dropout being the identity outside training mode
    and, in training mode, zeroing the entries whose draw is not below 1/2
    and doubling the others. *)
Theorem KimNet_init_pipeline (bins marks nb_cls : nat) (g : Generator) :
  exists w1 b1 w2 b2 w3 b3 w4 b4,
    KimNet.model (fst (KimNet.init bins marks nb_cls g))
    = [ Linear w1 b1; Softplus; Linear w2 b2; Softplus; Linear w3 b3; Softplus;
        Dropout (1 / 2); Linear w4 b4; Softmax 1 ]
    /\ (shape w1 = [600; bins * marks] /\ shape b1 = [600])
    /\ (shape w2 = [500; 600] /\ shape b2 = [500])
    /\ (shape w3 = [400; 500] /\ shape b3 = [400])
    /\ (shape w4 = [nb_cls; 400] /\ shape b4 = [nb_cls])
    /\ (forall tr x g0,
          Sequential_forward tr (KimNet.model (fst (KimNet.init bins marks nb_cls g))) x g0
          = (do h1 <- linear w1 b1 x;
             do h2 <- linear w2 b2 (softplus h1);
             do h3 <- linear w3 b3 (softplus h2);
             let '(d, g1) := if tr : bool then dropout (1 / 2) (softplus h3) g0
                             else (softplus h3, g0) in
             do z <- linear w4 b4 d;
             do y <- softmax 1 z;
             Ok (y, KimNet.model (fst (KimNet.init bins marks nb_cls g)), g1)))
    /\ (forall x g0 i, i < length (data x) ->
          at1 (fst (dropout (1 / 2) x g0)) i
          = if Rlt_dec (draw_uniform g0 i) (1 / 2) then (2 * at1 x i)%R else 0%R).
Proof.
  eexists _, _, _, _, _, _, _, _. split; [reflexivity|].
  repeat (split; [split; reflexivity|]). split.
  - intros tr x g0. cbn [KimNet.init Linear_new uniform_ fst KimNet.model Sequential_forward
                         Layer_forward].
    destruct (linear _ _ x) as [h1|e]; cbn [bind]; [|reflexivity].
    destruct (linear _ _ (softplus h1)) as [h2|e]; cbn [bind]; [|reflexivity].
    destruct (linear _ _ (softplus h2)) as [h3|e]; cbn [bind]; [|reflexivity].
    destruct tr.
    + destruct (dropout (1 / 2) (softplus h3) g0) as [d g1]. cbn [bind].
      destruct (linear _ _ d) as [z|e]; cbn [bind]; [|reflexivity].
      destruct (softmax 1 z) as [y|e]; reflexivity.
    + cbn [bind].
      destruct (linear _ _ (softplus h3)) as [z|e]; cbn [bind]; [|reflexivity].
      destruct (softmax 1 z) as [y|e]; reflexivity.
  - intros x g0 i Hi. rewrite dropout_entries by exact Hi.
    replace (1 - 1 / 2)%R with (1 / 2)%R by lra.
    destruct (Rlt_dec (draw_uniform g0 i) (1 / 2)); [field | reflexivity].
Qed.

(** ** Dropout in training mode: the two passes draw different masks *)

Lemma nth_tab_zero (n i : nat) : nth i (tab n (fun _ => 0%R)) 0%R = 0%R.
Proof.
  destruct (Nat.lt_ge_cases i n) as [H|H].
  - now apply nth_tab.
  - apply nth_overflow. now rewrite tab_length.
Qed.

Lemma mk2_ext (A : Type) (B C : nat) (f f' : nat -> nat -> A) :
  (forall b c, b < B -> c < C -> f b c = f' b c) -> mk2 B C f = mk2 B C f'.
Proof.
  intros H. unfold mk2. f_equal. apply tab_ext. intros b Hb.
  apply tab_ext. intros c Hc. now apply H.
Qed.

Lemma map_mk2 (A A' : Type) (h : A -> A') (B C : nat) (f : nat -> nat -> A) :
  map h (mk2 B C f) = mk2 B C (fun b c => h (f b c)).
Proof.
  unfold mk2. rewrite map_concat_tab. f_equal. apply tab_ext. intros b _. apply map_tab.
Qed.

Lemma mk2_one (A : Type) (C : nat) (f : nat -> nat -> A) : mk2 1 C f = tab C (f 0).
Proof. unfold mk2. cbn [tab seq map concat]. apply app_nil_r. Qed.

Lemma map2_seq (A : Type) (h : nat -> R -> A) (l : list R) :
  map2 h (seq 0 (length l)) l = tab (length l) (fun i => h i (nth i l 0%R)).
Proof.
  assert (Hl : l = tab (length l) (fun i => nth i l 0%R)).
  { apply (nth_ext _ _ 0%R 0%R); [now rewrite tab_length|].
    intros i Hi. now rewrite nth_tab. }
  assert (Hs : seq 0 (length l) = tab (length l) (fun i => i)).
  { unfold tab. now rewrite map_id. }
  rewrite Hs. rewrite Hl at 2. rewrite map2_tab. reflexivity.
Qed.

(** A linear layer whose weight and bias are zero returns zeros. *)
Lemma linear_zero (outf inf B : nat) (x : Tensor) :
  shape x = [B; inf] ->
  linear (full [outf; inf] 0) (full [outf] 0) x
  = Ok {| shape := [B; outf]; data := mk2 B outf (fun _ _ => 0%R) |}.
Proof.
  intros Hx. unfold linear. cbn [full shape]. rewrite Hx.
  cbn [last removelast app numel fold_right]. rewrite Nat.eqb_refl, Nat.mul_1_r.
  f_equal. f_equal. apply mk2_ext. intros r o _ _.
  unfold at1. cbn [full data]. rewrite nth_tab_zero.
  rewrite sumf_zero; [lra|]. intros i _. unfold at2. cbn [full data].
  rewrite nth_tab_zero. lra.
Qed.

Lemma softplus_const (s : list nat) (B C : nat) (v : R) :
  softplus {| shape := s; data := mk2 B C (fun _ _ => v) |}
  = {| shape := s; data := mk2 B C (fun _ _ => softplus1 v) |}.
Proof. unfold softplus. cbn [shape data]. now rewrite map_mk2. Qed.

(** Three zero linear layers, each followed by a softplus: whatever the
    input, every entry of the output is [softplus 0]. *)
Lemma zero_prefix (tr : bool) (n0 n1 n2 n3 B : nat) (x : Tensor) (g : Generator)
    (rest : list Layer) :
  shape x = [B; n0] ->
  Sequential_forward tr
    (Linear (full [n1; n0] 0) (full [n1] 0) :: Softplus
     :: Linear (full [n2; n1] 0) (full [n2] 0) :: Softplus
     :: Linear (full [n3; n2] 0) (full [n3] 0) :: Softplus :: rest) x g
  = (do (z, rest', g') <-
       Sequential_forward tr rest
         {| shape := [B; n3]; data := mk2 B n3 (fun _ _ => softplus1 0) |} g;
     Ok (z,
         Linear (full [n1; n0] 0) (full [n1] 0) :: Softplus
         :: Linear (full [n2; n1] 0) (full [n2] 0) :: Softplus
         :: Linear (full [n3; n2] 0) (full [n3] 0) :: Softplus :: rest', g')).
Proof.
  intros Hx. cbn [Sequential_forward Layer_forward].
  rewrite (linear_zero n1 n0 B x Hx). cbn [bind]. rewrite softplus_const.
  rewrite (linear_zero n2 n1 B) by reflexivity. cbn [bind]. rewrite softplus_const.
  rewrite (linear_zero n3 n2 B) by reflexivity. cbn [bind]. rewrite softplus_const.
  destruct (Sequential_forward tr rest _ g) as [[[z rest'] g']|e]; reflexivity.
Qed.

Lemma dropout_const (n : nat) (v : R) (g : Generator) :
  dropout (1 / 2) {| shape := [1; n]; data := tab n (fun _ => v) |} g
  = ({| shape := [1; n];
        data := tab n (fun i => if Rlt_dec (draw_uniform g i) (1 / 2)
                                then (2 * v)%R else 0%R) |},
     advance n g).
Proof.
  unfold dropout. cbn [shape data]. rewrite map2_seq, tab_length.
  f_equal. f_equal. apply tab_ext. intros i Hi. rewrite nth_tab by exact Hi.
  replace (1 - 1 / 2)%R with (1 / 2)%R by lra.
  destruct (Rlt_dec (draw_uniform g i) (1 / 2)); [field | reflexivity].
Qed.

Lemma sumf_2 (f : nat -> R) : sumf 2 f = (f 0%nat + f 1%nat)%R.
Proof. unfold sumf. cbn [tab seq map fold_right]. lra. Qed.

(** The last linear layer of [masked_KimNet]: the first logit is the sum of
    the entries that the dropout kept, the second is zero. *)
Lemma linear_first_row (n : nat) (d : nat -> R) :
  linear (first_row_ones n) (full [2] 0) {| shape := [1; n]; data := tab n d |}
  = Ok {| shape := [1; 2]; data := [sumf n d; 0%R] |}.
Proof.
  unfold linear. cbn [first_row_ones shape last removelast app numel fold_right].
  rewrite Nat.eqb_refl. cbn [Nat.mul Nat.add]. rewrite mk2_one.
  cbn [tab seq map]. f_equal. f_equal.
  unfold at1. cbn [full data]. rewrite !nth_tab_zero. f_equal; [|f_equal].
  - rewrite Rplus_0_l. apply sumf_ext. intros i Hi. unfold at2. cbn [first_row_ones data Nat.mul Nat.add].
    rewrite !nth_tab by lia.
    destruct (Nat.ltb_spec i n); [lra | lia].
  - rewrite Rplus_0_l. apply sumf_zero. intros i Hi. unfold at2. cbn [first_row_ones data].
    rewrite (@nth_tab R (2 * n) _ 0%R (1 * n + i)) by lia.
    destruct (Nat.ltb_spec (1 * n + i) n); [lia | lra].
Qed.

Lemma softmax_pair (a b : R) :
  softmax 1 {| shape := [1; 2]; data := [a; b] |}
  = Ok {| shape := [1; 2];
          data := [ (exp a / (exp a + exp b))%R; (exp b / (exp a + exp b))%R ] |}.
Proof.
  unfold softmax.
  cbn [shape length Nat.leb firstn skipn nth numel fold_right Nat.mul Nat.add].
  unfold mk3. cbn [tab seq map concat app]. rewrite !sumf_2.
  unfold at3. cbn [data Nat.mul Nat.add nth]. reflexivity.
Qed.

Lemma softplus1_0_pos : (0 < softplus1 0)%R.
Proof.
  unfold softplus1, softplus_threshold.
  destruct (Rlt_dec 20 0) as [H|_]; [lra|].
  rewrite exp_0, <- ln_1. apply ln_increasing; lra.
Qed.

Lemma keep_sum (n : nat) (v : R) :
  sumf n (fun i => if Rlt_dec (draw_uniform (keep_then_drop n) i) (1 / 2)
                   then v else 0%R)
  = sumf n (fun _ => v).
Proof.
  apply sumf_ext. intros i Hi. unfold draw_uniform. cbn [keep_then_drop uniform01 offset].
  destruct (Nat.ltb_spec (0 + i) n); [|lia].
  destruct (Rlt_dec 0 (1 / 2)); [reflexivity | lra].
Qed.

Lemma drop_sum (n : nat) (v : R) :
  sumf n (fun i => if Rlt_dec (draw_uniform (advance n (keep_then_drop n)) i) (1 / 2)
                   then v else 0%R)
  = 0%R.
Proof.
  apply sumf_zero. intros i Hi. unfold draw_uniform.
  cbn [advance keep_then_drop uniform01 offset].
  destruct (Nat.ltb_spec (0 + n + i) n); [lia|].
  destruct (Rlt_dec (3 / 4) (1 / 2)); [lra | reflexivity].
Qed.

(** One pass of [masked_KimNet] in training mode: the first logit is the sum
    of what the dropout mask kept. *)
Lemma masked_KimNet_pass (g : Generator) :
  Sequential_forward true (KimNet.model masked_KimNet) one_window g
  = let s := sumf 400 (fun i => if Rlt_dec (draw_uniform g i) (1 / 2)
                                then (2 * softplus1 0)%R else 0%R) in
    Ok ({| shape := [1; 2];
           data := [ (exp s / (exp s + exp 0))%R; (exp 0 / (exp s + exp 0))%R ] |},
        KimNet.model masked_KimNet, advance 400 g).
Proof.
  unfold masked_KimNet. cbn [KimNet.model].
  rewrite (zero_prefix true 1 600 500 400 1) by reflexivity.
  rewrite mk2_one. cbn [Sequential_forward Layer_forward].
  rewrite dropout_const. cbn [bind]. rewrite linear_first_row. cbn [bind].
  rewrite softmax_pair. reflexivity.
Qed.

Lemma masked_KimNet_view : view_rows (1 * 1) one_window = Ok one_window.
Proof. reflexivity. Qed.

Lemma half_lt_softmax (s : R) : (0 < s)%R -> (1 / 2 < exp s / (exp s + exp 0))%R.
Proof.
  intros Hs. rewrite exp_0.
  assert (1 < exp s)%R by (rewrite <- exp_0; now apply exp_increasing).
  apply (Rmult_lt_reg_r (exp s + 1)); [lra|].
  replace (exp s / (exp s + 1) * (exp s + 1))%R with (exp s) by (field; lra). lra.
Qed.

(** C4, as stated, fails: in training mode [KimNet] draws one dropout mask
    for the forward strand and another for the reverse strand, and the same
    tensor given twice does not give the output of the forward strand alone. *)
Lemma KimNet_training_same_strand_differs :
  output (KimNet.forward masked_KimNet (keep_then_drop 400) one_window (Some one_window))
  <> output (KimNet.forward masked_KimNet (keep_then_drop 400) one_window None).
Proof.
  unfold KimNet.forward.
  change (KimNet.bins masked_KimNet * KimNet.marks masked_KimNet) with (1 * 1).
  change (KimNet.training masked_KimNet) with true.
  rewrite masked_KimNet_view. cbn [bind].
  rewrite masked_KimNet_pass. cbn zeta. cbn [bind].
  change (KimNet.bins (KimNet.with_model masked_KimNet (KimNet.model masked_KimNet))
          * KimNet.marks (KimNet.with_model masked_KimNet (KimNet.model masked_KimNet)))
    with (1 * 1).
  change (KimNet.training (KimNet.with_model masked_KimNet (KimNet.model masked_KimNet)))
    with true.
  change (KimNet.model (KimNet.with_model masked_KimNet (KimNet.model masked_KimNet)))
    with (KimNet.model masked_KimNet).
  rewrite masked_KimNet_view. cbn [bind].
  rewrite masked_KimNet_pass. cbn zeta. cbn [bind].
  rewrite torch_add_same_shape by reflexivity. cbn [bind output].
  rewrite keep_sum, drop_sum.
  unfold torch_log, torch_div. cbn [shape data map map2].
  intros H. inversion H as [[H0 H1]]. clear H H1.
  assert (Hs : (0 < sumf 400 (fun _ => (2 * softplus1 0)%R))%R).
  { apply sumf_pos; [lia|]. intros. pose proof softplus1_0_pos. lra. }
  pose proof (half_lt_softmax _ Hs) as Hp.
  set (p := (exp (sumf 400 (fun _ => (2 * softplus1 0)%R))
             / (exp (sumf 400 (fun _ => (2 * softplus1 0)%R)) + exp 0))%R) in *.
  assert (Hq : (exp 0 / (exp 0 + exp 0) = 1 / 2)%R) by (rewrite exp_0; lra).
  rewrite Hq in H0.
  apply ln_inv in H0; lra.
Qed.

(** * Further properties of the code *)

(** ** Which inputs ConvNet accepts *)

Lemma bind_Ok_id (A : Type) (r : result A) : (do a <- r; Ok a) = r.
Proof. now destruct r. Qed.

Lemma Conv1d_arch_shape_inv (tr : bool) (cin cout k p B C L : nat) (s' : list nat) :
  Layer_shape tr (Conv1d_arch cin cout k p) [B; C; L] = Ok s' ->
  C = cin /\ k <= L + 2 * p /\ s' = [B; cout; L + 2 * p - k + 1].
Proof.
  unfold Conv1d_arch, Layer_shape, blank, shape.
  destruct (Nat.eqb_spec C cin) as [->|]; simpl negb; cbv iota; [|discriminate].
  destruct (Nat.ltb_spec (L + 2 * p) k) as [Hlt|Hle]; [discriminate|].
  intros Hs. inversion Hs. auto.
Qed.

Lemma BatchNorm1d_arch_shape_inv (tr : bool) (n B C L : nat) (s' : list nat) :
  Layer_shape tr (BatchNorm1d_arch n) [B; C; L] = Ok s' ->
  C = n /\ s' = [B; C; L] /\ (tr = true -> B * L <> 1).
Proof.
  unfold BatchNorm1d_arch, Layer_shape, blank, shape.
  destruct (Nat.eqb_spec C n) as [->|]; simpl negb; cbv iota; [|discriminate].
  destruct (Nat.eqb_spec (B * L) 1) as [E|E]; destruct tr; simpl; try discriminate;
    intros Hs; inversion Hs; repeat split; auto; discriminate.
Qed.

Lemma MaxPool1d_shape_inv (tr : bool) (B C L : nat) (s' : list nat) :
  Layer_shape tr (MaxPool1d 2 2) [B; C; L] = Ok s' -> 2 <= L /\ s' = [B; C; L / 2].
Proof.
  intros H. destruct (Nat.lt_ge_cases L 2) as [Hl|Hl].
  - unfold Layer_shape in H. simpl orb in H. cbv iota in H.
    destruct (Nat.ltb_spec L 2); [discriminate | lia].
  - rewrite MaxPool1d_shape in H by exact Hl. inversion H. auto.
Qed.

(** The shapes through the four convolutional blocks: going through them
    takes the right number of channels and a length of at least 4. *)
Lemma ConvNet_blocks_shape_inv (tr leaky : bool) (marks B C L : nat) (s1 s2 s3 s4 : list nat) :
  Sequential_shape tr
    [ Conv1d_arch marks 32 7 3; BatchNorm1d_arch 32; ConvNet.activation leaky ]
    [B; C; L] = Ok s1 ->
  Sequential_shape tr
    [ Conv1d_arch 32 32 3 1; BatchNorm1d_arch 32; ConvNet.activation leaky; MaxPool1d 2 2 ]
    s1 = Ok s2 ->
  Sequential_shape tr
    [ Conv1d_arch 32 64 3 1; BatchNorm1d_arch 64; ConvNet.activation leaky ]
    s2 = Ok s3 ->
  Sequential_shape tr
    [ Conv1d_arch 64 64 3 1; BatchNorm1d_arch 64; ConvNet.activation leaky; MaxPool1d 2 2 ]
    s3 = Ok s4 ->
  C = marks /\ 4 <= L.
Proof.
  cbn [Sequential_shape]. intros H1 H2 H3 H4.
  destruct (Layer_shape tr (Conv1d_arch marks 32 7 3) [B; C; L]) as [t|] eqn:E;
    [|discriminate]. apply Conv1d_arch_shape_inv in E. destruct E as (-> & Hk & ->).
  cbn [bind] in H1. replace (L + 2 * 3 - 7 + 1) with L in H1 by lia.
  destruct (Layer_shape tr (BatchNorm1d_arch 32) [B; 32; L]) as [t|] eqn:E;
    [|discriminate]. apply BatchNorm1d_arch_shape_inv in E. destruct E as (_ & -> & _).
  cbn [bind] in H1. rewrite activation_shape in H1. cbn [bind] in H1.
  assert (Hs1 : [B; 32; L] = s1) by congruence. subst s1. clear H1.
  destruct (Layer_shape tr (Conv1d_arch 32 32 3 1) [B; 32; L]) as [t|] eqn:E;
    [|discriminate]. apply Conv1d_arch_shape_inv in E. destruct E as (_ & Hk2 & ->).
  cbn [bind] in H2. replace (L + 2 * 1 - 3 + 1) with L in H2 by lia.
  destruct (Layer_shape tr (BatchNorm1d_arch 32) [B; 32; L]) as [t|] eqn:E;
    [|discriminate]. apply BatchNorm1d_arch_shape_inv in E. destruct E as (_ & -> & _).
  cbn [bind] in H2. rewrite activation_shape in H2. cbn [bind] in H2.
  rewrite bind_Ok_id in H2. apply MaxPool1d_shape_inv in H2. destruct H2 as (HL2 & ->).
  destruct (Layer_shape tr (Conv1d_arch 32 64 3 1) [B; 32; L / 2]) as [t|] eqn:E;
    [|discriminate]. apply Conv1d_arch_shape_inv in E. destruct E as (_ & Hk3 & ->).
  cbn [bind] in H3. replace (L / 2 + 2 * 1 - 3 + 1) with (L / 2) in H3 by lia.
  destruct (Layer_shape tr (BatchNorm1d_arch 64) [B; 64; L / 2]) as [t|] eqn:E;
    [|discriminate]. apply BatchNorm1d_arch_shape_inv in E. destruct E as (_ & -> & _).
  cbn [bind] in H3. rewrite activation_shape in H3. cbn [bind] in H3.
  assert (Hs3 : [B; 64; L / 2] = s3) by congruence. subst s3. clear H3.
  destruct (Layer_shape tr (Conv1d_arch 64 64 3 1) [B; 64; L / 2]) as [t|] eqn:E;
    [|discriminate]. apply Conv1d_arch_shape_inv in E. destruct E as (_ & Hk4 & ->).
  cbn [bind] in H4. replace (L / 2 + 2 * 1 - 3 + 1) with (L / 2) in H4 by lia.
  destruct (Layer_shape tr (BatchNorm1d_arch 64) [B; 64; L / 2]) as [t|] eqn:E;
    [|discriminate]. apply BatchNorm1d_arch_shape_inv in E. destruct E as (_ & -> & _).
  cbn [bind] in H4. rewrite activation_shape in H4. cbn [bind] in H4.
  rewrite bind_Ok_id in H4. apply MaxPool1d_shape_inv in H4. destruct H4 as (HL4 & _).
  split; [reflexivity|].
  destruct (Nat.lt_ge_cases L 4) as [Hlt|]; [|assumption].
  assert (L / 2 < 2) by (apply Nat.Div0.div_lt_upper_bound; lia). lia.
Qed.

Lemma block_shape (tr : bool) (ms ms' arch : list Layer) (x y : Tensor) (g g' : Generator) :
  map erase ms = arch -> Sequential_forward tr ms x g = Ok (y, ms', g') ->
  Sequential_shape tr arch (shape x) = Ok (shape y).
Proof.
  intros Ha E. rewrite <- Ha, Sequential_shape_erase.
  rewrite <- (@Sequential_forward_shape tr ms x g), E. reflexivity.
Qed.

Lemma ConvNet_forward_prop_accepts (marks nb_cls B C L : nat) (leaky : bool)
    (self self1 : ConvNet.t) (x o : Tensor) (g g1 : Generator) :
  ConvNet_inv marks nb_cls leaky self -> shape x = [B; C; L] ->
  ConvNet.forward_prop self x g = Ok (o, self1, g1) ->
  C = marks /\ 4 <= L.
Proof.
  intros [I1 I2 I3 I4 I5] Hx H. unfold ConvNet.forward_prop in H.
  set (tr := ConvNet.training self) in *.
  destruct (Sequential_forward tr (ConvNet.layer_one self) x g)
    as [[[o1 m1] h1]|e] eqn:E1; simpl in H; [|discriminate].
  destruct (Sequential_forward tr (ConvNet.layer_two self) o1 h1)
    as [[[o2 m2] h2]|e] eqn:E2; simpl in H; [|discriminate].
  destruct (Sequential_forward tr (ConvNet.layer_three self) o2 h2)
    as [[[o3 m3] h3]|e] eqn:E3; simpl in H; [|discriminate].
  destruct (Sequential_forward tr (ConvNet.layer_four self) o3 h3)
    as [[[o4 m4] h4]|e] eqn:E4; simpl in H; [|discriminate].
  apply (block_shape _ _ _ _ _ _ _ _ I1) in E1. rewrite Hx in E1.
  apply (block_shape _ _ _ _ _ _ _ _ I2) in E2.
  apply (block_shape _ _ _ _ _ _ _ _ I3) in E3.
  apply (block_shape _ _ _ _ _ _ _ _ I4) in E4.
  exact (ConvNet_blocks_shape_inv tr leaky marks B C L _ _ _ _ E1 E2 E3 E4).
Qed.

(** X1. A [ConvNet] takes a non-empty batch [(B, C, L)] exactly when [C] is
    its number of marks and the length [L] is at least 4 (two halving pools
    must leave something): otherwise the call raises. *)
Theorem ConvNet_forward_accepts_iff (marks nb_cls B C L : nat) (leaky : bool)
    (self : ConvNet.t) (g : Generator) (x : Tensor) :
  ConvNet_inv marks nb_cls leaky self -> 2 <= nb_cls -> 1 <= B ->
  shape x = [B; C; L] ->
  is_ok (ConvNet.forward self g x None) = true <-> (C = marks /\ 4 <= L).
Proof.
  intros Hinv Hc HB Hx. split.
  - unfold ConvNet.forward.
    destruct (ConvNet.forward_prop self x g) as [[[o self1] g1]|e] eqn:E; simpl;
      [|discriminate].
    intros _. exact (ConvNet_forward_prop_accepts _ _ _ _ _ _ _ _ _ _ _ _ Hinv Hx E).
  - intros [-> HL].
    destruct (ConvNet_forward_general marks nb_cls B L leaky self g x None)
      as (y & self' & g' & E & _); auto; [discriminate|].
    now rewrite E.
Qed.

Lemma ConvNet_forward_accepts_iff_witness :
  is_ok (ConvNet.forward ConvNet_3_5 zero_generator (full [4; 3; 128] 1) None) = true
  <-> (3 = 3 /\ 4 <= 128).
Proof.
  apply (ConvNet_forward_accepts_iff 3 5 4 3 128 false ConvNet_3_5 zero_generator).
  - exact ConvNet_3_5_inv.
  - lia.
  - lia.
  - reflexivity.
Defined.

Lemma shape_of_raise (A B : Type) (r : result (Tensor * A * B)) (e : Error) :
  shape_of r = Raise e -> r = Raise e.
Proof. destruct r as [[[y a] b]|e']; simpl; [discriminate | congruence]. Qed.

Lemma Conv1d_arch_rejects (tr : bool) (cin cout k p : nat) (s : list nat) :
  (forall B L, s <> [B; cin; L]) ->
  Layer_shape tr (Conv1d_arch cin cout k p) s = Raise RuntimeError.
Proof.
  intros H. unfold Conv1d_arch, Layer_shape, blank, shape.
  destruct s as [|B [|C [|L [|? ?]]]]; try reflexivity.
  destruct (Nat.eqb_spec C cin) as [->|]; [|reflexivity].
  now destruct (H B L).
Qed.

(** X2. A [ConvNet] given anything but a three-dimensional batch with its
    number of marks as the channel dimension raises a [RuntimeError], in the
    first convolution and whatever the reverse strand is. *)
Theorem ConvNet_forward_wrong_channels (marks nb_cls : nat) (leaky : bool)
    (self : ConvNet.t) (g : Generator) (x : Tensor) (r : option Tensor) :
  ConvNet_inv marks nb_cls leaky self ->
  (forall B L, shape x <> [B; marks; L]) ->
  ConvNet.forward self g x r = Raise RuntimeError.
Proof.
  intros Hinv Hx. unfold ConvNet.forward, ConvNet.forward_prop.
  assert (E : Sequential_forward (ConvNet.training self) (ConvNet.layer_one self) x g
              = Raise RuntimeError).
  { apply shape_of_raise. rewrite Sequential_forward_shape, <- Sequential_shape_erase.
    rewrite (inv_one Hinv). cbn [Sequential_shape].
    now rewrite Conv1d_arch_rejects. }
  rewrite E. reflexivity.
Qed.

Lemma ConvNet_forward_wrong_channels_witness :
  ConvNet.forward ConvNet_3_5 zero_generator (full [4; 5; 128] 1) None = Raise RuntimeError.
Proof.
  apply (ConvNet_forward_wrong_channels 3 5 false ConvNet_3_5).
  - exact ConvNet_3_5_inv.
  - intros B L H. discriminate H.
Defined.

(** ** Log-probabilities *)

Lemma sumf_ge_term (n : nat) (f : nat -> R) (c : nat) :
  (forall i, i < n -> (0 <= f i)%R) -> c < n -> (f c <= sumf n f)%R.
Proof.
  induction n as [|n IH]; intros Hp Hc; [lia|].
  rewrite sumf_S.
  assert (0 <= sumf n f)%R.
  { clear IH Hc. induction n as [|m IHm]; [unfold sumf; simpl; lra|].
    rewrite sumf_S. specialize (Hp m ltac:(lia)) as Hm.
    assert (0 <= sumf m f)%R by (apply IHm; intros; apply Hp; lia). lra. }
  destruct (Nat.eq_dec c n) as [->|Hne].
  - lra.
  - specialize (Hp n ltac:(lia)) as Hn.
    assert (f c <= sumf n f)%R by (apply IH; [intros; apply Hp; lia | lia]). lra.
Qed.

Lemma distribution_le_1 (B C : nat) (d : list R) (b c : nat) :
  distribution B C d -> b < B -> c < C -> (0 < nth (b * C + c) d 0 <= 1)%R.
Proof.
  intros [_ H] Hb Hc. destruct (H b Hb) as [P S]. split; [now apply P|].
  rewrite <- S. apply (sumf_ge_term C (fun c => nth (b * C + c) d 0%R)); auto.
  intros i Hi. apply Rlt_le. now apply P.
Qed.

(** The entries of the logarithm of a distribution are not positive. *)
Lemma log_distribution_nonpos (B C : nat) (p : Tensor) (b c : nat) :
  distribution B C (data p) -> b < B -> c < C -> (at2 C (torch_log p) b c <= 0)%R.
Proof.
  intros Hd Hb Hc. destruct (distribution_le_1 B C (data p) b c Hd Hb Hc) as [H0 H1].
  unfold at2, torch_log. cbn [data].
  assert (b * C + c < length (data p)) by (destruct Hd as [-> _]; nia).
  rewrite (@nth_map_in _ _ ln (data p) 0%R 0%R) by assumption.
  set (v := nth (b * C + c) (data p) 0%R) in *.
  destruct H1 as [H1|H1].
  - pose proof (ln_increasing v 1 H0 H1) as Hl. rewrite ln_1 in Hl. lra.
  - rewrite H1, ln_1. lra.
Qed.

(** [KimNet.forward] returns the logarithm of a distribution over the classes. *)
Lemma KimNet_forward_strong (bins marks nb_cls B : nat) (self : KimNet.t) (g : Generator)
    (x : Tensor) (r : option Tensor) :
  0 < bins * marks -> 0 < nb_cls -> KimNet_inv bins marks nb_cls self ->
  numel (shape x) = B * (bins * marks) ->
  (forall xr, r = Some xr -> numel (shape xr) = B * (bins * marks)) ->
  exists p self' g',
    KimNet.forward self g x r = Ok (torch_log p, self', g')
    /\ shape p = [B; nb_cls]
    /\ distribution B nb_cls (data p).
Proof.
  intros Hk Hc Hinv Hx Hr. pose proof Hinv as (Hb & Hm & Ha).
  unfold KimNet.forward. rewrite Hb, Hm, (view_rows_ok _ _ _ Hk Hx). simpl.
  destruct (KimNet_model_ok bins marks nb_cls B self g
              {| shape := [B; bins * marks]; data := data x |} Hinv Hc eq_refl)
    as (o & ms & g1 & E & Ho & Hd & He & _).
  rewrite E. simpl.
  pose proof (KimNet_inv_with_model _ _ _ _ _ Hinv He) as Hinv1.
  destruct r as [xr|].
  - rewrite Hb, Hm, (view_rows_ok _ _ _ Hk (Hr xr eq_refl)). simpl.
    destruct (KimNet_model_ok bins marks nb_cls B (KimNet.with_model self ms) g1
                {| shape := [B; bins * marks]; data := data xr |} Hinv1 Hc eq_refl)
      as (o2 & ms2 & g2 & E2 & Ho2 & Hd2 & He2 & _).
    simpl in E2. rewrite E2. simpl.
    rewrite torch_add_same_shape by congruence. simpl.
    eexists _, _, _. split; [reflexivity|]. split; [exact Ho|].
    now apply distribution_average.
  - exists o. eexists _, _. split; [reflexivity|]. auto.
Qed.

(** X4. Every entry of the output of [KimNet.forward] is a log-probability:
    it is not positive, and its exponential is at most 1. *)
Theorem KimNet_forward_nonpositive (bins marks nb_cls B : nat) (self : KimNet.t)
    (g : Generator) (x : Tensor) (r : option Tensor) :
  0 < bins * marks -> 0 < nb_cls -> KimNet_inv bins marks nb_cls self ->
  numel (shape x) = B * (bins * marks) ->
  (forall xr, r = Some xr -> numel (shape xr) = B * (bins * marks)) ->
  exists y self' g',
    KimNet.forward self g x r = Ok (y, self', g')
    /\ forall b c, b < B -> c < nb_cls ->
         (at2 nb_cls y b c <= 0)%R /\ (exp (at2 nb_cls y b c) <= 1)%R.
Proof.
  intros Hk Hc Hinv Hx Hr.
  destruct (KimNet_forward_strong bins marks nb_cls B self g x r Hk Hc Hinv Hx Hr)
    as (p & self' & g' & E & _ & Hd).
  exists (torch_log p), self', g'. split; [exact E|]. intros b c Hb Hcc.
  pose proof (log_distribution_nonpos B nb_cls p b c Hd Hb Hcc) as Hn.
  split; [exact Hn|]. rewrite <- exp_0.
  destruct Hn as [Hn|Hn]; [apply Rlt_le; now apply exp_increasing | rewrite Hn; lra].
Qed.

Lemma KimNet_forward_nonpositive_witness :
  exists y self' g',
    KimNet.forward KimNet_20_3_5 zero_generator (full [4; 20; 3] 1) None = Ok (y, self', g')
    /\ forall b c, b < 4 -> c < 5 ->
         (at2 5 y b c <= 0)%R /\ (exp (at2 5 y b c) <= 1)%R.
Proof.
  apply (KimNet_forward_nonpositive 20 3 5 4).
  - lia.
  - lia.
  - apply (KimNet_init_inv 20 3 5).
  - reflexivity.
  - intros xr H. discriminate H.
Defined.

(** X3. On a batch of two samples or more, of any length from 4 on, in either
    mode and with or without a reverse strand of the same shape,
    [ConvNet.forward] returns shape [(B, nb_cls)]; the exponentials of each
    row sum to 1 and no entry is positive. *)
Theorem ConvNet_forward_batch (marks nb_cls B L : nat) (leaky : bool) (self : ConvNet.t)
    (g : Generator) (x : Tensor) (r : option Tensor) :
  ConvNet_inv marks nb_cls leaky self -> 2 <= nb_cls -> 2 <= B -> 4 <= L ->
  shape x = [B; marks; L] ->
  (forall xr, r = Some xr -> shape xr = shape x) ->
  exists y self' g',
    ConvNet.forward self g x r = Ok (y, self', g')
    /\ shape y = [B; nb_cls]
    /\ (forall b, b < B -> sumf nb_cls (fun c => exp (at2 nb_cls y b c)) = 1%R)
    /\ (forall b c, b < B -> c < nb_cls -> (at2 nb_cls y b c <= 0)%R).
Proof.
  intros Hinv Hc HB HL Hx Hr. unfold ConvNet.forward.
  destruct (ConvNet_forward_prop_ok marks nb_cls B L leaky self x g Hinv) as
    (o & self1 & g1 & E & Ho & Hd & Hinv1 & _); auto; try lia.
  rewrite E. cbn [bind].
  assert (Hsq : forall d, shape (torch_squeeze {| shape := [B; nb_cls; 1]; data := d |})
                          = [B; nb_cls]).
  { intros d. rewrite squeeze_shape by exact Hc.
    destruct (Nat.eqb_spec B 1); [lia | reflexivity]. }
  destruct r as [xr|].
  - specialize (Hr xr eq_refl). rewrite Hx in Hr.
    destruct (ConvNet_forward_prop_ok marks nb_cls B L leaky self1 xr g1 Hinv1) as
      (o2 & self2 & g2 & E2 & Ho2 & Hd2 & Hinv2 & _); auto; try lia.
    rewrite E2. cbn [bind]. rewrite torch_add_same_shape by congruence. cbn [bind].
    pose proof (distribution_average Hd Hd2) as Ha.
    eexists _, _, _. split; [reflexivity|]. split; [|split].
    + unfold torch_log, torch_div. cbn [shape data]. rewrite Ho. apply Hsq.
    + apply (@distribution_log B nb_cls (shape o)). exact Ha.
    + intros b c Hb Hcc.
      exact (log_distribution_nonpos B nb_cls
               (torch_div {| shape := shape o; data := map2 Rplus (data o) (data o2) |} 2)
               b c Ha Hb Hcc).
  - eexists _, _, _. split; [reflexivity|]. split; [|split].
    + unfold torch_log. cbn [shape data]. rewrite Ho. apply Hsq.
    + destruct o as [so d]. now apply (@distribution_log B nb_cls so).
    + intros b c Hb Hcc. exact (log_distribution_nonpos B nb_cls o b c Hd Hb Hcc).
Qed.

Lemma ConvNet_forward_batch_witness :
  exists y self' g',
    ConvNet.forward ConvNet_3_5 zero_generator (full [4; 3; 130] 1)
      (Some (full [4; 3; 130] 2)) = Ok (y, self', g')
    /\ shape y = [4; 5]
    /\ (forall b, b < 4 -> sumf 5 (fun c => exp (at2 5 y b c)) = 1%R)
    /\ (forall b c, b < 4 -> c < 5 -> (at2 5 y b c <= 0)%R).
Proof.
  apply (ConvNet_forward_batch 3 5 4 130 false ConvNet_3_5).
  - exact ConvNet_3_5_inv.
  - lia.
  - lia.
  - lia.
  - reflexivity.
  - intros xr H. inversion H. reflexivity.
Defined.

(** ** The output does not depend on the state a pass leaves *)

Lemma layer_sim_refl (tr : bool) (m : Layer) : layer_sim tr m m.
Proof. destruct m; simpl; auto. Qed.

Lemma Layer_forward_sim_self (tr : bool) (m m1 : Layer) (x y : Tensor) (g g1 : Generator) :
  Layer_forward tr m x g = Ok (y, m1, g1) -> layer_sim tr m m1.
Proof.
  destruct m; simpl; unfold bind, batch_norm, dropout; intros H;
    repeat (break_hyp; simpl in *; try discriminate);
    repeat match goal with
           | H : Ok _ = Ok _ |- _ => inversion H; subst; clear H
           end;
    simpl; auto; repeat split; auto; discriminate.
Qed.

(** Two layers that compute the same function give the same output, on any
    generators, when the layer draws nothing. *)
Lemma Layer_forward_sim (tr : bool) (m m' : Layer) (x : Tensor) (g g2 : Generator) :
  layer_sim tr m m' -> tr && is_dropout m = false ->
  match Layer_forward tr m x g, Layer_forward tr m' x g2 with
  | Ok (y, m1, _), Ok (y', m1', _) => y = y' /\ layer_sim tr m1 m1'
  | Raise e, Raise e' => e = e'
  | _, _ => False
  end.
Proof.
  intros Hs Hd.
  destruct m; destruct m'; simpl in Hs; try discriminate Hs;
    try match type of Hs with _ = _ => inversion Hs; subst; clear Hs end.
  - simpl. destruct (linear weight0 bias0 x); simpl; auto.
  - simpl. auto.
  - simpl in *. rewrite andb_true_r in Hd. subst tr. simpl. auto.
  - simpl. destruct (softmax dim0 x); simpl; auto.
  - simpl. destruct (conv1d padding0 weight0 bias0 x); simpl; auto.
  - destruct Hs as (<- & <- & Hs). simpl. unfold batch_norm.
    destruct (shape weight) as [|nf [|? ?]]; simpl; auto.
    destruct (shape x) as [|B [|C [|L [|? ?]]]]; simpl; auto.
    destruct (negb (C =? nf)); simpl; auto.
    destruct tr.
    + destruct (B * L =? 1); simpl; auto. repeat split; auto; discriminate.
    + destruct (Hs eq_refl) as (<- & <- & <-). simpl. repeat split; auto.
  - simpl. auto.
  - simpl. auto.
  - simpl. destruct (max_pool1d kernel_size0 stride0 x); simpl; auto.
  - simpl. destruct (adaptive_avg_pool1d output_size0 x); simpl; auto.
Qed.

Lemma Sequential_forward_sim_self (tr : bool) (ms ms1 : list Layer) (x y : Tensor)
    (g g1 : Generator) :
  Sequential_forward tr ms x g = Ok (y, ms1, g1) -> Forall2 (layer_sim tr) ms ms1.
Proof.
  revert ms1 x y g g1. induction ms as [|m ms IH]; intros ms1 x y g g1; simpl.
  - intros H. inversion H. constructor.
  - destruct (Layer_forward tr m x g) as [[[y1 m1] h1]|e] eqn:E; simpl; [|discriminate].
    destruct (Sequential_forward tr ms y1 h1) as [[[z ms2] h2]|e] eqn:E'; simpl;
      [|discriminate].
    intros H. inversion H; subst. constructor.
    + exact (Layer_forward_sim_self _ _ _ _ _ _ _ E).
    + exact (IH _ _ _ _ _ E').
Qed.

Lemma Sequential_forward_sim (tr : bool) (ms ms' : list Layer) :
  Forall2 (layer_sim tr) ms ms' -> deterministic tr ms = true ->
  forall (x : Tensor) (g g2 : Generator),
  match Sequential_forward tr ms x g, Sequential_forward tr ms' x g2 with
  | Ok (y, ms1, _), Ok (y', ms1', _) => y = y' /\ Forall2 (layer_sim tr) ms1 ms1'
  | Raise e, Raise e' => e = e'
  | _, _ => False
  end.
Proof.
  induction 1 as [|m m' ms ms' Hm Hms IH]; intros Hd x g g2.
  - simpl. split; [reflexivity | constructor].
  - apply andb_prop in Hd. destruct Hd as [Hd1 Hd2]. apply negb_true_iff in Hd1.
    pose proof (Layer_forward_sim tr m m' x g g2 Hm Hd1) as HL. simpl.
    destruct (Layer_forward tr m x g) as [[[y1 m1] h1]|e];
      destruct (Layer_forward tr m' x g2) as [[[y1' m1'] h1']|e']; simpl;
      try contradiction; [|exact HL].
    destruct HL as [<- Hm1]. specialize (IH Hd2 y1 h1 h1').
    destruct (Sequential_forward tr ms y1 h1) as [[[z ms1] h2]|e];
      destruct (Sequential_forward tr ms' y1 h1') as [[[z' ms1'] h2']|e']; simpl;
      try contradiction; [|exact IH].
    destruct IH as [<- Hms1]. split; [reflexivity|]. now constructor.
Qed.

Lemma ConvNet_forward_prop_sim_self (self self1 : ConvNet.t) (x y : Tensor)
    (g g1 : Generator) :
  ConvNet.forward_prop self x g = Ok (y, self1, g1) -> ConvNet_sim self self1.
Proof.
  unfold ConvNet.forward_prop. set (tr := ConvNet.training self). intros H.
  destruct (Sequential_forward tr (ConvNet.layer_one self) x g)
    as [[[o1 m1] h1]|e] eqn:E1; simpl in H; [|discriminate].
  destruct (Sequential_forward tr (ConvNet.layer_two self) o1 h1)
    as [[[o2 m2] h2]|e] eqn:E2; simpl in H; [|discriminate].
  destruct (Sequential_forward tr (ConvNet.layer_three self) o2 h2)
    as [[[o3 m3] h3]|e] eqn:E3; simpl in H; [|discriminate].
  destruct (Sequential_forward tr (ConvNet.layer_four self) o3 h3)
    as [[[o4 m4] h4]|e] eqn:E4; simpl in H; [|discriminate].
  destruct (Sequential_forward tr (ConvNet.final_layer self) o4 h4)
    as [[[o5 m5] h5]|e] eqn:E5; simpl in H; [|discriminate].
  inversion H; subst. constructor; simpl; fold tr;
    eauto using Sequential_forward_sim_self.
Qed.

(** The output of [_forward_prop] is the same from two states of a network
    that compute the same function, whatever the generators. *)
Lemma ConvNet_forward_prop_sim (marks nb_cls : nat) (leaky : bool) (self self' : ConvNet.t)
    (x : Tensor) (g g2 : Generator) :
  ConvNet_inv marks nb_cls leaky self -> ConvNet_sim self self' ->
  same_outcome (output (ConvNet.forward_prop self x g))
               (output (ConvNet.forward_prop self' x g2)).
Proof.
  intros Hinv [St S1 S2 S3 S4 S5].
  destruct (ConvNet_deterministic marks nb_cls leaky self (ConvNet.training self) Hinv)
    as (D1 & D2 & D3 & D4 & D5).
  unfold ConvNet.forward_prop. rewrite St. set (tr := ConvNet.training self) in *.
  pose proof (Sequential_forward_sim _ _ _ S1 D1 x g g2) as H1.
  destruct (Sequential_forward tr (ConvNet.layer_one self) x g) as [[[o1 m1] h1]|e];
    destruct (Sequential_forward tr (ConvNet.layer_one self') x g2)
      as [[[o1' m1'] h1']|e']; simpl; try contradiction; [|exact H1].
  destruct H1 as [<- _].
  pose proof (Sequential_forward_sim _ _ _ S2 D2 o1 h1 h1') as H2.
  destruct (Sequential_forward tr (ConvNet.layer_two self) o1 h1) as [[[o2 m2] h2]|e];
    destruct (Sequential_forward tr (ConvNet.layer_two self') o1 h1')
      as [[[o2' m2'] h2']|e']; simpl; try contradiction; [|exact H2].
  destruct H2 as [<- _].
  pose proof (Sequential_forward_sim _ _ _ S3 D3 o2 h2 h2') as H3.
  destruct (Sequential_forward tr (ConvNet.layer_three self) o2 h2) as [[[o3 m3] h3]|e];
    destruct (Sequential_forward tr (ConvNet.layer_three self') o2 h2')
      as [[[o3' m3'] h3']|e']; simpl; try contradiction; [|exact H3].
  destruct H3 as [<- _].
  pose proof (Sequential_forward_sim _ _ _ S4 D4 o3 h3 h3') as H4.
  destruct (Sequential_forward tr (ConvNet.layer_four self) o3 h3) as [[[o4 m4] h4]|e];
    destruct (Sequential_forward tr (ConvNet.layer_four self') o3 h3')
      as [[[o4' m4'] h4']|e']; simpl; try contradiction; [|exact H4].
  destruct H4 as [<- _].
  pose proof (Sequential_forward_sim _ _ _ S5 D5 o4 h4 h4') as H5.
  destruct (Sequential_forward tr (ConvNet.final_layer self) o4 h4) as [[[o5 m5] h5]|e];
    destruct (Sequential_forward tr (ConvNet.final_layer self') o4 h4')
      as [[[o5' m5'] h5']|e']; simpl; try contradiction; [|exact H5].
  destruct H5 as [<- _]. reflexivity.
Qed.

Lemma distribution_pos_flat (B C : nat) (d : list R) (i : nat) :
  distribution B C d -> i < B * C -> (0 < nth i d 0)%R.
Proof.
  intros [_ H] Hi.
  assert (HC : C <> 0) by (intros ->; lia).
  rewrite (Nat.div_mod_eq i C). replace (C * (i / C)) with (i / C * C) by lia.
  apply H.
  - apply Nat.Div0.div_lt_upper_bound. lia.
  - now apply Nat.mod_upper_bound.
Qed.

Lemma map2_Rplus_comm (l l' : list R) : map2 Rplus l l' = map2 Rplus l' l.
Proof.
  revert l'. induction l as [|a l IH]; intros [|b l']; simpl; auto.
  now rewrite IH, Rplus_comm.
Qed.

(** Entry [i] of the two-strand output against the single-strand outputs. *)
Lemma exp_log_average (B C : nat) (df dr : list R) (i : nat) :
  distribution B C df -> distribution B C dr -> i < B * C ->
  exp (nth i (map ln (map (fun v => (v / 2)%R) (map2 Rplus df dr))) 0%R)
  = ((exp (nth i (map ln df) 0) + exp (nth i (map ln dr) 0)) / 2)%R.
Proof.
  intros Hf Hr Hi.
  pose proof (distribution_pos_flat B C df i Hf Hi) as Pf.
  pose proof (distribution_pos_flat B C dr i Hr Hi) as Pr.
  destruct Hf as [Lf _], Hr as [Lr _].
  rewrite (@nth_map_in _ _ ln _ 0%R 0%R)
    by (rewrite length_map, map2_length; lia).
  rewrite (@nth_map_in _ _ (fun v => (v / 2)%R) _ 0%R 0%R) by (rewrite map2_length; lia).
  rewrite (@nth_map2 _ _ _ Rplus df dr 0%R 0%R 0%R) by lia.
  rewrite !(@nth_map_in _ _ ln _ 0%R 0%R) by lia.
  rewrite !exp_ln; lra.
Qed.

(** X5. With both strands, the probabilities that [ConvNet.forward] returns
    (the exponentials of its output) are the mean of the probabilities it
    returns for each strand alone, in either mode: the running statistics
    that the first pass updates do not reach the output of the second. *)
Theorem ConvNet_forward_mean_of_strands (marks nb_cls B L L' : nat) (leaky : bool)
    (self : ConvNet.t) (g : Generator) (f r : Tensor) :
  ConvNet_inv marks nb_cls leaky self -> 2 <= nb_cls -> 1 <= B -> 4 <= L -> 4 <= L' ->
  shape f = [B; marks; L] -> shape r = [B; marks; L'] ->
  exists y yf yr,
    output (ConvNet.forward self g f (Some r)) = Ok y
    /\ output (ConvNet.forward self g f None) = Ok yf
    /\ output (ConvNet.forward self g r None) = Ok yr
    /\ forall i, i < B * nb_cls ->
         exp (at1 y i) = ((exp (at1 yf i) + exp (at1 yr i)) / 2)%R.
Proof.
  intros Hinv Hc HB HL HL' Hf Hr. unfold ConvNet.forward.
  destruct (ConvNet_forward_prop_ok marks nb_cls B L leaky self f g Hinv) as
    (pf & s1 & g1 & Ef & Sf & Df & Hinv1 & _); auto; try lia.
  destruct (ConvNet_forward_prop_ok marks nb_cls B L' leaky s1 r g1 Hinv1) as
    (pr & s2 & g2 & Er & Sr & Dr & _); auto; try lia.
  pose proof (ConvNet_forward_prop_sim marks nb_cls leaky self s1 r g g1 Hinv
                (ConvNet_forward_prop_sim_self _ _ _ _ _ _ Ef)) as Hsim.
  rewrite Er in Hsim.
  destruct (ConvNet.forward_prop self r g) as [[[pr0 s3] g3]|e]; simpl in Hsim;
    [|contradiction].
  subst pr0. rewrite Ef. cbn [bind]. rewrite Er. cbn [bind].
  rewrite torch_add_same_shape by congruence. cbn [bind output].
  eexists _, _, _. repeat split.
  intros i Hi. unfold at1, torch_squeeze, torch_log, torch_div. cbn [data].
  now apply (exp_log_average B nb_cls).
Qed.

Lemma ConvNet_forward_mean_of_strands_witness :
  exists y yf yr,
    output (ConvNet.forward ConvNet_3_5 zero_generator (full [4; 3; 128] 1)
              (Some (full [4; 3; 64] 2))) = Ok y
    /\ output (ConvNet.forward ConvNet_3_5 zero_generator (full [4; 3; 128] 1) None) = Ok yf
    /\ output (ConvNet.forward ConvNet_3_5 zero_generator (full [4; 3; 64] 2) None) = Ok yr
    /\ forall i, i < 4 * 5 ->
         exp (at1 y i) = ((exp (at1 yf i) + exp (at1 yr i)) / 2)%R.
Proof.
  apply (ConvNet_forward_mean_of_strands 3 5 4 128 64 false ConvNet_3_5).
  - exact ConvNet_3_5_inv.
  - lia.
  - lia.
  - lia.
  - lia.
  - reflexivity.
  - reflexivity.
Defined.

(** X6. The two strands may be swapped: [ConvNet.forward] returns the same
    output for [(f, r)] and for [(r, f)], in either mode. *)
Theorem ConvNet_forward_strands_commute (marks nb_cls B L L' : nat) (leaky : bool)
    (self : ConvNet.t) (g : Generator) (f r : Tensor) :
  ConvNet_inv marks nb_cls leaky self -> 2 <= nb_cls -> 1 <= B -> 4 <= L -> 4 <= L' ->
  shape f = [B; marks; L] -> shape r = [B; marks; L'] ->
  output (ConvNet.forward self g f (Some r)) = output (ConvNet.forward self g r (Some f)).
Proof.
  intros Hinv Hc HB HL HL' Hf Hr. unfold ConvNet.forward.
  destruct (ConvNet_forward_prop_ok marks nb_cls B L leaky self f g Hinv) as
    (pf & s1 & g1 & Ef & Sf & _ & Hinv1 & _); auto; try lia.
  destruct (ConvNet_forward_prop_ok marks nb_cls B L' leaky self r g Hinv) as
    (pr & t1 & h1 & Er & Sr & _ & Hinvt & _); auto; try lia.
  pose proof (ConvNet_forward_prop_sim marks nb_cls leaky self s1 r g g1 Hinv
                (ConvNet_forward_prop_sim_self _ _ _ _ _ _ Ef)) as H1.
  pose proof (ConvNet_forward_prop_sim marks nb_cls leaky self t1 f g h1 Hinv
                (ConvNet_forward_prop_sim_self _ _ _ _ _ _ Er)) as H2.
  rewrite Er in H1. rewrite Ef in H2. rewrite Ef, Er. cbn [bind].
  destruct (ConvNet.forward_prop s1 r g1) as [[[pr' s2] g2]|e]; simpl in H1;
    [|contradiction].
  destruct (ConvNet.forward_prop t1 f h1) as [[[pf' t2] h2]|e]; simpl in H2;
    [|contradiction].
  subst pr' pf'. cbn [bind].
  rewrite !torch_add_same_shape by congruence. cbn [bind output].
  rewrite map2_Rplus_comm. now rewrite Sf, Sr.
Qed.

Lemma ConvNet_forward_strands_commute_witness :
  output (ConvNet.forward ConvNet_3_5 zero_generator (full [4; 3; 128] 1)
            (Some (full [4; 3; 64] 2)))
  = output (ConvNet.forward ConvNet_3_5 zero_generator (full [4; 3; 64] 2)
              (Some (full [4; 3; 128] 1))).
Proof.
  apply (ConvNet_forward_strands_commute 3 5 4 128 64 false ConvNet_3_5).
  - exact ConvNet_3_5_inv.
  - lia.
  - lia.
  - lia.
  - lia.
  - reflexivity.
  - reflexivity.
Defined.

(** ** What forward leaves untouched *)

Lemma Forall2_layer_sim_refl (tr : bool) (ms : list Layer) : Forall2 (layer_sim tr) ms ms.
Proof. induction ms; constructor; auto using layer_sim_refl. Qed.

Lemma ConvNet_sim_refl (self : ConvNet.t) : ConvNet_sim self self.
Proof. constructor; auto using Forall2_layer_sim_refl. Qed.

(** X7. [ConvNet.forward] draws no random number: it returns the generator
    as it was and its output is the same whatever the generator, in either
    mode.  It changes no learnable parameter and, in evaluation mode, nothing
    at all in the network. *)
Theorem ConvNet_forward_frame (marks nb_cls : nat) (leaky : bool) (self : ConvNet.t)
    (g : Generator) (x : Tensor) (r : option Tensor) :
  ConvNet_inv marks nb_cls leaky self ->
  (forall g2, output (ConvNet.forward self g2 x r) = output (ConvNet.forward self g x r))
  /\ forall y self' g',
       ConvNet.forward self g x r = Ok (y, self', g') ->
       g' = g
       /\ ConvNet_parameters self' = ConvNet_parameters self
       /\ ConvNet_inv marks nb_cls leaky self'
       /\ (ConvNet.training self = false -> self' = self).
Proof.
  intros Hinv. split.
  - intros g2. unfold ConvNet.forward.
    pose proof (ConvNet_forward_prop_sim marks nb_cls leaky self self x g g2 Hinv
                  (ConvNet_sim_refl self)) as H0.
    destruct (ConvNet.forward_prop self x g) as [[[p s1] g1]|e] eqn:E;
      destruct (ConvNet.forward_prop self x g2) as [[[p' s1'] g1']|e'] eqn:E';
      simpl in H0; try contradiction; [|now subst].
    subst p'. cbn [bind]. destruct r as [xr|]; [|reflexivity].
    pose proof (ConvNet_forward_prop_sim marks nb_cls leaky self s1 xr g g1 Hinv
                  (ConvNet_forward_prop_sim_self _ _ _ _ _ _ E)) as H1.
    pose proof (ConvNet_forward_prop_sim marks nb_cls leaky self s1' xr g g1' Hinv
                  (ConvNet_forward_prop_sim_self _ _ _ _ _ _ E')) as H2.
    destruct (ConvNet.forward_prop self xr g) as [[[q t] h]|e0];
      destruct (ConvNet.forward_prop s1 xr g1) as [[[q1 t1] h1]|e1];
      destruct (ConvNet.forward_prop s1' xr g1') as [[[q2 t2] h2]|e2];
      simpl in H1, H2; try contradiction; subst; cbn [bind]; [|reflexivity].
    destruct (torch_add p q2); reflexivity.
  - intros y self' g' H. unfold ConvNet.forward in H.
    destruct (ConvNet.forward_prop self x g) as [[[p s1] g1]|e] eqn:E; simpl in H;
      [|discriminate].
    destruct (ConvNet_forward_prop_frame _ _ _ _ _ _ _ _ _ Hinv E)
      as (-> & Hinv1 & Hp1 & Ht1 & He1 & _).
    destruct r as [xr|].
    + destruct (ConvNet.forward_prop s1 xr g) as [[[q s2] g2]|e] eqn:E2; simpl in H;
        [|discriminate].
      destruct (ConvNet_forward_prop_frame _ _ _ _ _ _ _ _ _ Hinv1 E2)
        as (-> & Hinv2 & Hp2 & Ht2 & He2 & _).
      destruct (torch_add p q); simpl in H; [|discriminate].
      inversion H; subst. split; [reflexivity|]. split; [congruence|].
      split; [exact Hinv2|]. intros Htr. rewrite He2 by congruence. auto.
    + inversion H; subst. auto.
Qed.

Lemma ConvNet_forward_frame_witness :
  (forall g2,
     output (ConvNet.forward ConvNet_3_5 g2 (full [4; 3; 128] 1) None)
     = output (ConvNet.forward ConvNet_3_5 zero_generator (full [4; 3; 128] 1) None))
  /\ forall y self' g',
       ConvNet.forward ConvNet_3_5 zero_generator (full [4; 3; 128] 1) None
       = Ok (y, self', g') ->
       g' = zero_generator
       /\ ConvNet_parameters self' = ConvNet_parameters ConvNet_3_5
       /\ ConvNet_inv 3 5 false self'
       /\ (ConvNet.training ConvNet_3_5 = false -> self' = ConvNet_3_5).
Proof.
  apply (ConvNet_forward_frame 3 5 false ConvNet_3_5).
  exact ConvNet_3_5_inv.
Defined.

(** X8. [KimNet.forward] returns the network exactly as it was, in either
    mode (it has no buffer); in evaluation mode it also leaves the generator
    as it was and its output is the same whatever the generator. *)
Theorem KimNet_forward_frame (bins marks nb_cls : nat) (self : KimNet.t)
    (g : Generator) (x : Tensor) (r : option Tensor) :
  KimNet_inv bins marks nb_cls self ->
  (forall y self' g',
     KimNet.forward self g x r = Ok (y, self', g') ->
     self' = self /\ (KimNet.training self = false -> g' = g))
  /\ (KimNet.training self = false ->
      forall g2, output (KimNet.forward self g2 x r) = output (KimNet.forward self g x r)).
Proof.
  intros Hinv.
  pose proof (KimNet_stateless bins marks nb_cls self (KimNet.training self) Hinv) as Hs.
  assert (Hpass : forall x1 h o ms h1,
            Sequential_forward (KimNet.training self) (KimNet.model self) x1 h
            = Ok (o, ms, h1) ->
            ms = KimNet.model self /\ (KimNet.training self = false -> h1 = h)).
  { intros x1 h o ms h1 E.
    destruct (Sequential_forward_frame _ _ _ _ _ _ _ E) as [Fm Fg].
    split; [now apply Fm|]. intros Htr. apply Fg. rewrite Htr.
    apply deterministic_false. }
  split.
  - intros y self' g' H. unfold KimNet.forward in H.
    destruct (view_rows (KimNet.bins self * KimNet.marks self) x) as [x1|e];
      simpl in H; [|discriminate].
    destruct (Sequential_forward (KimNet.training self) (KimNet.model self) x1 g)
      as [[[o ms] g1]|e] eqn:E; simpl in H; [|discriminate].
    destruct (Hpass _ _ _ _ _ E) as [-> Hg1].
    rewrite KimNet_with_model_same in H. destruct r as [xr|].
    + destruct (view_rows (KimNet.bins self * KimNet.marks self) xr) as [x2|e];
        simpl in H; [|discriminate].
      destruct (Sequential_forward (KimNet.training self) (KimNet.model self) x2 g1)
        as [[[o2 ms2] g2]|e] eqn:E2; simpl in H; [|discriminate].
      destruct (Hpass _ _ _ _ _ E2) as [-> Hg2].
      rewrite KimNet_with_model_same in H.
      destruct (torch_add o o2); simpl in H; [|discriminate].
      inversion H; subst. split; [reflexivity|]. intros Htr.
      rewrite Hg2, Hg1; auto.
    + inversion H; subst. auto.
  - intros Htr g2. unfold KimNet.forward. rewrite Htr in *.
    destruct (view_rows (KimNet.bins self * KimNet.marks self) x) as [x1|e];
      simpl; [|reflexivity].
    pose proof (Sequential_forward_sim false _ _
                  (Forall2_layer_sim_refl false (KimNet.model self))
                  (deterministic_false _) x1 g g2) as H0.
    destruct (Sequential_forward false (KimNet.model self) x1 g)
      as [[[o ms] g1]|e] eqn:E;
      destruct (Sequential_forward false (KimNet.model self) x1 g2)
        as [[[o' ms'] g1']|e'] eqn:E'; simpl in H0; try contradiction;
      [|now subst].
    destruct H0 as [<- _]. simpl.
    destruct (Hpass _ _ _ _ _ E) as [-> _]. destruct (Hpass _ _ _ _ _ E') as [-> _].
    rewrite KimNet_with_model_same. destruct r as [xr|]; [|reflexivity].
    destruct (view_rows (KimNet.bins self * KimNet.marks self) xr) as [x2|e];
      simpl; [|reflexivity].
    rewrite Htr.
    pose proof (Sequential_forward_sim false _ _
                  (Forall2_layer_sim_refl false (KimNet.model self))
                  (deterministic_false _) x2 g1 g1') as H1.
    destruct (Sequential_forward false (KimNet.model self) x2 g1)
      as [[[q ms2] g3]|e];
      destruct (Sequential_forward false (KimNet.model self) x2 g1')
        as [[[q' ms2'] g3']|e']; simpl in H1; try contradiction; [|now subst].
    destruct H1 as [<- _]. simpl. destruct (torch_add o q); reflexivity.
Qed.

Lemma KimNet_forward_frame_witness :
  (forall y self' g',
     KimNet.forward KimNet_20_3_5_eval zero_generator (full [4; 20; 3] 1) None
     = Ok (y, self', g') ->
     self' = KimNet_20_3_5_eval
     /\ (KimNet.training KimNet_20_3_5_eval = false -> g' = zero_generator))
  /\ (KimNet.training KimNet_20_3_5_eval = false ->
      forall g2,
        output (KimNet.forward KimNet_20_3_5_eval g2 (full [4; 20; 3] 1) None)
        = output (KimNet.forward KimNet_20_3_5_eval zero_generator (full [4; 20; 3] 1) None)).
Proof.
  apply (KimNet_forward_frame 20 3 5 KimNet_20_3_5_eval).
  repeat split.
Defined.

(** ** The two strands of KimNet *)

(** X12. In evaluation mode the probabilities that [KimNet.forward] returns
    for two strands are the mean of those it returns for each strand alone,
    and the two strands may be swapped. *)
Theorem KimNet_forward_eval_mean_of_strands (bins marks nb_cls B : nat) (self : KimNet.t)
    (g : Generator) (f r : Tensor) :
  KimNet_inv bins marks nb_cls self -> KimNet.training self = false ->
  0 < bins * marks -> 0 < nb_cls ->
  numel (shape f) = B * (bins * marks) -> numel (shape r) = B * (bins * marks) ->
  (exists y yf yr,
     output (KimNet.forward self g f (Some r)) = Ok y
     /\ output (KimNet.forward self g f None) = Ok yf
     /\ output (KimNet.forward self g r None) = Ok yr
     /\ forall i, i < B * nb_cls ->
          exp (at1 y i) = ((exp (at1 yf i) + exp (at1 yr i)) / 2)%R)
  /\ output (KimNet.forward self g f (Some r)) = output (KimNet.forward self g r (Some f)).
Proof.
  intros Hinv Htr Hk Hc Hf Hr. pose proof Hinv as (Hb & Hm & _).
  unfold KimNet.forward.
  rewrite Hb, Hm, (view_rows_ok _ _ _ Hk Hf), (view_rows_ok _ _ _ Hk Hr). cbn [bind].
  destruct (KimNet_model_ok bins marks nb_cls B self g
              {| shape := [B; bins * marks]; data := data f |} Hinv Hc eq_refl)
    as (pf & ms & g1 & Ef & Sf & Df & _).
  destruct (KimNet_model_ok bins marks nb_cls B self g
              {| shape := [B; bins * marks]; data := data r |} Hinv Hc eq_refl)
    as (pr & ms' & g1' & Er & Sr & Dr & _).
  destruct (Sequential_forward_frame _ _ _ _ _ _ _ Ef) as [Fm Fg].
  destruct (Sequential_forward_frame _ _ _ _ _ _ _ Er) as [Fm' Fg'].
  rewrite Htr in *.
  rewrite (Fm (stateless_false _)), (Fg (deterministic_false _)) in *.
  rewrite (Fm' (stateless_false _)), (Fg' (deterministic_false _)) in *.
  rewrite Ef, Er. cbn [bind]. rewrite KimNet_with_model_same, Hb, Hm.
  rewrite (view_rows_ok _ _ _ Hk Hf), (view_rows_ok _ _ _ Hk Hr). cbn [bind].
  rewrite Htr, Ef, Er. cbn [bind].
  rewrite !torch_add_same_shape by congruence. cbn [bind output]. split.
  - eexists _, _, _. repeat split.
    intros i Hi. unfold at1, torch_log, torch_div. cbn [data].
    now apply (exp_log_average B nb_cls).
  - rewrite map2_Rplus_comm. now rewrite Sf, Sr.
Qed.

Lemma KimNet_forward_eval_mean_of_strands_witness :
  (exists y yf yr,
     output (KimNet.forward KimNet_20_3_5_eval zero_generator (full [4; 20; 3] 1)
               (Some (full [4; 60] 2))) = Ok y
     /\ output (KimNet.forward KimNet_20_3_5_eval zero_generator (full [4; 20; 3] 1) None)
        = Ok yf
     /\ output (KimNet.forward KimNet_20_3_5_eval zero_generator (full [4; 60] 2) None)
        = Ok yr
     /\ forall i, i < 4 * 5 ->
          exp (at1 y i) = ((exp (at1 yf i) + exp (at1 yr i)) / 2)%R)
  /\ output (KimNet.forward KimNet_20_3_5_eval zero_generator (full [4; 20; 3] 1)
               (Some (full [4; 60] 2)))
     = output (KimNet.forward KimNet_20_3_5_eval zero_generator (full [4; 60] 2)
                 (Some (full [4; 20; 3] 1))).
Proof.
  apply (KimNet_forward_eval_mean_of_strands 20 3 5 4 KimNet_20_3_5_eval).
  - repeat split.
  - reflexivity.
  - lia.
  - lia.
  - reflexivity.
  - reflexivity.
Defined.

(** ** init_weights *)

Lemma uniform_shape (s : list nat) (lo hi : R) (g : Generator) :
  shape (fst (uniform_ s lo hi g)) = s.
Proof. reflexivity. Qed.

(** X10. After [init_weights] every weight of a convolution lies in
    [[-b, b)] with [b = sqrt (6 / fan_in)], [fan_in] being the number of input
    channels times the kernel size, when the generator draws from [[0, 1)]. *)
Theorem init_weights_conv_bounds (padding cout cin k : nat) (cw cb : Tensor)
    (g : Generator) :
  shape cw = [cout; cin; k] ->
  (forall i, (0 <= uniform01 g i < 1)%R) ->
  exists w g',
    init_weights (LayerModule (Conv1d padding cw cb)) g
    = Ok (tt, LayerModule (Conv1d padding w (zeros_ cb)), g')
    /\ forall i, i < cout * (cin * k) ->
         (- sqrt (6 / INR (cin * k)) <= at1 w i < sqrt (6 / INR (cin * k)))%R.
Proof.
  intros Hc Hu. unfold init_weights, kaiming_uniform_. rewrite Hc.
  destruct (existsb (Nat.eqb 0) [cout; cin; k]) eqn:Z.
  - simpl. exists cw, g. split; [reflexivity|].
    intros i Hi. exfalso. simpl in Z.
    destruct cout, cin, k; simpl in Z; try discriminate; nia.
  - simpl. eexists _, _. split; [reflexivity|].
    intros i Hi. unfold at1. simpl.
    assert (Hfan : 0 < cin * k) by nia.
    rewrite nth_tab by nia.
    replace (cin * (k * 1)) with (cin * k) by lia.
    rewrite kaiming_bound_eq by assumption.
    assert (Hb : (0 < sqrt (6 / INR (cin * k)))%R).
    { apply sqrt_lt_R0. apply Rdiv_lt_0_compat; [lra | now apply lt_0_INR]. }
    specialize (Hu (offset g + i)). unfold draw_uniform.
    set (b := sqrt (6 / INR (cin * k))) in *. split; nra.
Qed.

Lemma init_weights_conv_bounds_witness :
  exists w g',
    init_weights (LayerModule (Conv1d 3 (full [32; 3; 7] 1) (full [32] 1))) zero_generator
    = Ok (tt, LayerModule (Conv1d 3 w (zeros_ (full [32] 1))), g')
    /\ forall i, i < 32 * (3 * 7) ->
         (- sqrt (6 / INR (3 * 7)) <= at1 w i < sqrt (6 / INR (3 * 7)))%R.
Proof.
  apply (init_weights_conv_bounds 3 32 3 7 (full [32; 3; 7] 1) (full [32] 1) zero_generator).
  - reflexivity.
  - intros i. simpl. lra.
Defined.



(** ** A single sample against a batch *)

Lemma shape_eqb_false (s s' : list nat) : s <> s' -> shape_eqb s s' = false.
Proof. intros H. unfold shape_eqb. now destruct (list_eq_dec Nat.eq_dec s s'). Qed.

Lemma torch_add_batch_single (a b : Tensor) (B C : nat) :
  shape a = [B; C] -> shape b = [1; C] -> B <> 1 ->
  torch_add a b
  = Ok {| shape := [B; C];
          data := tab (B * C) (fun i => (at1 a i + at1 b (i mod C))%R) |}.
Proof.
  intros Ha Hb HB. unfold torch_add. rewrite Ha, Hb.
  rewrite shape_eqb_false by (intros E; inversion E; contradiction).
  rewrite shape_eqb_refl. cbn [negb]. apply Nat.eqb_neq in HB. rewrite HB.
  cbn [Nat.eqb numel fold_right]. now rewrite !Nat.mul_1_r.
Qed.

Lemma torch_add_single_batch (a b : Tensor) (B C : nat) :
  shape a = [1; C] -> shape b = [B; C] -> B <> 1 ->
  torch_add a b
  = Ok {| shape := [B; C];
          data := tab (B * C) (fun i => (at1 a (i mod C) + at1 b i)%R) |}.
Proof.
  intros Ha Hb HB. unfold torch_add. rewrite Ha, Hb.
  rewrite shape_eqb_false by (intros E; inversion E; auto).
  rewrite shape_eqb_refl. cbn [negb Nat.eqb numel fold_right].
  now rewrite !Nat.mul_1_r.
Qed.

Lemma mod_row (b c C : nat) : c < C -> (b * C + c) mod C = c.
Proof.
  intros Hc. rewrite Nat.add_comm, Nat.Div0.mod_add. now apply Nat.mod_small.
Qed.

(** Averaging every row of a batch with one and the same distribution. *)
Lemma distribution_average_single (B C : nat) (d1 d2 : list R) (swap : bool) :
  distribution B C d1 -> distribution 1 C d2 ->
  distribution B C
    (map (fun v => (v / 2)%R)
       (tab (B * C) (fun i => if swap
                              then (nth (i mod C) d2 0 + nth i d1 0)%R
                              else (nth i d1 0 + nth (i mod C) d2 0)%R))).
Proof.
  intros [L1 H1] [L2 H2].
  assert (Hnth : forall b c, b < B -> c < C ->
            nth (b * C + c)
              (map (fun v => (v / 2)%R)
                 (tab (B * C) (fun i => if swap
                                        then (nth (i mod C) d2 0 + nth i d1 0)%R
                                        else (nth i d1 0 + nth (i mod C) d2 0)%R))) 0%R
            = ((nth (b * C + c) d1 0 + nth (0 * C + c) d2 0) / 2)%R).
  { intros b c Hb Hc. assert (b * C + c < B * C) by nia.
    rewrite (@nth_map_in _ _ (fun v => (v / 2)%R) _ 0%R 0%R) by now rewrite tab_length.
    rewrite nth_tab by assumption. rewrite mod_row by assumption.
    cbn [Nat.mul Nat.add]. destruct swap; lra. }
  split; [now rewrite length_map, tab_length|].
  intros b Hb. destruct (H1 b Hb) as [P1 S1], (H2 0 ltac:(lia)) as [P2 S2]. split.
  - intros c Hc. rewrite Hnth by auto. specialize (P1 c Hc). specialize (P2 c Hc). lra.
  - rewrite (sumf_ext _ (fun c => ((nth (b * C + c) d1 0 + nth (0 * C + c) d2 0) / 2)%R))
      by (intros; now apply Hnth).
    rewrite sumf_div, sumf_plus, S1, S2. lra.
Qed.

(** X13. A [KimNet] given a batch of [B >= 2] samples on one strand and a
    single sample on the other raises nothing: the single sample is averaged
    with every sample of the batch, and the output has [B] rows of
    log-probabilities, also when the single sample is the forward strand. *)
Theorem KimNet_forward_broadcasts_single_sample (bins marks nb_cls B : nat)
    (self : KimNet.t) (g : Generator) (x one : Tensor) :
  0 < bins * marks -> 0 < nb_cls -> KimNet_inv bins marks nb_cls self -> 2 <= B ->
  numel (shape x) = B * (bins * marks) ->
  numel (shape one) = 1 * (bins * marks) ->
  (exists y self' g',
     KimNet.forward self g x (Some one) = Ok (y, self', g')
     /\ shape y = [B; nb_cls] /\ log_probabilities B nb_cls y)
  /\ (exists y self' g',
        KimNet.forward self g one (Some x) = Ok (y, self', g')
        /\ shape y = [B; nb_cls] /\ log_probabilities B nb_cls y).
Proof.
  intros Hk Hc Hinv HB Hx H1. pose proof Hinv as (Hb & Hm & _).
  assert (HB1 : B <> 1) by lia.
  split; unfold KimNet.forward; rewrite Hb, Hm.
  - rewrite (view_rows_ok _ _ _ Hk Hx). cbn [bind].
    destruct (KimNet_model_ok bins marks nb_cls B self g
                {| shape := [B; bins * marks]; data := data x |} Hinv Hc eq_refl)
      as (o & ms & g1 & E & Ho & Hd & He & _).
    rewrite E. cbn [bind].
    pose proof (KimNet_inv_with_model _ _ _ _ _ Hinv He) as Hinv1.
    change (KimNet.bins (KimNet.with_model self ms)) with (KimNet.bins self).
    change (KimNet.marks (KimNet.with_model self ms)) with (KimNet.marks self).
    rewrite Hb, Hm, (view_rows_ok _ _ _ Hk H1). cbn [bind].
    destruct (KimNet_model_ok bins marks nb_cls 1 (KimNet.with_model self ms) g1
                {| shape := [1; bins * marks]; data := data one |} Hinv1 Hc eq_refl)
      as (o2 & ms2 & g2 & E2 & Ho2 & Hd2 & _).
    rewrite E2. cbn [bind].
    rewrite (torch_add_batch_single o o2 B nb_cls Ho Ho2 HB1). cbn [bind].
    eexists _, _, _. split; [reflexivity|]. split; [reflexivity|].
    apply distribution_log.
    exact (distribution_average_single B nb_cls (data o) (data o2) false Hd Hd2).
  - rewrite (view_rows_ok _ _ _ Hk H1). cbn [bind].
    destruct (KimNet_model_ok bins marks nb_cls 1 self g
                {| shape := [1; bins * marks]; data := data one |} Hinv Hc eq_refl)
      as (o & ms & g1 & E & Ho & Hd & He & _).
    rewrite E. cbn [bind].
    pose proof (KimNet_inv_with_model _ _ _ _ _ Hinv He) as Hinv1.
    change (KimNet.bins (KimNet.with_model self ms)) with (KimNet.bins self).
    change (KimNet.marks (KimNet.with_model self ms)) with (KimNet.marks self).
    rewrite Hb, Hm, (view_rows_ok _ _ _ Hk Hx). cbn [bind].
    destruct (KimNet_model_ok bins marks nb_cls B (KimNet.with_model self ms) g1
                {| shape := [B; bins * marks]; data := data x |} Hinv1 Hc eq_refl)
      as (o2 & ms2 & g2 & E2 & Ho2 & Hd2 & _).
    rewrite E2. cbn [bind].
    rewrite (torch_add_single_batch o o2 B nb_cls Ho Ho2 HB1). cbn [bind].
    eexists _, _, _. split; [reflexivity|]. split; [reflexivity|].
    apply distribution_log.
    exact (distribution_average_single B nb_cls (data o2) (data o) true Hd2 Hd).
Qed.

Lemma KimNet_forward_broadcasts_single_sample_witness :
  (exists y self' g',
     KimNet.forward KimNet_20_3_5 zero_generator (full [4; 20; 3] 1)
       (Some (full [1; 20; 3] 2)) = Ok (y, self', g')
     /\ shape y = [4; 5] /\ log_probabilities 4 5 y)
  /\ (exists y self' g',
        KimNet.forward KimNet_20_3_5 zero_generator (full [1; 20; 3] 2)
          (Some (full [4; 20; 3] 1)) = Ok (y, self', g')
        /\ shape y = [4; 5] /\ log_probabilities 4 5 y).
Proof.
  apply (KimNet_forward_broadcasts_single_sample 20 3 5 4 KimNet_20_3_5).
  - lia.
  - lia.
  - apply (KimNet_init_inv 20 3 5).
  - lia.
  - reflexivity.
  - reflexivity.
Defined.

(** ** A single sample through ConvNet *)

(** [ConvNet.forward] returns the squeezed logarithm of a distribution. *)
Lemma ConvNet_forward_strong (marks nb_cls B L : nat) (leaky : bool) (self : ConvNet.t)
    (g : Generator) (x : Tensor) (r : option Tensor) :
  ConvNet_inv marks nb_cls leaky self -> 2 <= nb_cls -> 1 <= B -> 4 <= L ->
  shape x = [B; marks; L] ->
  (forall xr, r = Some xr -> exists L', 4 <= L' /\ shape xr = [B; marks; L']) ->
  exists p self' g',
    ConvNet.forward self g x r = Ok (torch_squeeze (torch_log p), self', g')
    /\ shape p = [B; nb_cls; 1]
    /\ distribution B nb_cls (data p).
Proof.
  intros Hinv Hc HB HL Hx Hr. unfold ConvNet.forward.
  destruct (ConvNet_forward_prop_ok marks nb_cls B L leaky self x g Hinv) as
    (o & self1 & g1 & E & Ho & Hd & Hinv1 & _); auto; try lia.
  rewrite E. cbn [bind]. destruct r as [xr|].
  - destruct (Hr xr eq_refl) as (L' & HL' & Hxr).
    destruct (ConvNet_forward_prop_ok marks nb_cls B L' leaky self1 xr g1 Hinv1) as
      (o2 & self2 & g2 & E2 & Ho2 & Hd2 & _); auto; try lia.
    rewrite E2. cbn [bind]. rewrite torch_add_same_shape by congruence. cbn [bind].
    eexists _, _, _. split; [reflexivity|]. split; [exact Ho|].
    now apply distribution_average.
  - exists o. eexists _, _. split; [reflexivity|]. auto.
Qed.

(** X14. On a single sample the output of [ConvNet.forward], of one
    dimension, still holds log-probabilities: the exponentials of its
    [nb_cls] entries sum to 1 and no entry is positive; the reverse strand
    may have another length. *)
Theorem ConvNet_forward_single_sample_log_probabilities (marks nb_cls L : nat)
    (leaky : bool) (self : ConvNet.t) (g : Generator) (x : Tensor) (r : option Tensor) :
  ConvNet_inv marks nb_cls leaky self -> 2 <= nb_cls -> 4 <= L ->
  shape x = [1; marks; L] ->
  (forall xr, r = Some xr -> exists L', 4 <= L' /\ shape xr = [1; marks; L']) ->
  exists y self' g',
    ConvNet.forward self g x r = Ok (y, self', g')
    /\ shape y = [nb_cls]
    /\ sumf nb_cls (fun c => exp (at1 y c)) = 1%R
    /\ forall c, c < nb_cls -> (at1 y c <= 0)%R.
Proof.
  intros Hinv Hc HL Hx Hr.
  destruct (ConvNet_forward_strong marks nb_cls 1 L leaky self g x r Hinv Hc
              (le_n 1) HL Hx Hr) as (p & self' & g' & E & Hs & Hd).
  exists (torch_squeeze (torch_log p)), self', g'. split; [exact E|]. split; [|split].
  - destruct p as [sp dp]. simpl in Hs. subst sp.
    unfold torch_log. cbn [shape data]. rewrite squeeze_shape by exact Hc. reflexivity.
  - destruct p as [sp dp].
    exact (@distribution_log 1 nb_cls sp dp Hd 0 (le_n 1)).
  - intros c Hcc. exact (log_distribution_nonpos 1 nb_cls p 0 c Hd (le_n 1) Hcc).
Qed.

Lemma ConvNet_forward_single_sample_log_probabilities_witness :
  exists y self' g',
    ConvNet.forward ConvNet_3_5 zero_generator (full [1; 3; 128] 1)
      (Some (full [1; 3; 64] 2)) = Ok (y, self', g')
    /\ shape y = [5]
    /\ sumf 5 (fun c => exp (at1 y c)) = 1%R
    /\ forall c, c < 5 -> (at1 y c <= 0)%R.
Proof.
  apply (ConvNet_forward_single_sample_log_probabilities 3 5 128 false ConvNet_3_5).
  - exact ConvNet_3_5_inv.
  - lia.
  - lia.
  - reflexivity.
  - intros xr H. inversion H. exists 64. split; [lia | reflexivity].
Defined.

(** * The view and the memory layout *)

Lemma row_major_head (a : nat) (s : list nat) :
  numel s <> 0 -> row_major (a :: s) = numel s :: row_major s.
Proof.
  intros H. cbn [row_major]. f_equal.
  induction s as [|b s IH]; [reflexivity|].
  cbn [numel fold_right] in *.
  assert (b <> 0 /\ fold_right Nat.mul 1 s <> 0) as [Hb Hs] by nia.
  rewrite (IH Hs). rewrite Nat.max_l by lia. reflexivity.
Qed.

(** A contiguous tensor is one chunk. *)
Lemma chunks_row_major (s : list nat) (v : list nat) :
  s <> [] -> numel s <> 0 ->
  chunks (combine s (row_major s)) v = Some (v, 1, numel s).
Proof.
  induction s as [|a s IH]; intros Hne Hn; [congruence|].
  assert (Hs : numel s <> 0) by (unfold numel in *; cbn [fold_right] in Hn; nia).
  rewrite (row_major_head a s Hs). destruct s as [|b s'].
  - cbn [combine row_major chunks numel fold_right]. now rewrite Nat.mul_1_r.
  - assert (Hs' : numel s' <> 0) by (unfold numel in *; cbn [fold_right] in Hs; nia).
    specialize (IH ltac:(discriminate) Hs).
    rewrite (row_major_head b s' Hs') in *.
    cbn [combine] in *. cbn [chunks]. cbn [chunks] in IH. rewrite IH.
    rewrite Nat.mul_1_r, Nat.eqb_refl, andb_false_r.
    unfold numel. cbn [fold_right]. do 2 f_equal. lia.
Qed.

Lemma take_view_fill (n k : nat) :
  0 < n -> 0 < k -> n mod k = 0 -> take_view n [k; n / k] 1 = ([], n).
Proof.
  intros Hn Hk Hmod.
  assert (Hd : k * (n / k) = n) by (apply Nat.Div0.div_exact in Hmod; lia).
  assert (Hq : 0 < n / k) by nia.
  assert (Hle : k <= n) by nia.
  cbn [take_view].
  assert (E1 : (1 <? n) || (k =? 1) = true).
  { destruct (Nat.ltb_spec 1 n); [reflexivity|].
    assert (k = 1) by nia. subst k. reflexivity. }
  rewrite E1, Nat.mul_1_l.
  assert (E2 : (k <? n) || (n / k =? 1) = true).
  { destruct (Nat.ltb_spec k n); [reflexivity|].
    assert (n / k = 1) by nia. now rewrite H0. }
  rewrite E2, Hd. reflexivity.
Qed.

(** The strides of a contiguous tensor allow every view of its entries as
    rows of [k]. *)
Lemma contiguous_view_compatible (s : list nat) (k : nat) :
  0 < k -> numel s mod k = 0 ->
  view_compatible s (row_major s) [numel s / k; k] = true.
Proof.
  intros Hk Hmod. unfold view_compatible. destruct s as [|a s]; [reflexivity|].
  destruct (Nat.eqb_spec (numel (a :: s)) 0) as [|Hn]; [reflexivity|].
  rewrite chunks_row_major by (auto; discriminate).
  cbn [rev app]. rewrite take_view_fill by (auto; lia).
  now rewrite Nat.eqb_refl.
Qed.

Lemma contiguous_viewable (k : nat) (t : Strided) :
  0 < k -> numel (sizes t) mod k = 0 -> contiguous t -> viewable k t.
Proof.
  intros Hk Hmod Hc. unfold viewable. rewrite Hc.
  now apply contiguous_view_compatible.
Qed.

Lemma view_ok (k B : nat) (t : Strided) :
  0 < k -> numel (sizes t) = B * k -> viewable k t ->
  view k t = Ok {| shape := [B; k]; data := gather t |}.
Proof.
  intros Hk Hn Hv. unfold view. unfold viewable in Hv. rewrite Hv.
  destruct (Nat.eqb_spec k 0) as [|_]; [lia|].
  rewrite Hn, Nat.Div0.mod_mul, Nat.div_mul by lia. reflexivity.
Qed.

(** ** A contiguous tensor read through its strides *)

Lemma map_add_seq (c a m : nat) : map (fun o => c + o) (seq a m) = seq (c + a) m.
Proof.
  revert a. induction m as [|m IH]; intros a; [reflexivity|].
  cbn [seq map]. rewrite IH. now rewrite Nat.add_succ_r.
Qed.

Lemma flat_map_seq_blocks (a m : nat) :
  flat_map (fun i => map (fun o => i * m + o) (seq 0 m)) (seq 0 a) = seq 0 (a * m).
Proof.
  induction a as [|a IH]; [reflexivity|].
  rewrite seq_S, flat_map_app, IH. cbn [flat_map Nat.add].
  rewrite app_nil_r, map_add_seq, Nat.add_0_r.
  replace (S a * m) with (a * m + m) by lia. now rewrite seq_app.
Qed.

Lemma offsets_row_major (s : list nat) : offsets s (row_major s) = seq 0 (numel s).
Proof.
  induction s as [|a s IH]; [reflexivity|].
  cbn [numel fold_right]. fold (numel s).
  destruct (Nat.eq_dec (numel s) 0) as [E|E].
  - cbn [row_major offsets]. rewrite IH, E, Nat.mul_0_r.
    cbn [seq map]. induction (seq 0 a) as [|i l IHl]; [reflexivity | exact IHl].
  - rewrite (row_major_head a s E). cbn [offsets]. rewrite IH.
    apply flat_map_seq_blocks.
Qed.

Lemma gather_of_tensor (t : Tensor) :
  length (data t) = numel (shape t) -> gather (of_tensor t) = data t.
Proof.
  intros H. unfold gather, of_tensor. cbn [sizes strides storage_offset storage].
  rewrite offsets_row_major, <- H.
  apply (nth_ext _ _ 0%R 0%R); [now rewrite length_map, length_seq|].
  intros i Hi. rewrite length_map, length_seq in Hi.
  rewrite (@nth_map_in _ _ (fun o => nth (0 + o) (data t) 0%R) _ 0 0%R)
    by now rewrite length_seq.
  now rewrite seq_nth.
Qed.

(** On a contiguous tensor the view is the view of this file's tensors. *)
Lemma view_of_tensor (k : nat) (t : Tensor) :
  length (data t) = numel (shape t) -> view k (of_tensor t) = view_rows k t.
Proof.
  intros H. unfold view, view_rows. cbn [of_tensor sizes strides].
  destruct (Nat.eqb_spec k 0) as [|Hk]; [reflexivity|].
  destruct (Nat.eqb_spec (numel (shape t) mod k) 0) as [Hmod|]; [|reflexivity].
  rewrite contiguous_view_compatible by (auto; lia).
  now rewrite (gather_of_tensor t H).
Qed.

Lemma KimNet_forward_strided_of_tensor (self : KimNet.t) (g : Generator)
    (f : Tensor) (r : option Tensor) :
  length (data f) = numel (shape f) ->
  (forall xr, r = Some xr -> length (data xr) = numel (shape xr)) ->
  KimNet_forward_strided self g (of_tensor f) (option_map of_tensor r)
  = KimNet.forward self g f r.
Proof.
  intros Hf Hr. unfold KimNet_forward_strided, KimNet.forward.
  rewrite (view_of_tensor _ f Hf).
  destruct (view_rows (KimNet.bins self * KimNet.marks self) f) as [x|e]; [|reflexivity].
  cbn [bind].
  destruct (Sequential_forward (KimNet.training self) (KimNet.model self) x g)
    as [[[o ms] g1]|e]; [|reflexivity].
  cbn [bind]. destruct r as [xr|]; [|reflexivity].
  cbn [option_map]. now rewrite (view_of_tensor _ xr (Hr xr eq_refl)).
Qed.

(** ** KimNet on tensors of any layout *)

(** A tensor of [B * (bins * marks)] entries whose strides allow the view
    goes through, as [B] samples. *)
Lemma KimNet_forward_strided_general (bins marks nb_cls B : nat) (self : KimNet.t)
    (g : Generator) (x : Strided) (r : option Strided) :
  0 < bins * marks -> 0 < nb_cls -> KimNet_inv bins marks nb_cls self ->
  numel (sizes x) = B * (bins * marks) -> viewable (bins * marks) x ->
  (forall xr, r = Some xr ->
     numel (sizes xr) = B * (bins * marks) /\ viewable (bins * marks) xr) ->
  exists y self' g',
    KimNet_forward_strided self g x r = Ok (y, self', g')
    /\ shape y = [B; nb_cls]
    /\ log_probabilities B nb_cls y
    /\ KimNet_inv bins marks nb_cls self'.
Proof.
  intros Hk Hc Hinv Hx Hv Hr. pose proof Hinv as (Hb & Hm & Ha).
  unfold KimNet_forward_strided. rewrite Hb, Hm, (view_ok _ _ _ Hk Hx Hv). cbn [bind].
  destruct (KimNet_model_ok bins marks nb_cls B self g
              {| shape := [B; bins * marks]; data := gather x |} Hinv Hc eq_refl)
    as (o & ms & g1 & E & Ho & Hd & He & _).
  rewrite E. cbn [bind].
  pose proof (KimNet_inv_with_model _ _ _ _ _ Hinv He) as Hinv1.
  destruct r as [xr|].
  - destruct (Hr xr eq_refl) as [Hxr Hvr].
    cbn [KimNet.with_model KimNet.bins KimNet.marks KimNet.training KimNet.model].
    rewrite Hb, Hm, (view_ok _ _ _ Hk Hxr Hvr). cbn [bind].
    destruct (KimNet_model_ok bins marks nb_cls B (KimNet.with_model self ms) g1
                {| shape := [B; bins * marks]; data := gather xr |} Hinv1 Hc eq_refl)
      as (o2 & ms2 & g2 & E2 & Ho2 & Hd2 & He2 & _).
    cbn [KimNet.with_model KimNet.bins KimNet.marks KimNet.training KimNet.model] in E2.
    rewrite E2. cbn [bind].
    rewrite torch_add_same_shape by congruence. cbn [bind].
    eexists _, _, _. split; [reflexivity|]. split; [exact Ho|]. split.
    + apply distribution_log. now apply distribution_average.
    + now apply (KimNet_inv_with_model _ _ _ _ ms2 Hinv1).
  - eexists _, _, _. split; [reflexivity|]. split; [exact Ho|]. split; [|exact Hinv1].
    destruct o as [so d]. now apply distribution_log.
Qed.

(** Whatever the view refuses, [KimNet.forward] refuses. *)
Lemma KimNet_forward_strided_view (self : KimNet.t) (g : Generator) (x : Strided)
    (r : option Strided) :
  is_ok (KimNet_forward_strided self g x r) = true ->
  is_ok (view (KimNet.bins self * KimNet.marks self) x) = true.
Proof.
  unfold KimNet_forward_strided.
  destruct (view (KimNet.bins self * KimNet.marks self) x); [reflexivity|].
  intros H. exact H.
Qed.

Lemma view_is_ok (k : nat) (t : Strided) :
  is_ok (view k t) = true <-> (0 < k /\ numel (sizes t) mod k = 0 /\ viewable k t).
Proof.
  unfold view, viewable.
  destruct (Nat.eqb_spec k 0) as [E|E].
  - split; [discriminate | lia].
  - destruct (Nat.eqb_spec (numel (sizes t) mod k) 0) as [E'|E'].
    + destruct (view_compatible (sizes t) (strides t) [numel (sizes t) / k; k]).
      * split; [intros _; repeat split; [lia | exact E'] | reflexivity].
      * split; [discriminate | intros (_ & _ & H); discriminate H].
    + split; [discriminate | intros (_ & H & _); contradiction].
Qed.

Lemma transposed_batch_layout :
  sizes transposed_batch = [4; 20; 3] /\ strides transposed_batch = [60; 1; 20].
Proof. split; reflexivity. Qed.

(** The view of the transposed batch as rows of 60 is refused: its 240
    entries do not lie in the storage in the order of their indices. *)
Lemma view_transposed_batch : view (20 * 3) transposed_batch = Raise RuntimeError.
Proof.
  destruct transposed_batch_layout as [Hs Ht].
  unfold view. rewrite Hs, Ht. reflexivity.
Qed.

(** C10, amended.  For [bins * marks > 0], [KimNet.forward] takes any tensor
    whose number of entries is a multiple of [bins * marks] and whose memory
    layout allows the view (it is contiguous, or its strides pass the stride
    rule of [view]), whatever its shape, alone or with a reverse strand of
    as many entries with such a layout, and reads it as
    [count / (bins * marks)] samples: no error is raised, and the batch size
    of the output is the inferred one, not the leading dimension of the
    input. *)
Theorem KimNet_forward_strided_reinterprets_layout (bins marks nb_cls : nat)
    (self : KimNet.t) (g : Generator) (x : Strided) (r : option Strided) :
  0 < bins * marks -> 0 < nb_cls -> KimNet_inv bins marks nb_cls self ->
  numel (sizes x) mod (bins * marks) = 0 ->
  contiguous x \/ viewable (bins * marks) x ->
  (forall xr, r = Some xr ->
     numel (sizes xr) = numel (sizes x)
     /\ (contiguous xr \/ viewable (bins * marks) xr)) ->
  exists y self' g',
    KimNet_forward_strided self g x r = Ok (y, self', g')
    /\ shape y = [numel (sizes x) / (bins * marks); nb_cls].
Proof.
  intros Hk Hc Hinv Hmod Hl Hr.
  assert (Hn : numel (sizes x) = numel (sizes x) / (bins * marks) * (bins * marks)).
  { apply Nat.Div0.div_exact in Hmod. lia. }
  assert (Hv : viewable (bins * marks) x).
  { destruct Hl as [Hl|Hl]; [now apply contiguous_viewable | exact Hl]. }
  destruct (KimNet_forward_strided_general bins marks nb_cls _ self g x r Hk Hc Hinv Hn Hv)
    as (y & self' & g' & E & Hs & _).
  - intros xr Hxr. destruct (Hr xr Hxr) as [Hnr Hlr]. split.
    + rewrite Hnr. exact Hn.
    + destruct Hlr as [Hlr|Hlr]; [|exact Hlr].
      apply contiguous_viewable; [exact Hk | now rewrite Hnr | exact Hlr].
  - exists y, self', g'. auto.
Qed.

Lemma KimNet_forward_strided_reinterprets_layout_witness :
  exists y self' g',
    KimNet_forward_strided KimNet_20_3_5 zero_generator
      every_other_row (Some (of_tensor (full [2; 6; 20] 1))) = Ok (y, self', g')
    /\ shape y = [4; 5].
Proof.
  apply (KimNet_forward_strided_reinterprets_layout 20 3 5).
  - lia.
  - lia.
  - apply (KimNet_init_inv 20 3 5).
  - reflexivity.
  - right. reflexivity.
  - intros xr H. inversion H. split; [reflexivity | left; reflexivity].
Defined.

(** C10, as stated, fails in two ways.  A [(4, 3, 20)] batch transposed to
    [(4, 20, 3)] has 240 entries, a multiple of [20 * 3], and the view
    refuses it: its strides [(60, 1, 20)] do not allow rows of 60.  And two
    contiguous strands whose numbers of entries are different multiples of
    [20 * 3] are each read as a batch, and the sum of the two batches is
    refused. *)
Lemma KimNet_forward_strided_refuses :
  numel (sizes transposed_batch) mod (20 * 3) = 0
  /\ KimNet_forward_strided KimNet_20_3_5 zero_generator transposed_batch None
     = Raise RuntimeError
  /\ numel (sizes (of_tensor (full [2; 60] 1))) mod (20 * 3) = 0
  /\ numel (sizes (of_tensor (full [3; 60] 1))) mod (20 * 3) = 0
  /\ KimNet_forward_strided KimNet_20_3_5 zero_generator
       (of_tensor (full [2; 60] 1)) (Some (of_tensor (full [3; 60] 1)))
     = Raise RuntimeError.
Proof.
  split; [reflexivity|]. split; [|split; [reflexivity|split; [reflexivity|]]].
  - unfold KimNet_forward_strided.
    change (KimNet.bins KimNet_20_3_5 * KimNet.marks KimNet_20_3_5) with (20 * 3).
    rewrite view_transposed_batch. reflexivity.
  - change (Some (of_tensor (full [3; 60] 1)))
      with (option_map of_tensor (Some (full [3; 60] 1))).
    rewrite KimNet_forward_strided_of_tensor.
    + exact KimNet_forward_batch_mismatch.
    + unfold full. cbn [data shape]. apply tab_length.
    + intros xr H. inversion H. unfold full. cbn [data shape]. apply tab_length.
Qed.

(** X9. A [KimNet] takes a forward strand alone exactly when [bins * marks]
    is not zero and divides the number of entries of the input, and the
    strides of the input allow the view as rows of [bins * marks]; for a
    contiguous input the first two conditions are enough. *)
Theorem KimNet_forward_strided_accepts_iff (bins marks nb_cls : nat) (self : KimNet.t)
    (g : Generator) (x : Strided) :
  KimNet_inv bins marks nb_cls self -> 0 < nb_cls ->
  (is_ok (KimNet_forward_strided self g x None) = true
   <-> (0 < bins * marks /\ numel (sizes x) mod (bins * marks) = 0
        /\ viewable (bins * marks) x))
  /\ (contiguous x ->
      (is_ok (KimNet_forward_strided self g x None) = true
       <-> (0 < bins * marks /\ numel (sizes x) mod (bins * marks) = 0))).
Proof.
  intros Hinv Hc.
  assert (Hiff : is_ok (KimNet_forward_strided self g x None) = true
                 <-> (0 < bins * marks /\ numel (sizes x) mod (bins * marks) = 0
                      /\ viewable (bins * marks) x)).
  { split.
    - intros H. apply KimNet_forward_strided_view in H.
      destruct Hinv as (Hb & Hm & _). rewrite Hb, Hm in H.
      now apply view_is_ok.
    - intros (Hk & Hmod & Hv).
      assert (Hn : numel (sizes x) = numel (sizes x) / (bins * marks) * (bins * marks)).
      { apply Nat.Div0.div_exact in Hmod. lia. }
      destruct (KimNet_forward_strided_general bins marks nb_cls _ self g x None
                  Hk Hc Hinv Hn Hv) as (y & self' & g' & E & _); [discriminate|].
      now rewrite E. }
  split; [exact Hiff|].
  intros Hcont. rewrite Hiff. split.
  - intros (Hk & Hmod & _). auto.
  - intros (Hk & Hmod). repeat split; auto. now apply contiguous_viewable.
Qed.

Lemma KimNet_forward_strided_accepts_iff_witness :
  (is_ok (KimNet_forward_strided KimNet_20_3_5 zero_generator transposed_batch None) = true
   <-> (0 < 20 * 3 /\ numel (sizes transposed_batch) mod (20 * 3) = 0
        /\ viewable (20 * 3) transposed_batch))
  /\ (contiguous transposed_batch ->
      (is_ok (KimNet_forward_strided KimNet_20_3_5 zero_generator transposed_batch None)
       = true
       <-> (0 < 20 * 3 /\ numel (sizes transposed_batch) mod (20 * 3) = 0))).
Proof.
  apply (KimNet_forward_strided_accepts_iff 20 3 5 KimNet_20_3_5).
  - apply (KimNet_init_inv 20 3 5).
  - lia.
Defined.

(** ** The two strands through one pipeline *)

Lemma nth_log_average (n : nat) (df dr : list R) (i : nat) :
  length df = n -> length dr = n -> i < n ->
  nth i (map ln (map (fun v => (v / 2)%R) (map2 Rplus df dr))) 0%R
  = ln ((nth i df 0 + nth i dr 0) / 2)%R.
Proof.
  intros Lf Lr Hi.
  rewrite (@nth_map_in _ _ ln _ 0%R 0%R)
    by (rewrite length_map, map2_length; lia).
  rewrite (@nth_map_in _ _ (fun v => (v / 2)%R) _ 0%R 0%R) by (rewrite map2_length; lia).
  rewrite (@nth_map2 _ _ _ Rplus df dr 0%R 0%R 0%R) by lia.
  reflexivity.
Qed.

(** The probabilities of one strand, for a [KimNet]: the layers leave the
    network as it was, and without dropout the generator too. *)
Lemma KimNet_pipeline_ok (bins marks nb_cls B : nat) (self : KimNet.t) (g : Generator)
    (x : Tensor) :
  0 < bins * marks -> 0 < nb_cls -> KimNet_inv bins marks nb_cls self ->
  numel (shape x) = B * (bins * marks) ->
  exists p g1,
    KimNet_pipeline self g x = Ok (p, g1)
    /\ Sequential_forward (KimNet.training self) (KimNet.model self)
         {| shape := [B; bins * marks]; data := data x |} g
       = Ok (p, KimNet.model self, g1)
    /\ shape p = [B; nb_cls]
    /\ distribution B nb_cls (data p)
    /\ (KimNet.training self = false -> g1 = g).
Proof.
  intros Hk Hc Hinv Hx. pose proof Hinv as (Hb & Hm & Ha).
  pose proof (KimNet_stateless bins marks nb_cls self (KimNet.training self) Hinv) as Hs.
  unfold KimNet_pipeline. rewrite Hb, Hm, (view_rows_ok _ _ _ Hk Hx). cbn [bind].
  destruct (KimNet_model_ok bins marks nb_cls B self g
              {| shape := [B; bins * marks]; data := data x |} Hinv Hc eq_refl)
    as (o & ms & g1 & E & Ho & Hd & _).
  destruct (Sequential_forward_frame _ _ _ _ _ _ _ E) as [Fm Fg].
  rewrite (Fm Hs) in E. rewrite E. cbn [bind].
  exists o, g1. split; [reflexivity|]. split; [reflexivity|]. split; [exact Ho|].
  split; [exact Hd|].
  intros Htr. apply Fg. rewrite Htr. apply deterministic_false.
Qed.

(** C5. With a reverse strand, both classifiers return, entry by entry,
    [log ((P forward + P reverse) / 2)], where [P] gives the probabilities
    of a strand through the layers and parameters of the one network that
    was called.  For [KimNet] both passes run the model of the network, which
    comes back as it was; in training mode the second pass goes on with the
    generator where the first left it (dropout), in evaluation mode the
    generator is not used.  For [ConvNet] the second pass gives what the
    network gives for the reverse strand before the first pass: the running
    statistics that the first pass updates do not reach it, and the learnable
    parameters are as they were. *)
Theorem forward_log_mean_of_shared_pipeline
    (bins marks nb_cls B cmarks cnb_cls cB L L' : nat) (leaky : bool)
    (kself : KimNet.t) (cself : ConvNet.t) (g : Generator) (kf kr cf cr : Tensor) :
  0 < bins * marks -> 0 < nb_cls -> KimNet_inv bins marks nb_cls kself ->
  numel (shape kf) = B * (bins * marks) -> numel (shape kr) = B * (bins * marks) ->
  ConvNet_inv cmarks cnb_cls leaky cself -> 2 <= cnb_cls -> 1 <= cB ->
  4 <= L -> 4 <= L' ->
  shape cf = [cB; cmarks; L] -> shape cr = [cB; cmarks; L'] ->
  (exists pf g1 pr g2 y,
     KimNet_pipeline kself g kf = Ok (pf, g1)
     /\ KimNet_pipeline kself g1 kr = Ok (pr, g2)
     /\ KimNet.forward kself g kf (Some kr) = Ok (y, kself, g2)
     /\ (KimNet.training kself = false -> g1 = g /\ g2 = g)
     /\ distribution B nb_cls (data pf)
     /\ distribution B nb_cls (data pr)
     /\ forall i, i < B * nb_cls -> at1 y i = ln ((at1 pf i + at1 pr i) / 2)%R)
  /\ (exists pf pr y self' g',
        ConvNet_pipeline cself g cf = Ok pf
        /\ ConvNet_pipeline cself g cr = Ok pr
        /\ ConvNet.forward cself g cf (Some cr) = Ok (y, self', g')
        /\ ConvNet_parameters self' = ConvNet_parameters cself
        /\ distribution cB cnb_cls (data pf)
        /\ distribution cB cnb_cls (data pr)
        /\ forall i, i < cB * cnb_cls -> at1 y i = ln ((at1 pf i + at1 pr i) / 2)%R).
Proof.
  intros Hk Hc Hkinv Hkf Hkr Hcinv Hcc HB HL HL' Hcf Hcr. split.
  - pose proof Hkinv as (Hb & Hm & _).
    destruct (KimNet_pipeline_ok bins marks nb_cls B kself g kf Hk Hc Hkinv Hkf)
      as (pf & g1 & Pf & Ef & Sf & Df & Gf).
    destruct (KimNet_pipeline_ok bins marks nb_cls B kself g1 kr Hk Hc Hkinv Hkr)
      as (pr & g2 & Pr & Er & Sr & Dr & Gr).
    exists pf, g1, pr, g2.
    exists (torch_log (torch_div {| shape := shape pf;
                                    data := map2 Rplus (data pf) (data pr) |} 2)).
    split; [exact Pf|]. split; [exact Pr|]. split; [|split; [|split; [|split]]].
    + unfold KimNet.forward.
      rewrite Hb, Hm, (view_rows_ok _ _ _ Hk Hkf). cbn [bind]. rewrite Ef. cbn [bind].
      rewrite KimNet_with_model_same.
      rewrite Hb, Hm, (view_rows_ok _ _ _ Hk Hkr). cbn [bind]. rewrite Er. cbn [bind].
      rewrite torch_add_same_shape by congruence. cbn [bind].
      now rewrite KimNet_with_model_same.
    + intros Htr. specialize (Gf Htr). subst g1. split; [reflexivity | exact (Gr Htr)].
    + exact Df.
    + exact Dr.
    + intros i Hi. unfold at1, torch_log, torch_div. cbn [data].
      destruct Df as [Lf _], Dr as [Lr _].
      now apply (nth_log_average (B * nb_cls)).
  - destruct (ConvNet_forward_prop_ok cmarks cnb_cls cB L leaky cself cf g Hcinv) as
      (pf & s1 & g1 & Ef & Sf & Df & Hinv1 & _ & Pf); auto; try lia.
    destruct (ConvNet_forward_prop_ok cmarks cnb_cls cB L' leaky s1 cr g1 Hinv1) as
      (pr & s2 & g2 & Er & Sr & Dr & _ & _ & Pr); auto; try lia.
    pose proof (ConvNet_forward_prop_sim cmarks cnb_cls leaky cself s1 cr g g1 Hcinv
                  (ConvNet_forward_prop_sim_self _ _ _ _ _ _ Ef)) as Hsim.
    rewrite Er in Hsim.
    exists pf, pr.
    exists (torch_squeeze
              (torch_log (torch_div {| shape := shape pf;
                                       data := map2 Rplus (data pf) (data pr) |} 2))).
    exists s2, g2.
    split; [|split; [|split; [|split; [|split; [|split]]]]].
    + unfold ConvNet_pipeline. now rewrite Ef.
    + unfold ConvNet_pipeline.
      destruct (ConvNet.forward_prop cself cr g) as [[[pr0 s3] g3]|e]; simpl in Hsim;
        [|contradiction].
      now subst pr0.
    + unfold ConvNet.forward. rewrite Ef. cbn [bind]. rewrite Er. cbn [bind].
      rewrite torch_add_same_shape by congruence. reflexivity.
    + congruence.
    + exact Df.
    + exact Dr.
    + intros i Hi. unfold at1, torch_squeeze, torch_log, torch_div. cbn [data].
      destruct Df as [Lf _], Dr as [Lr _].
      now apply (nth_log_average (cB * cnb_cls)).
Qed.

Lemma forward_log_mean_of_shared_pipeline_witness :
  (exists pf g1 pr g2 y,
     KimNet_pipeline KimNet_20_3_5 zero_generator (full [4; 20; 3] 1) = Ok (pf, g1)
     /\ KimNet_pipeline KimNet_20_3_5 g1 (full [4; 20; 3] 2) = Ok (pr, g2)
     /\ KimNet.forward KimNet_20_3_5 zero_generator (full [4; 20; 3] 1)
          (Some (full [4; 20; 3] 2)) = Ok (y, KimNet_20_3_5, g2)
     /\ (KimNet.training KimNet_20_3_5 = false -> g1 = zero_generator /\ g2 = zero_generator)
     /\ distribution 4 5 (data pf)
     /\ distribution 4 5 (data pr)
     /\ forall i, i < 4 * 5 -> at1 y i = ln ((at1 pf i + at1 pr i) / 2)%R)
  /\ (exists pf pr y self' g',
        ConvNet_pipeline ConvNet_3_5 zero_generator (full [4; 3; 128] 1) = Ok pf
        /\ ConvNet_pipeline ConvNet_3_5 zero_generator (full [4; 3; 64] 2) = Ok pr
        /\ ConvNet.forward ConvNet_3_5 zero_generator (full [4; 3; 128] 1)
             (Some (full [4; 3; 64] 2)) = Ok (y, self', g')
        /\ ConvNet_parameters self' = ConvNet_parameters ConvNet_3_5
        /\ distribution 4 5 (data pf)
        /\ distribution 4 5 (data pr)
        /\ forall i, i < 4 * 5 -> at1 y i = ln ((at1 pf i + at1 pr i) / 2)%R).
Proof.
  apply (forward_log_mean_of_shared_pipeline 20 3 5 4 3 5 4 128 64 false
           KimNet_20_3_5 ConvNet_3_5 zero_generator
           (full [4; 20; 3] 1) (full [4; 20; 3] 2)
           (full [4; 3; 128] 1) (full [4; 3; 64] 2)).
  - lia.
  - lia.
  - apply (KimNet_init_inv 20 3 5).
  - reflexivity.
  - reflexivity.
  - exact ConvNet_3_5_inv.
  - lia.
  - lia.
  - lia.
  - lia.
  - reflexivity.
  - reflexivity.
Defined.
